(** * Metrics engine of the e-commerce dashboard (assets/app.js)

    A shallow embedding of the computations of [assets/app.js] and the
    properties of its metrics.

    Conventions of the embedding.
    - A JavaScript number is an exact rational ([Qc], canonical rationals
      with Leibniz equality): sums, products and quotients are computed
      without rounding, and there is no NaN or infinity.  Lengths, sizes
      and time values (milliseconds since the epoch) are integers.  What
      is proved of a sum or a quotient is therefore proved up to the
      rounding of the double-precision operations of the language; the
      module [Ieee] embeds the sums with these operations, to show where
      rounding separates two sums that are equal as rationals.
    - A JavaScript [Map] is a finite map ([gmap]) and a [Set] a finite set
      ([gset]); iteration over them is a fold ([map_fold], [set_fold]).
    - An [Array] is a list; [reduce] is [fold_left]; [sort] is a stable
      sort driven by the comparator.
    - The built-in [Date] is an interface ([DateBuiltins]): parsing and the
      local calendar getters are parameters of the development. *)

From Stdlib Require Import QArith Qcanon Qround ZArith String Ascii PrimFloat.
From stdpp Require Import base numbers list strings gmap sorting pretty.

#[local] Set Warnings "-clear-no-such-hyp".
#[local] Set Warnings "-inexact-float".

Local Open Scope Z_scope.
Local Open Scope Qc_scope.

(** * Part I: the model *)

(** ** JavaScript primitives *)

Module Js.

(** [x || d] for a number [x]: the number 0 is falsy. *)
Definition num_or (x d : Qc) : Qc := if decide (x = 0) then d else x.

(** [v || d] where [v] is a numeric field that may be missing, or the
    result of [Map.prototype.get] on a map of numbers: [undefined] and 0
    are falsy. *)
Definition get_or (v : option Qc) (d : Qc) : Qc :=
  match v with
  | Some x => num_or x d
  | None => d
  end.

(** [n || 1] for an array length or a set size. *)
Definition len_or1 (n : nat) : nat :=
  match n with
  | O => 1%nat
  | S _ => n
  end.

Definition of_nat (n : nat) : Qc := Qc_of_Z (Z.of_nat n).

(** [arr.reduce((a,b)=>a+b, 0)] *)
Definition sum (arr : list Qc) : Qc := fold_left Qcplus arr 0.

(** [Math.floor] *)
Definition floor (x : Qc) : Z := Qfloor x.

(** [arr.sort(cmp)].  The sort of the language is stable, so its result
    is determined by the comparator; [leb a b] says that the comparator
    does not put [b] before [a] ([cmp(a,b) <= 0]). *)
Fixpoint insert_sorted {A} (leb : A → A → bool) (x : A) (l : list A) : list A :=
  match l with
  | [] => [x]
  | y :: l' => if leb x y then x :: y :: l' else y :: insert_sorted leb x l'
  end.

Fixpoint sort {A} (leb : A → A → bool) (l : list A) : list A :=
  match l with
  | [] => []
  | x :: l' => insert_sorted leb x (sort leb l')
  end.

(** [arr[i]] for an integer [i]: outside the array it reads [undefined]. *)
Definition at_index {A} (arr : list A) (i : Z) : option A :=
  if decide (0 ≤ i)%Z then arr !! Z.to_nat i else None.

(** [new Map(entries)]: the entries are set in order, so a later entry
    with the same key overwrites an earlier one. *)
Definition map_of_entries `{Countable K} {V} (entries : list (K * V)) : gmap K V :=
  fold_left (λ m kv, <[kv.1 := kv.2]> m) entries ∅.

(** [Array.from(map.keys())] *)
Definition keys `{Countable K} {V} (m : gmap K V) : list K := (map_to_list m).*1.

(** [Array.from(map.values()).reduce((a,b)=>a+b, 0)] *)
Definition sum_values `{Countable K} (m : gmap K Qc) : Qc :=
  map_fold (λ _ v acc, acc + v) 0 m.

(** [String.prototype.padStart(n, c)] for a one-character filler. *)
Definition padStart (n : nat) (c : ascii) (s : string) : string :=
  Nat.iter (n - String.length s) (String c) s.

End Js.

(** ** The built-in Date

    A [Date] object is represented by its time value, the number of
    milliseconds since the epoch.  Parsing a date string and the calendar
    getters depend on the local time zone of the host; they are the
    operations of this interface.  Date strings are taken to parse to a
    valid date, and time values to stay in the range of valid dates. *)

Class DateBuiltins := {
  (** [new Date(s)] *)
  date_of_string : string → Z;
  (** [new Date(year, month, day, hours, minutes)] *)
  date_of_fields : Z → Z → Z → Z → Z → Z;
  (** [d.getFullYear()] *)
  getFullYear : Z → Z;
  (** [d.getMonth()], from 0 for January *)
  getMonth : Z → Z;
  (** [new Date().getFullYear()] *)
  current_year : Z
}.

(** ** Record model *)

Module Order.
Record t := {
  order_id : string;
  customer_id : string;
  product_id : string;
  order_date : string;
  quantity : option Qc;
  unit_price : option Qc;
  discount : option Qc;
  channel : string;
  payment_method : string
}.
End Order.

Module Customer.
Record t := {
  customer_id : string;
  segment : string;
  country : string
}.
End Customer.

Module Product.
Record t := {
  product_id : string;
  category : string
}.
End Product.

(** An order after enrichment: the fields of the row ([base]) and the five
    fields that [main] writes into it. *)
Module Enriched.
Record t := {
  base : Order.t;
  order_dt : Z;
  revenue : Qc;
  category : string;
  segment : string;
  country : string
}.
Definition customer_id (o : t) : string := Order.customer_id (base o).
Definition product_id (o : t) : string := Order.product_id (base o).
Definition discount (o : t) : option Qc := Order.discount (base o).
Definition channel (o : t) : string := Order.channel (base o).
Definition payment_method (o : t) : string := Order.payment_method (base o).
End Enriched.

(** ** Aggregation primitives *)

(** [function mean(arr)] *)
Definition mean (arr : list Qc) : Qc :=
  Js.sum arr / Js.of_nat (Js.len_or1 (length arr)).

(** [function groupSum(arr, keyFn, valFn)] *)
Definition groupSum `{Countable K} {X} (arr : list X) (keyFn : X → K) (valFn : X → Qc)
    : gmap K Qc :=
  fold_left
    (λ m x,
       let k := keyFn x in
       let v := valFn x in
       <[k := Js.get_or (m !! k) 0 + v]> m)
    arr ∅.

(** [function toShareMap(map)] *)
Definition toShareMap `{Countable K} (map : gmap K Qc) : gmap K Qc :=
  let total := Js.num_or (Js.sum_values map) 1 in
  map_fold (λ k v out, <[k := v / total]> out) ∅ map.

(** ** Grouped sums in double precision

    The numbers of the language are IEEE-754 doubles.  This module embeds
    [groupSum] and the two sums compared with it with the additions of
    the machine, and a [Map] with the order of its entries. *)

Module Ieee.

(** [x || d] for a number [x]: 0, -0 and NaN are falsy. *)
Definition num_or (x d : float) : float :=
  if PrimFloat.eqb x 0 || negb (PrimFloat.eqb x x) then d else x.

(** [v || d] for the result of [Map.prototype.get] on a map of numbers. *)
Definition get_or (v : option float) (d : float) : float :=
  match v with
  | Some x => num_or x d
  | None => d
  end.

(** [arr.reduce((a,b)=>a+b, 0)] *)
Definition sum (arr : list float) : float := fold_left PrimFloat.add arr 0%float.

(** A [Map] of numbers: the list of its entries in the order in which
    their keys were first set, which is the order of [values()]. *)
Definition Map (K : Type) : Type := list (K * float).

Section Map.
Context `{EqDecision K}.

(** [m.get(k)] *)
Fixpoint get (m : Map K) (k : K) : option float :=
  match m with
  | [] => None
  | (k', v) :: m' => if decide (k' = k) then Some v else get m' k
  end.

(** [m.set(k, v)]: a key that is present keeps its place. *)
Fixpoint set (m : Map K) (k : K) (v : float) : Map K :=
  match m with
  | [] => [(k, v)]
  | (k', v') :: m' => if decide (k' = k) then (k, v) :: m' else (k', v') :: set m' k v
  end.

(** [function groupSum(arr, keyFn, valFn)] *)
Definition groupSum {X} (arr : list X) (keyFn : X → K) (valFn : X → float) : Map K :=
  fold_left
    (λ m x,
       let k := keyFn x in
       let v := valFn x in
       set m k (PrimFloat.add (get_or (get m k) 0%float) v))
    arr [].

End Map.

(** [Array.from(map.values())] *)
Definition values {K} (m : Map K) : list float := m.*2.

End Ieee.

(** ** Bootstrap confidence interval

    [Math.random] is a stream of numbers [rnd 0], [rnd 1], ...; the state
    threaded through the estimator is the number of draws made so far. *)

Record CI := { diff : Qc; lo : option Qc; hi : option Qc }.

Section Bootstrap.
Variable rnd : nat → Qc.

(** [data[Math.floor(Math.random()*data.length)]], given the drawn number;
    an index outside the array reads [undefined]. *)
Definition pick (data : list Qc) (r : Qc) : option Qc :=
  Js.at_index data (Js.floor (r * Js.of_nat (length data))).

(** [Array.from({length: n}, () => data[...])] *)
Fixpoint resample (data : list Qc) (n : nat) (s : nat) : option (list Qc) * nat :=
  match n with
  | O => (Some [], s)
  | S n' =>
      let x := pick data (rnd s) in
      let '(xs, s') := resample data n' (S s) in
      (x' ← x; xs' ← xs; Some (x' :: xs'), s')
  end.

(** The loop [for (let i = 0; i < B; i++)]; [diffs] is the array of
    differences pushed so far.  A sample that read [undefined] has no
    mean. *)
Fixpoint bootstrap_loop (dataA dataB : list Qc) (B : nat) (s : nat)
    (diffs : list (option Qc)) : list (option Qc) * nat :=
  match B with
  | O => (diffs, s)
  | S B' =>
      let '(sampleA, s1) := resample dataA (length dataA) s in
      let '(sampleB, s2) := resample dataB (length dataB) s1 in
      let d := a ← sampleA; b ← sampleB; Some (mean a - mean b) in
      bootstrap_loop dataA dataB B' s2 (diffs ++ [d])
  end.

(** [function bootstrapCI(dataA, dataB, B)]; the result comes with the
    state of the random source. *)
Definition bootstrapCI (dataA dataB : list Qc) (B : nat) (s : nat) : CI * nat :=
  let mA := mean dataA in
  let mB := mean dataB in
  let diff := mA - mB in
  let '(diffs, s') := bootstrap_loop dataA dataB B s [] in
  let sorted := Js.sort (λ x y, bool_decide (x - y ≤ 0)) <$> mapM id diffs in
  let lo := sorted ≫= (λ l, Js.at_index l (Js.floor (Q2Qc 0.025 * Js.of_nat B))) in
  let hi := sorted ≫= (λ l, Js.at_index l (Js.floor (Q2Qc 0.975 * Js.of_nat B))) in
  ({| diff := diff; lo := lo; hi := hi |}, s').

End Bootstrap.

(** ** The analysis of [main] *)

Record Churn := { rate : Qc; churned : nat; buyers : nat; cutoff : Z }.

Section Engine.
Context `{DateBuiltins}.

(** [function parseDate(s)] *)
Definition parseDate (s : string) : Z := date_of_string s.

(** *** Join and enrichment *)

(** [new Map(products.map(p => [p.product_id, p]))] *)
Definition prodById (products : list Product.t) : gmap string Product.t :=
  Js.map_of_entries ((λ p, (Product.product_id p, p)) <$> products).

(** [new Map(customers.map(c => [c.customer_id, c]))] *)
Definition custById (customers : list Customer.t) : gmap string Customer.t :=
  Js.map_of_entries ((λ c, (Customer.customer_id c, c)) <$> customers).

(** The body of [orders.forEach(o => ...)]: the fields it writes into [o]. *)
Definition enrich (prods : gmap string Product.t) (custs : gmap string Customer.t)
    (o : Order.t) : Enriched.t :=
  let p := prods !! Order.product_id o in
  let c := custs !! Order.customer_id o in
  {| Enriched.base := o;
     Enriched.order_dt := parseDate (Order.order_date o);
     Enriched.revenue := Js.get_or (Order.quantity o) 0 * Js.get_or (Order.unit_price o) 0;
     Enriched.category := match p with Some p => Product.category p | None => "Unknown" end;
     Enriched.segment := match c with Some c => Customer.segment c | None => "Unknown" end;
     Enriched.country := match c with Some c => Customer.country c | None => "Unknown" end |}.

(** The orders as every later computation reads them. *)
Definition enrichOrders (orders : list Order.t) (customers : list Customer.t)
    (products : list Product.t) : list Enriched.t :=
  enrich (prodById products) (custById customers) <$> orders.

(** *** Revenue and buyers *)

(** [orders.reduce((s,o)=>s+o.revenue, 0)] *)
Definition totalRev (orders : list Enriched.t) : Qc :=
  fold_left (λ s o, s + Enriched.revenue o) orders 0.

(** The map [ordersByCust] filled by the loop over the orders. *)
Definition ordersByCust (orders : list Enriched.t) : gmap string Qc :=
  fold_left
    (λ m o, <[Enriched.customer_id o := Js.get_or (m !! Enriched.customer_id o) 0 + 1]> m)
    orders ∅.

(** [Array.from(ordersByCust.keys())] *)
Definition buyersOf (orders : list Enriched.t) : list string :=
  Js.keys (ordersByCust orders).

(** *** Promotional window *)

(** [(o.discount||0) > 0] *)
Definition discounted (o : Enriched.t) : bool :=
  bool_decide (0 < Js.get_or (Enriched.discount o) 0).

(** [mean(os.filter(o => (o.discount||0) > 0).map(o => o.discount||0)) || 0],
    the expression of [bfAvgDiscOnly] and [nonbfAvgDiscOnly]. *)
Definition avgDiscOnly (os : list Enriched.t) : Qc :=
  Js.num_or
    (mean ((λ o, Js.get_or (Enriched.discount o) 0) <$> filter discounted os)) 0.

Definition promoYear (orders : list Enriched.t) : Z :=
  match orders with
  | o :: _ => getFullYear (Enriched.order_dt o)
  | [] => current_year
  end.

Definition bfStart (orders : list Enriched.t) : Z :=
  date_of_fields (promoYear orders) 10 20 0 0.

Definition bfEnd (orders : list Enriched.t) : Z :=
  date_of_fields (promoYear orders) 10 30 23 59.

(** [o.order_dt >= bfStart && o.order_dt <= bfEnd] *)
Definition inBf (orders : list Enriched.t) (o : Enriched.t) : bool :=
  bool_decide (bfStart orders ≤ Enriched.order_dt o)%Z
  && bool_decide (Enriched.order_dt o ≤ bfEnd orders)%Z.

Definition bfOrders (orders : list Enriched.t) : list Enriched.t :=
  filter (λ o, inBf orders o) orders.

Definition nonbfOrders (orders : list Enriched.t) : list Enriched.t :=
  filter (λ o, negb (inBf orders o)) orders.

Definition bfAvgDiscOnly (orders : list Enriched.t) : Qc :=
  avgDiscOnly (bfOrders orders).

Definition nonbfAvgDiscOnly (orders : list Enriched.t) : Qc :=
  avgDiscOnly (nonbfOrders orders).

(** *** Churn *)

(** [orders.reduce((max, o) => o.order_dt > max ? o.order_dt : max, new Date(0))] *)
Definition endDate (orders : list Enriched.t) : Z :=
  fold_left
    (λ max o, if decide (Enriched.order_dt o > max)%Z then Enriched.order_dt o else max)
    orders 0%Z.

(** The map [lastOrder] filled by the first loop of [computeChurn].  A
    [Date] object is truthy, so [lastOrder.get(c) || new Date(0)] is the
    epoch only for a missing key. *)
Definition lastOrder (orders : list Enriched.t) : gmap string Z :=
  fold_left
    (λ m o,
       let dt := Enriched.order_dt o in
       let prev := default 0%Z (m !! Enriched.customer_id o) in
       if decide (dt > prev)%Z then <[Enriched.customer_id o := dt]> m else m)
    orders ∅.

(** The test [lo < cutoff] of the second loop, for the buyer [c]. *)
Definition isChurned (last : gmap string Z) (cutoff : Z) (c : string) : bool :=
  let lo := default 0%Z (last !! c) in
  bool_decide (lo < cutoff)%Z.

(** [function computeChurn(windowDays)], with the variables [orders],
    [buyers] and [endDate] of [main] that it closes over. *)
Definition computeChurn (orders : list Enriched.t) (windowDays : N) : Churn :=
  let cutoff := (endDate orders - Z.of_N windowDays * 24 * 3600 * 1000)%Z in
  let buyersSet : gset string := list_to_set (buyersOf orders) in
  let last := lastOrder orders in
  let churned := set_fold (λ c n, if isChurned last cutoff c then S n else n) O buyersSet in
  {| rate := Js.of_nat churned / Js.of_nat (Js.len_or1 (size buyersSet));
     churned := churned;
     buyers := size buyersSet;
     cutoff := cutoff |}.

(** *** Cohort retention matrix *)

(** [orders.sort((a,b)=>a.order_dt-b.order_dt)]; it sorts the array
    [orders] itself, so the loops after it see the sorted array. *)
Definition sortOrders (orders : list Enriched.t) : list Enriched.t :=
  Js.sort (λ a b, bool_decide (Enriched.order_dt a - Enriched.order_dt b ≤ 0)%Z) orders.

(** The map [firstOrder] filled by the loop over the sorted orders. *)
Definition firstOrder (sorted : list Enriched.t) : gmap string Z :=
  fold_left
    (λ m o,
       match m !! Enriched.customer_id o with
       | Some _ => m
       | None => <[Enriched.customer_id o := Enriched.order_dt o]> m
       end)
    sorted ∅.

(** [ym(d)]: the year, a dash and the month number on two digits. *)
Definition ym (d : Z) : string :=
  pretty (getFullYear d) +:+ "-" +:+ Js.padStart 2 "0" (pretty (getMonth d + 1)%Z).

(** One round of [if (!m.has(key)) m.set(key, new Set()); m.get(key).add(x)]:
    the set stored under [key] gains [x]. *)
Definition addToGroup (key x : string) (m : gmap string (gset string))
    : gmap string (gset string) :=
  let m1 := match m !! key with Some _ => m | None => <[key := ∅]> m end in
  match m1 !! key with
  | Some s => <[key := s ∪ {[x]}]> m1
  | None => m1
  end.

(** The map [cohortMembers] filled by the loop over [firstOrder.entries()]. *)
Definition cohortMembers (first : gmap string Z) : gmap string (gset string) :=
  map_fold (λ cid dt m, addToGroup (ym dt) cid m) ∅ first.

(** The map [buyersByMonth] filled by the loop over the orders. *)
Definition buyersByMonth (orders : list Enriched.t) : gmap string (gset string) :=
  fold_left
    (λ m o, addToGroup (ym (Enriched.order_dt o)) (Enriched.customer_id o) m)
    orders ∅.

(** [Array.from(new Set([...buyersByMonth.keys(), ...cohortMembers.keys()])).sort()];
    the default sort compares strings by their code units. *)
Definition monthsOf (byMonth cohorts : gmap string (gset string)) : list string :=
  Js.sort String.leb
    (elements (list_to_set (Js.keys byMonth ++ Js.keys cohorts) : gset string)).

(** One cell of the matrix, the body of the inner [months.map]. *)
Definition retentionCell (byMonth : gmap string (gset string)) (cohort : gset string)
    (iIdx jIdx : nat) (mj : string) : option Qc :=
  if decide (jIdx < iIdx)%nat then None
  else
    let buyersSet := default ∅ (byMonth !! mj) in
    let kept := length (filter (λ c, c ∈ buyersSet) (elements cohort)) in
    Some (match size cohort with
          | O => 0
          | S _ => Js.of_nat kept / Js.of_nat (size cohort)
          end).

(** [months.map((mi, iIdx) => ... months.map((mj, jIdx) => ...))] *)
Definition retentionOf (months : list string) (byMonth cohorts : gmap string (gset string))
    : list (list (option Qc)) :=
  imap
    (λ iIdx mi,
       let cohort := default ∅ (cohorts !! mi) in
       imap (λ jIdx mj, retentionCell byMonth cohort iIdx jIdx mj) months)
    months.

(** The month axis and the matrix that [main] computes from the enriched
    orders. *)
Definition months (orders : list Enriched.t) : list string :=
  let sorted := sortOrders orders in
  monthsOf (buyersByMonth sorted) (cohortMembers (firstOrder sorted)).

Definition retention (orders : list Enriched.t) : list (list (option Qc)) :=
  let sorted := sortOrders orders in
  let cohorts := cohortMembers (firstOrder sorted) in
  let byMonth := buyersByMonth sorted in
  retentionOf (monthsOf byMonth cohorts) byMonth cohorts.

End Engine.

(** ** The arrays of [main] as mutable objects

    [main] keeps the three loaded arrays for the whole run and works on the
    order objects in place.  An order object is either as loaded ([Row]) or
    carries the five written fields ([Written]). *)

Inductive OrderObj :=
  | Row (o : Order.t)
  | Written (e : Enriched.t).

Record Store := {
  st_orders : list OrderObj;
  st_customers : list Customer.t;
  st_products : list Product.t
}.

Record Results := {
  r_totalRev : Qc;
  r_monthRev : gmap Z Qc;
  r_catOverall : gmap string Qc;
  r_ci : CI;
  r_channelShare : gmap string Qc;
  r_payShares : gmap string Qc;
  r_geoShares : gmap string Qc;
  r_bfAvgDiscOnly : Qc;
  r_nonbfAvgDiscOnly : Qc;
  r_churn60 : Churn;
  r_churn90 : Churn;
  r_churn120 : Churn;
  r_churn180 : Churn;
  r_months : list string;
  r_retention : list (list (option Qc))
}.

(** The fields of the row of an order object. *)
Definition rowOf (obj : OrderObj) : Order.t :=
  match obj with
  | Row o => o
  | Written e => Enriched.base e
  end.

(** The written fields of an order object, once it has them. *)
Definition writtenOf (obj : OrderObj) : option Enriched.t :=
  match obj with
  | Row _ => None
  | Written e => Some e
  end.

Section Main.
Context `{DateBuiltins}.

(** The arrays as the loader hands them over. *)
Definition loaded (orders : list Order.t) (customers : list Customer.t)
    (products : list Product.t) : Store :=
  {| st_orders := Row <$> orders; st_customers := customers; st_products := products |}.

(** [orders.forEach(o => { o.order_dt = ...; ... })] *)
Definition enrichStep (st : Store) : Store :=
  let prods := prodById (st_products st) in
  let custs := custById (st_customers st) in
  {| st_orders := (λ obj, Written (enrich prods custs (rowOf obj))) <$> st_orders st;
     st_customers := st_customers st;
     st_products := st_products st |}.

(** The orders as the metric code reads them after the enrichment. *)
Definition readOrders (st : Store) : list Enriched.t :=
  omap writtenOf (st_orders st).

(** The comparator [(a,b)=>a.order_dt-b.order_dt] on order objects; without
    the field the difference is NaN and the pair is left in place. *)
Definition objLeb (a b : OrderObj) : bool :=
  match writtenOf a, writtenOf b with
  | Some x, Some y => bool_decide (Enriched.order_dt x - Enriched.order_dt y ≤ 0)%Z
  | _, _ => true
  end.

(** [orders.sort(...)] on the array of the store. *)
Definition sortStep (st : Store) : Store :=
  {| st_orders := Js.sort objLeb (st_orders st);
     st_customers := st_customers st;
     st_products := st_products st |}.

(** The computation of [main] up to the rendering: the metrics and the
    arrays as it leaves them; [s] is the state of the random source. *)
Definition main (rnd : nat → Qc) (s : nat) (st : Store) : Results * Store :=
  let st1 := enrichStep st in
  let orders := readOrders st1 in
  let webRevs := Enriched.revenue <$> filter (λ o, bool_decide (Enriched.channel o = "Web")) orders in
  let mobileRevs := Enriched.revenue <$> filter (λ o, bool_decide (Enriched.channel o = "Mobile")) orders in
  let ci := fst (bootstrapCI rnd webRevs mobileRevs 2000 s) in
  let st2 := sortStep st1 in
  let sorted := readOrders st2 in
  let cohorts := cohortMembers (firstOrder sorted) in
  let byMonth := buyersByMonth sorted in
  let axis := monthsOf byMonth cohorts in
  ({| r_totalRev := totalRev orders;
      r_monthRev := groupSum orders (λ o, getMonth (Enriched.order_dt o) + 1)%Z Enriched.revenue;
      r_catOverall := groupSum orders Enriched.category Enriched.revenue;
      r_ci := ci;
      r_channelShare := toShareMap (groupSum orders Enriched.channel Enriched.revenue);
      r_payShares := toShareMap (groupSum orders Enriched.payment_method Enriched.revenue);
      r_geoShares := toShareMap (groupSum orders Enriched.country Enriched.revenue);
      r_bfAvgDiscOnly := bfAvgDiscOnly orders;
      r_nonbfAvgDiscOnly := nonbfAvgDiscOnly orders;
      r_churn60 := computeChurn orders 60;
      r_churn90 := computeChurn orders 90;
      r_churn120 := computeChurn orders 120;
      r_churn180 := computeChurn orders 180;
      r_months := axis;
      r_retention := retentionOf axis byMonth cohorts |},
   st2).

End Main.

(** ** A host for the examples

    A host whose local time zone is UTC, on the proleptic Gregorian
    calendar, reading date strings of the form [YYYY-MM-DDTHH:MM]. *)

Module Utc.

Definition digits (s : string) : Z :=
  fold_left (λ acc c, acc * 10 + (Z.of_nat (nat_of_ascii c) - 48))%Z (list_ascii_of_string s) 0%Z.

Definition field (s : string) (start len : nat) : Z := digits (substring start len s).

Definition days_of_civil (y m d : Z) : Z :=
  (let y' := if decide (m ≤ 2) then y - 1 else y in
   let era := y' `div` 400 in
   let yoe := y' - era * 400 in
   let mp := (m + 9) `mod` 12 in
   let doy := (153 * mp + 2) `div` 5 + d - 1 in
   let doe := yoe * 365 + yoe `div` 4 - yoe `div` 100 + doy in
   era * 146097 + doe - 719468)%Z.

(** Year and month (from 1) of a day number. *)
Definition civil_of_days (z : Z) : Z * Z :=
  (let z := z + 719468 in
   let era := z `div` 146097 in
   let doe := z - era * 146097 in
   let yoe := (doe - doe `div` 1460 + doe `div` 36524 - doe `div` 146096) `div` 365 in
   let doy := doe - (365 * yoe + yoe `div` 4 - yoe `div` 100) in
   let mp := (5 * doy + 2) `div` 153 in
   let m := if decide (mp < 10) then mp + 3 else mp - 9 in
   (if decide (m ≤ 2) then yoe + era * 400 + 1 else yoe + era * 400, m))%Z.

Definition of_fields (y m d h mi : Z) : Z :=
  (((days_of_civil y (m + 1) d * 24 + h) * 60 + mi) * 60000)%Z.

Definition of_string (s : string) : Z :=
  of_fields (field s 0 4) (field s 5 2 - 1) (field s 8 2) (field s 11 2) (field s 14 2).

#[export] Instance host : DateBuiltins := {|
  date_of_string := of_string;
  date_of_fields := of_fields;
  getFullYear := λ t, (civil_of_days (t `div` 86400000)).1;
  getMonth := λ t, ((civil_of_days (t `div` 86400000)).2 - 1)%Z;
  current_year := 2026%Z
|}.

End Utc.

(** ** Reference definitions

    Notions in which the properties below are stated, written after the
    description of the metrics rather than after the code. *)

(** [t] is the greatest (least) element of [ts]. *)
Definition maxOf (ts : list Z) (t : Z) : Prop :=
  t ∈ ts ∧ ∀ x, x ∈ ts → (x ≤ t)%Z.

Definition minOf (ts : list Z) (t : Z) : Prop :=
  t ∈ ts ∧ ∀ x, x ∈ ts → (t ≤ x)%Z.

(** The discount of an order when it has one that is greater than zero. *)
Definition discountOf (o : Enriched.t) : option Qc :=
  match Enriched.discount o with
  | Some d => if decide (0 < d) then Some d else None
  | None => None
  end.

(** Average discount depth: the mean of the discounts of the discounted
    orders, 0 when there is none. *)
Definition discountDepthSpec (os : list Enriched.t) : Qc :=
  match omap discountOf os with
  | [] => 0
  | ds => Js.sum ds / Js.of_nat (length ds)
  end.

(** [xs] is a resample of [data]: as many elements, each one an element
    of [data]. *)
Definition isResample (data xs : list Qc) : Prop :=
  length xs = length data ∧ ∀ x, x ∈ xs → x ∈ data.

(** [d] is the difference of the means of a resample of [dataA] and a
    resample of [dataB]. *)
Definition isResampledDiff (dataA dataB : list Qc) (d : Qc) : Prop :=
  ∃ sa sb, isResample dataA sa ∧ isResample dataB sb ∧ d = mean sa - mean sb.

(** The position that the draw [r] selects in an array of [n] elements. *)
Definition drawIndex (r : Qc) (n : nat) : nat := Z.to_nat (Js.floor (r * Js.of_nat n)).

(** The resample of [data] made with the draws number [start],
    [start + 1], ... of the random source: as many elements as [data],
    the one of rank [j] being the element of [data] at the position that
    the draw number [start + j] selects. *)
Definition drawnSample (rnd : nat → Qc) (data : list Qc) (start : nat) : list Qc :=
  (λ j, default 0 (data !! drawIndex (rnd (start + j)%nat) (length data)))
    <$> seq 0 (length data).

(** The resampled difference of the iteration of rank [i], when the
    first iteration starts at the draw number [s]: every iteration
    resamples [dataA], then [dataB]. *)
Definition replicateDiff (rnd : nat → Qc) (dataA dataB : list Qc) (s i : nat) : Qc :=
  let start := (s + i * (length dataA + length dataB))%nat in
  mean (drawnSample rnd dataA start)
  - mean (drawnSample rnd dataB (start + length dataA)%nat).

(** The resampled differences of [B] iterations, in the order of the
    iterations. *)
Definition replicateDiffs (rnd : nat → Qc) (dataA dataB : list Qc) (B s : nat) : list Qc :=
  replicateDiff rnd dataA dataB s <$> seq 0 B.

(** The key of the month [m] (from 0 for January) of the year [y]. *)
Definition monthKey (y m : Z) : string :=
  pretty y +:+ "-" +:+ Js.padStart 2 "0" (pretty (m + 1)%Z).

(** The month [(y1, m1)] comes before the month [(y2, m2)]. *)
Definition monthBefore (y1 m1 y2 m2 : Z) : Prop :=
  (y1 < y2 ∨ (y1 = y2 ∧ m1 < m2))%Z.

Section Reference.
Context `{DateBuiltins}.

(** The buyers with at least one order in the month [key]. *)
Definition activeBuyersSpec (orders : list Enriched.t) (key : string) : gset string :=
  list_to_set
    (Enriched.customer_id <$> filter (λ o, ym (Enriched.order_dt o) = key) orders).

(** The time stamps of the orders of the buyer [c]. *)
Definition orderTimesOf (orders : list Enriched.t) (c : string) : list Z :=
  Enriched.order_dt <$> filter (λ o, Enriched.customer_id o = c) orders.

(** The time stamp of the earliest order of [c], if [c] has an order. *)
Definition firstOrderTimeSpec (orders : list Enriched.t) (c : string) : option Z :=
  match orderTimesOf orders c with
  | [] => None
  | t :: ts => Some (fold_left Z.min ts t)
  end.

(** The cohort of the month [key]: the buyers whose earliest order falls
    in that month. *)
Definition cohortSpec (orders : list Enriched.t) (key : string) : gset string :=
  filter (λ c, ym <$> firstOrderTimeSpec orders c = Some key)
    (list_to_set (Enriched.customer_id <$> orders)).

(** The buyer [c] has a second order in the month [key]. *)
Definition orderedAgain (orders : list Enriched.t) (key c : string) : Prop :=
  (2 ≤ length (filter (λ o, Enriched.customer_id o = c ∧ ym (Enriched.order_dt o) = key)
                 orders))%nat.

(** The retention of a cohort in a month of the axis, for the cohort at
    position [i] and the month at position [j]. *)
Definition retentionCellSpec (cohort active : gset string) (i j : nat) : option Qc :=
  if decide (j < i)%nat then None
  else Some (if decide (size cohort = 0%nat) then 0
             else Js.of_nat (size (cohort ∩ active)) / Js.of_nat (size cohort)).

End Reference.

(** ** Example data *)

Module Ex.

Definition order (id cust prod date : string) (qty price disc : Qc) (chan pay : string)
    : Order.t :=
  {| Order.order_id := id; Order.customer_id := cust; Order.product_id := prod;
     Order.order_date := date; Order.quantity := Some qty; Order.unit_price := Some price;
     Order.discount := Some disc; Order.channel := chan; Order.payment_method := pay |}.

Definition q (n d : Z) : Qc := Qc_of_Z n / Qc_of_Z d.

Definition o1 : Order.t := order "O1" "C1" "P1" "2023-01-05T10:00" (q 1 1) (q 10 1) (q 0 1) "Web" "Card".
Definition o2 : Order.t := order "O2" "C1" "P2" "2023-01-20T19:30" (q 2 1) (q 10 1) (q 0 1) "Mobile" "Card".
Definition o3 : Order.t := order "O3" "C1" "P9" "2023-02-10T09:00" (q 3 1) (q 10 1) (q 1 10) "Web" "PayPal".
Definition o4 : Order.t := order "O4" "C2" "P2" "2023-01-15T12:00" (q 1 1) (q 5 1) (q 2 10) "Mobile" "Card".

(** Three orders of the customer C1 and one of C2. *)
Definition orders : list Order.t := [o1; o2; o3; o4].

(** The customer C1 is listed twice and C2 is not listed. *)
Definition c1 : Customer.t :=
  {| Customer.customer_id := "C1"; Customer.segment := "Consumer"; Customer.country := "US" |}.
Definition c1' : Customer.t :=
  {| Customer.customer_id := "C1"; Customer.segment := "Corporate"; Customer.country := "CA" |}.
Definition customers : list Customer.t := [c1; c1'].

(** The product P1 is listed twice and P9 is not listed. *)
Definition p1 : Product.t := {| Product.product_id := "P1"; Product.category := "Toys" |}.
Definition p2 : Product.t := {| Product.product_id := "P2"; Product.category := "Books" |}.
Definition p1' : Product.t := {| Product.product_id := "P1"; Product.category := "Games" |}.
Definition products : list Product.t := [p1; p2; p1'].

Definition enriched : list Enriched.t :=
  enrichOrders (H := Utc.host) orders customers products.

(** A dataset with one order. *)
Definition single : list Enriched.t :=
  enrichOrders (H := Utc.host) [o4] customers products.

(** Two orders from before 1970, of two customers. *)
Definition old1 : Order.t := order "O1" "A" "P1" "1969-09-01T00:00" (q 1 1) (q 10 1) (q 0 1) "Web" "Card".
Definition old2 : Order.t := order "O2" "B" "P1" "1969-12-31T00:00" (q 1 1) (q 10 1) (q 0 1) "Web" "Card".
Definition old : list Enriched.t :=
  enrichOrders (H := Utc.host) [old1; old2] customers products.

(** Two orders around the year 1000, of two customers. *)
Definition early1 : Order.t := order "O1" "A" "P1" "0999-06-15T10:00" (q 1 1) (q 10 1) (q 0 1) "Web" "Card".
Definition early2 : Order.t := order "O2" "B" "P1" "1000-01-10T10:00" (q 1 1) (q 10 1) (q 0 1) "Web" "Card".
Definition early : list Enriched.t :=
  enrichOrders (H := Utc.host) [early1; early2] customers products.

(** Two orders loaded with the later one first. *)
Definition unsorted : list Order.t := [o3; o1].

(** A random source that always draws one half. *)
Definition half : nat → Qc := λ _, q 1 2.

(** A random source that goes through the sevenths: 1/7, 4/7, 0, 3/7, ... *)
Definition sevenths : nat → Qc := λ n, q (Z.of_nat ((3 * n + 1) `mod` 7)) 7.

(** A row without quantity, and the orders [o1] and this one. *)
Definition o5 : Order.t :=
  {| Order.order_id := "O5"; Order.customer_id := "C2"; Order.product_id := "P1";
     Order.order_date := "2023-03-01T08:00"; Order.quantity := None;
     Order.unit_price := Some (q 7 1); Order.discount := None;
     Order.channel := "Web"; Order.payment_method := "Card" |}.
Definition partial : list Order.t := [o1; o5].

(** Three records of two groups, with values that are not binary
    fractions. *)
Definition priced : list (string * float) := [("A", 0.1); ("B", 0.1); ("A", 1.1)]%float.

End Ex.

(** ** Further metrics and helpers of [main] *)

Module JsNum.

(** [Math.round]: the nearest integer, halves going up. *)
Definition round (x : Qc) : Z := Js.floor (x + Q2Qc 0.5).

(** [Math.min] and [Math.max] of two numbers. *)
Definition min (a b : Qc) : Qc := if decide (a ≤ b) then a else b.
Definition max (a b : Qc) : Qc := if decide (a ≤ b) then b else a.

End JsNum.

(** The map [revByCust], filled by the same loop as [ordersByCust]. *)
Definition revByCust (orders : list Enriched.t) : gmap string Qc :=
  fold_left
    (λ m o,
       <[Enriched.customer_id o :=
           Js.get_or (m !! Enriched.customer_id o) 0 + Enriched.revenue o]> m)
    orders ∅.

(** [buyers.filter(c => (ordersByCust.get(c) || 0) > 1)] *)
Definition repeatBuyers (orders : list Enriched.t) : list string :=
  filter (λ c, 1 < Js.get_or (ordersByCust orders !! c) 0) (buyersOf orders).

(** [(repeatBuyers.length) / (buyers.length || 1)] *)
Definition repeatRateBuyers (orders : list Enriched.t) : Qc :=
  Js.of_nat (length (repeatBuyers orders))
  / Js.of_nat (Js.len_or1 (length (buyersOf orders))).

(** [buyers.map(c => revByCust.get(c) || 0).sort((a,b)=>b-a)] *)
Definition buyerRevs (orders : list Enriched.t) : list Qc :=
  Js.sort (λ a b, bool_decide (b - a ≤ 0))
    ((λ c, Js.get_or (revByCust orders !! c) 0) <$> buyersOf orders).

(** [buyerRevs.map((_,i)=> buyerRevs.slice(0,i+1).reduce((s,x)=>s+x,0) / (totalRev||1))] *)
Definition cumShares (orders : list Enriched.t) : list Qc :=
  imap
    (λ i _, Js.sum (take (S i) (buyerRevs orders)) / Js.num_or (totalRev orders) 1)
    (buyerRevs orders).

(** [buyerRevs.map((_,i)=> Math.round(((i+1)/buyerRevs.length)*100))] *)
Definition pctLabels (orders : list Enriched.t) : list Z :=
  imap
    (λ i _, JsNum.round (Js.of_nat (S i) / Js.of_nat (length (buyerRevs orders)) * Qc_of_Z 100))
    (buyerRevs orders).

Section MoreMetrics.
Context `{DateBuiltins}.

(** [groupSum(orders, o => o.order_dt.getMonth()+1, o => o.revenue)] *)
Definition monthRev (orders : list Enriched.t) : gmap Z Qc :=
  groupSum orders (λ o, getMonth (Enriched.order_dt o) + 1)%Z Enriched.revenue.

(** The data of the monthly chart:
    [Array.from({length:12}, (_,i)=> monthRev.get(i+1) || 0)] *)
Definition monthBars (orders : list Enriched.t) : list Qc :=
  (λ i, Js.get_or (monthRev orders !! (Z.of_nat i + 1)%Z) 0) <$> seq 0 12.

Definition catOverall (orders : list Enriched.t) : gmap string Qc :=
  groupSum orders Enriched.category Enriched.revenue.

(** [groupSum(orders.filter(o => [11,12].includes(o.order_dt.getMonth()+1)), ...)] *)
Definition catNovDec (orders : list Enriched.t) : gmap string Qc :=
  groupSum
    (filter (λ o, (getMonth (Enriched.order_dt o) + 1)%Z ∈ [11; 12]%Z) orders)
    Enriched.category Enriched.revenue.

(** [groupSum(orders.filter(o => [6,7,8].includes(o.order_dt.getMonth()+1)), ...)] *)
Definition catSummer (orders : list Enriched.t) : gmap string Qc :=
  groupSum
    (filter (λ o, (getMonth (Enriched.order_dt o) + 1)%Z ∈ [6; 7; 8]%Z) orders)
    Enriched.category Enriched.revenue.

(** [bfOrders.reduce((s,o)=>s+o.revenue,0) / (totalRev||1)] *)
Definition bfRevShare (orders : list Enriched.t) : Qc :=
  fold_left (λ s o, s + Enriched.revenue o) (bfOrders orders) 0
  / Js.num_or (totalRev orders) 1.

(** [(bfOrders.filter(o=> (o.discount||0) > 0).length) / (bfOrders.length || 1)] *)
Definition bfDiscRate (orders : list Enriched.t) : Qc :=
  Js.of_nat (length (filter discounted (bfOrders orders)))
  / Js.of_nat (Js.len_or1 (length (bfOrders orders))).

Definition nonbfDiscRate (orders : list Enriched.t) : Qc :=
  Js.of_nat (length (filter discounted (nonbfOrders orders)))
  / Js.of_nat (Js.len_or1 (length (nonbfOrders orders))).

End MoreMetrics.

(** *** Revenue by day of the week and hour *)

(** The getters of [Date] for the day of the week (0 for Sunday) and the
    hour of the day, in the local time zone of the host. *)
Class DateClock := {
  (** [d.getDay()] *)
  getDay : Z → Z;
  (** [d.getHours()] *)
  getHours : Z → Z
}.

Section Clock.
Context `{DateClock}.

(** [orders.filter(o => [6,0].includes(o.order_dt.getDay())).reduce((s,o)=>s+o.revenue,0)] *)
Definition weekendRev (orders : list Enriched.t) : Qc :=
  fold_left (λ s o, s + Enriched.revenue o)
    (filter (λ o, getDay (Enriched.order_dt o) ∈ [6; 0]%Z) orders) 0.

(** [totalRev - weekendRev] *)
Definition weekdayRev (orders : list Enriched.t) : Qc :=
  totalRev orders - weekendRev orders.

(** [orders.filter(o => o.order_dt.getHours() >= 18 && o.order_dt.getHours() <= 22)
      .reduce((s,o)=>s+o.revenue,0)] *)
Definition eveningRev (orders : list Enriched.t) : Qc :=
  fold_left (λ s o, s + Enriched.revenue o)
    (filter
       (λ o, bool_decide (18 ≤ getHours (Enriched.order_dt o))%Z
             && bool_decide (getHours (Enriched.order_dt o) ≤ 22)%Z)
       orders) 0.

(** The two shares shown as indicators: [weekendRev / (totalRev||1)] and
    [eveningRev / (totalRev||1)]. *)
Definition weekendShare (orders : list Enriched.t) : Qc :=
  weekendRev orders / Js.num_or (totalRev orders) 1.

Definition eveningShare (orders : list Enriched.t) : Qc :=
  eveningRev orders / Js.num_or (totalRev orders) 1.

End Clock.

(** The clock of the host of the examples: UTC, the first day of 1970
    being a Thursday. *)
Module UtcClock.

#[export] Instance clock : DateClock := {|
  getDay := λ t, ((t `div` 86400000 + 4) `mod` 7)%Z;
  getHours := λ t, ((t `div` 3600000) `mod` 24)%Z
|}.

End UtcClock.

(** *** The colour of a cell of the heat map *)

Definition colorStart : list Z := [31; 37; 48]%Z.
Definition colorEnd : list Z := [88; 166; 255]%Z.

(** [start.map((s,i)=> Math.round(s + (end[i]-s)*t))] with
    [t = Math.min(1, Math.max(0, p))]; both arrays have three entries. *)
Definition colorRgb (p : Qc) : list Z :=
  let t := JsNum.min 1 (JsNum.max 0 p) in
  imap
    (λ i s, JsNum.round (Qc_of_Z s + (Qc_of_Z (default 0%Z (colorEnd !! i)) - Qc_of_Z s) * t))
    colorStart.

(** [const colorFor = (p) => ...] *)
Definition colorFor (p : Qc) : string :=
  let rgb := colorRgb p in
  "rgb(" +:+ pretty (default 0%Z (rgb !! 0%nat)) +:+ ", "
         +:+ pretty (default 0%Z (rgb !! 1%nat)) +:+ ", "
         +:+ pretty (default 0%Z (rgb !! 2%nat)) +:+ ")".

(** * Part II: properties *)

(** ** Sums *)

Lemma get_or_zero (v : option Qc) : Js.get_or v 0 = default 0 v.
Proof.
  destruct v as [x|]; simpl; [|done].
  unfold Js.num_or. by case_decide.
Qed.

Lemma num_or_zero (x : Qc) : Js.num_or x 0 = x.
Proof. unfold Js.num_or. by case_decide. Qed.

Lemma sum_fold_acc (l : list Qc) (a : Qc) :
  fold_left Qcplus l a = a + Js.sum l.
Proof.
  unfold Js.sum. revert a.
  induction l as [|x l IH]; intros a; simpl.
  - by rewrite Qcplus_0_r.
  - rewrite (IH (a + x)), (IH (0 + x)). ring.
Qed.

Lemma sum_nil : Js.sum [] = 0.
Proof. done. Qed.

Lemma sum_cons (x : Qc) (l : list Qc) : Js.sum (x :: l) = x + Js.sum l.
Proof. unfold Js.sum at 1. simpl. rewrite sum_fold_acc. ring. Qed.

Lemma sum_app (l1 l2 : list Qc) : Js.sum (l1 ++ l2) = Js.sum l1 + Js.sum l2.
Proof.
  induction l1 as [|x l1 IH]; simpl.
  - rewrite sum_nil. ring.
  - rewrite !sum_cons, IH. ring.
Qed.

Lemma fold_left_plus_map {X} (f : X → Qc) (l : list X) (a : Qc) :
  fold_left (λ s x, s + f x) l a = a + Js.sum (f <$> l).
Proof.
  revert a. induction l as [|x l IH]; intros a.
  - simpl. rewrite sum_nil. ring.
  - cbn [fold_left]. rewrite IH, fmap_cons, sum_cons. ring.
Qed.

Lemma totalRev_sum (orders : list Enriched.t) :
  totalRev orders = Js.sum (Enriched.revenue <$> orders).
Proof. unfold totalRev. rewrite fold_left_plus_map. ring. Qed.

Section SumValues.
Context `{Countable K}.

Lemma sum_values_empty : Js.sum_values (∅ : gmap K Qc) = 0.
Proof. unfold Js.sum_values. by rewrite map_fold_empty. Qed.

Lemma sum_values_insert_fresh (m : gmap K Qc) (k : K) (x : Qc) :
  m !! k = None →
  Js.sum_values (<[k := x]> m) = Js.sum_values m + x.
Proof.
  intros Hk. unfold Js.sum_values.
  rewrite map_fold_insert_L; [done| |done].
  intros; ring.
Qed.

Lemma sum_values_insert (m : gmap K Qc) (k : K) (x : Qc) :
  Js.sum_values (<[k := x]> m) = Js.sum_values m - default 0 (m !! k) + x.
Proof.
  destruct (m !! k) as [y|] eqn:Hk; simpl.
  - rewrite <-(insert_delete_eq m k x).
    rewrite <-(insert_id m k y) at 2 by done.
    rewrite <-(insert_delete_eq m k y).
    rewrite !sum_values_insert_fresh by apply lookup_delete_eq.
    ring.
  - rewrite sum_values_insert_fresh by done. ring.
Qed.

Lemma sum_values_fmap_div (m : gmap K Qc) (d : Qc) :
  Js.sum_values ((λ v, v / d) <$> m) = Js.sum_values m / d.
Proof.
  induction m as [|k x m Hk IH] using map_ind.
  - rewrite fmap_empty, sum_values_empty. unfold Qcdiv. ring.
  - rewrite fmap_insert.
    rewrite !sum_values_insert_fresh; [|done|by rewrite lookup_fmap, Hk].
    rewrite IH. unfold Qcdiv. ring.
Qed.

(** ** [toShareMap] *)

Lemma toShareMap_fmap (m : gmap K Qc) :
  toShareMap m = (λ v, v / Js.num_or (Js.sum_values m) 1) <$> m.
Proof.
  unfold toShareMap.
  generalize (Js.num_or (Js.sum_values m) 1); intros total.
  apply (map_fold_weak_ind (λ r m, r = (λ v, v / total) <$> m)).
  - by rewrite fmap_empty.
  - intros k x m' r _ ->. by rewrite fmap_insert.
Qed.

Lemma toShareMap_sum (m : gmap K Qc) :
  Js.sum_values (toShareMap m) = if decide (Js.sum_values m = 0) then 0 else 1.
Proof.
  rewrite toShareMap_fmap, sum_values_fmap_div.
  unfold Js.num_or. destruct (decide (Js.sum_values m = 0)) as [Hz|Hz].
  - rewrite Hz. unfold Qcdiv. ring.
  - unfold Qcdiv. by rewrite Qcmult_inv_r.
Qed.

(** ** [groupSum] *)

Section GroupSum.
Context {X : Type} (keyFn : X → K) (valFn : X → Qc).

Lemma filter_key_absent (k : K) (arr : list X) :
  k ∉ keyFn <$> arr → filter (λ x, keyFn x = k) arr = [].
Proof.
  induction arr as [|x arr IH]; [done|].
  rewrite fmap_cons, not_elem_of_cons. intros [Hne Hk].
  rewrite filter_cons_False by done. auto.
Qed.

Lemma groupSum_acc_lookup (arr : list X) (m : gmap K Qc) (k : K) :
  fold_left (λ m x, <[keyFn x := Js.get_or (m !! keyFn x) 0 + valFn x]> m) arr m !! k =
    if decide (k ∈ keyFn <$> arr)
    then Some (default 0 (m !! k) + Js.sum (valFn <$> filter (λ x, keyFn x = k) arr))
    else m !! k.
Proof.
  revert m. induction arr as [|x arr IH]; intros m; [done|].
  cbn [fold_left]. rewrite IH. rewrite get_or_zero.
  destruct (decide (keyFn x = k)) as [<-|Hne].
  - rewrite lookup_insert_eq, filter_cons_True by done.
    rewrite (decide_True (P := _ ∈ _ <$> (x :: arr))) by (rewrite fmap_cons; left).
    rewrite fmap_cons, sum_cons. simpl.
    case_decide as Hin.
    + f_equal. ring.
    + rewrite filter_key_absent by done. rewrite fmap_nil, sum_nil. f_equal. ring.
  - rewrite lookup_insert_ne, filter_cons_False by done.
    apply decide_ext. rewrite fmap_cons, elem_of_cons.
    split; [by right | intros [->|?]; done].
Qed.

Lemma groupSum_acc_sum (arr : list X) (m : gmap K Qc) :
  Js.sum_values
    (fold_left (λ m x, <[keyFn x := Js.get_or (m !! keyFn x) 0 + valFn x]> m) arr m)
  = Js.sum_values m + Js.sum (valFn <$> arr).
Proof.
  revert m. induction arr as [|x arr IH]; intros m.
  - simpl. rewrite sum_nil. ring.
  - cbn [fold_left]. rewrite IH.
    rewrite sum_values_insert, get_or_zero, fmap_cons, sum_cons. ring.
Qed.

Lemma groupSum_lookup (arr : list X) (k : K) :
  groupSum arr keyFn valFn !! k =
    if decide (k ∈ keyFn <$> arr)
    then Some (Js.sum (valFn <$> filter (λ x, keyFn x = k) arr))
    else None.
Proof.
  unfold groupSum. cbv zeta. rewrite groupSum_acc_lookup, lookup_empty. simpl.
  case_decide; [f_equal; ring|done].
Qed.

Lemma groupSum_sum (arr : list X) :
  Js.sum_values (groupSum arr keyFn valFn) = Js.sum (valFn <$> arr).
Proof.
  unfold groupSum. cbv zeta. rewrite groupSum_acc_sum, sum_values_empty. ring.
Qed.

End GroupSum.
End SumValues.

(** C1 (as amended).  [toShareMap] divides every value by the total of the
    values, or by 1 when that total is zero; the shares sum to 1 when the
    total is not zero and to 0 when it is zero, which is the case of the
    empty map. *)
Theorem toShareMap_shares `{Countable K} (m : gmap K Qc) :
  toShareMap m
    = (λ v, v / (if decide (Js.sum_values m = 0) then 1 else Js.sum_values m)) <$> m
  ∧ Js.sum_values (toShareMap m) = (if decide (Js.sum_values m = 0) then 0 else 1)
  ∧ Js.sum_values (toShareMap (∅ : gmap K Qc)) = 0.
Proof.
  split; [apply toShareMap_fmap|].
  split; [apply toShareMap_sum|].
  rewrite toShareMap_sum. by rewrite decide_True by apply sum_values_empty.
Qed.

(** C1 fails as stated: a map that is not empty and whose values total
    zero has shares that sum to 0, not to 1. *)
Lemma toShareMap_zero_total_counterexample :
  ({["Web" := 0]} : gmap string Qc) ≠ ∅
  ∧ Js.sum_values (toShareMap ({["Web" := 0]} : gmap string Qc)) ≠ 1.
Proof.
  split; [apply insert_non_empty|].
  rewrite toShareMap_sum.
  assert (Js.sum_values ({["Web" := 0]} : gmap string Qc) = 0) as ->.
  { rewrite <-insert_empty, sum_values_insert_fresh by apply lookup_empty.
    rewrite (sum_values_empty (K := string)). ring. }
  by rewrite decide_True.
Qed.

(** C2 (as amended).  Up to the rounding of the additions, that is with
    additions that are exact, the values of [groupSum] add up to the sum
    of [valFn] over the records; every key of a record is mapped to the
    sum of [valFn] over the records with that key and no other key is
    present; with the revenue as value the total is [totalRev]. *)
Theorem groupSum_conserves_total :
  (∀ (K : Type) (E : EqDecision K) (C : Countable K) (X : Type)
     (arr : list X) (keyFn : X → K) (valFn : X → Qc),
      Js.sum_values (groupSum arr keyFn valFn) = Js.sum (valFn <$> arr)
      ∧ ∀ k : K,
          groupSum arr keyFn valFn !! k =
            if decide (k ∈ keyFn <$> arr)
            then Some (Js.sum (valFn <$> filter (λ x, keyFn x = k) arr))
            else None)
  ∧ (∀ (K : Type) (E : EqDecision K) (C : Countable K)
       (orders : list Enriched.t) (keyFn : Enriched.t → K),
      Js.sum_values (groupSum orders keyFn Enriched.revenue) = totalRev orders).
Proof.
  split.
  - intros. split; [apply groupSum_sum|]. intros k. apply groupSum_lookup.
  - intros. by rewrite groupSum_sum, totalRev_sum.
Qed.

(** C2 fails as stated in double precision: for three records of two
    groups with the values 0.1, 0.1 and 1.1, the sums of the groups,
    1.2000000000000002 and 0.1, add up to 1.3000000000000003, and the
    three values add up to 1.3. *)
Lemma groupSum_rounding_counterexample :
  Ieee.groupSum Ex.priced fst snd = [("A", 1.2000000000000002); ("B", 0.1)]%float
  ∧ Ieee.sum (Ieee.values (Ieee.groupSum Ex.priced fst snd)) = 1.3000000000000003%float
  ∧ Ieee.sum (snd <$> Ex.priced) = 1.3%float
  ∧ Ieee.sum (Ieee.values (Ieee.groupSum Ex.priced fst snd)) ≠ Ieee.sum (snd <$> Ex.priced).
Proof.
  split; [vm_compute; reflexivity|]. split; [vm_compute; reflexivity|].
  split; [vm_compute; reflexivity|].
  intros Heq. apply (f_equal (λ x, PrimFloat.eqb x 1.3)) in Heq.
  vm_compute in Heq. discriminate.
Qed.

(** ** Join and enrichment *)

Section Lookup.
Context `{Countable K} {V : Type}.

Lemma fold_insert_absent (l : list (K * V)) (m : gmap K V) (k : K) :
  k ∉ l.*1 → fold_left (λ m kv, <[kv.1 := kv.2]> m) l m !! k = m !! k.
Proof.
  revert m. induction l as [|[k' v'] l IH]; intros m; [done|].
  rewrite fmap_cons, not_elem_of_cons. intros [Hne Hk]. cbn [fold_left].
  rewrite IH by done. simpl in *. by rewrite lookup_insert_ne.
Qed.

Lemma map_of_entries_absent (l : list (K * V)) (k : K) :
  k ∉ l.*1 → Js.map_of_entries l !! k = None.
Proof. intros Hk. unfold Js.map_of_entries. by rewrite fold_insert_absent. Qed.

Lemma map_of_entries_last (l1 l2 : list (K * V)) (k : K) (v : V) :
  k ∉ l2.*1 → Js.map_of_entries (l1 ++ (k, v) :: l2) !! k = Some v.
Proof.
  intros Hk. unfold Js.map_of_entries.
  rewrite fold_left_app. cbn [fold_left].
  rewrite fold_insert_absent by done. simpl. apply lookup_insert_eq.
Qed.

End Lookup.

Section Join.
Context `{DateBuiltins}.

Lemma prodById_last (ps1 ps2 : list Product.t) (p : Product.t) :
  (∀ q, q ∈ ps2 → Product.product_id q ≠ Product.product_id p) →
  prodById (ps1 ++ p :: ps2) !! Product.product_id p = Some p.
Proof.
  intros Hlast. unfold prodById. rewrite fmap_app, fmap_cons.
  apply map_of_entries_last.
  rewrite <-list_fmap_compose. intros (q & Hq & Hin)%list_elem_of_fmap.
  by apply (Hlast q).
Qed.

Lemma prodById_absent (products : list Product.t) (id : string) :
  (∀ q, q ∈ products → Product.product_id q ≠ id) →
  prodById products !! id = None.
Proof.
  intros Habs. unfold prodById. apply map_of_entries_absent.
  rewrite <-list_fmap_compose. intros (q & Hq & Hin)%list_elem_of_fmap.
  by apply (Habs q).
Qed.

Lemma custById_last (cs1 cs2 : list Customer.t) (c : Customer.t) :
  (∀ d, d ∈ cs2 → Customer.customer_id d ≠ Customer.customer_id c) →
  custById (cs1 ++ c :: cs2) !! Customer.customer_id c = Some c.
Proof.
  intros Hlast. unfold custById. rewrite fmap_app, fmap_cons.
  apply map_of_entries_last.
  rewrite <-list_fmap_compose. intros (d & Hd & Hin)%list_elem_of_fmap.
  by apply (Hlast d).
Qed.

Lemma custById_absent (customers : list Customer.t) (id : string) :
  (∀ d, d ∈ customers → Customer.customer_id d ≠ id) →
  custById customers !! id = None.
Proof.
  intros Habs. unfold custById. apply map_of_entries_absent.
  rewrite <-list_fmap_compose. intros (d & Hd & Hin)%list_elem_of_fmap.
  by apply (Habs d).
Qed.

(** C3.  The enrichment yields one enriched order per order, in the order
    of the input and with the fields of the row untouched; a product id
    (customer id) without a match gives the category (segment, country)
    "Unknown"; with several records of the same id, the last one in the
    dataset provides the joined fields. *)
Theorem enrichOrders_left_join (orders : list Order.t) (customers : list Customer.t)
    (products : list Product.t) :
  length (enrichOrders orders customers products) = length orders
  ∧ ∀ (i : nat) (o : Order.t), orders !! i = Some o →
      ∃ e, enrichOrders orders customers products !! i = Some e
        ∧ Enriched.base e = o
        ∧ ((∀ q, q ∈ products → Product.product_id q ≠ Order.product_id o) →
             Enriched.category e = "Unknown")
        ∧ ((∀ d, d ∈ customers → Customer.customer_id d ≠ Order.customer_id o) →
             Enriched.segment e = "Unknown" ∧ Enriched.country e = "Unknown")
        ∧ (∀ ps1 p ps2, products = ps1 ++ p :: ps2 →
             Product.product_id p = Order.product_id o →
             (∀ q, q ∈ ps2 → Product.product_id q ≠ Order.product_id o) →
             Enriched.category e = Product.category p)
        ∧ (∀ cs1 c cs2, customers = cs1 ++ c :: cs2 →
             Customer.customer_id c = Order.customer_id o →
             (∀ d, d ∈ cs2 → Customer.customer_id d ≠ Order.customer_id o) →
             Enriched.segment e = Customer.segment c
             ∧ Enriched.country e = Customer.country c).
Proof.
  split; [apply length_fmap|].
  intros i o Hi. eexists. split.
  { unfold enrichOrders. rewrite list_lookup_fmap, Hi. done. }
  split; [done|]. simpl.
  split; [intros Habs; by rewrite prodById_absent|].
  split; [intros Habs; by rewrite custById_absent|].
  split.
  - intros ps1 p ps2 -> Hid Hlast. rewrite <-Hid, prodById_last; [done|].
    intros q Hq. rewrite Hid. by apply Hlast.
  - intros cs1 c cs2 -> Hid Hlast. rewrite <-Hid, custById_last; [done|].
    intros d Hd. rewrite Hid. by apply Hlast.
Qed.

End Join.

(** C3 on the example dataset: the first order joins the last of the two
    records of its product and of its customer, the third order has no
    product and the fourth no customer. *)
Lemma enrichOrders_left_join_witness :
  length (enrichOrders (H := Utc.host) Ex.orders Ex.customers Ex.products) = 4%nat
  ∧ (∃ e, enrichOrders (H := Utc.host) Ex.orders Ex.customers Ex.products !! 0%nat = Some e
        ∧ Enriched.category e = "Games"
        ∧ Enriched.segment e = "Corporate" ∧ Enriched.country e = "CA")
  ∧ (∃ e, enrichOrders (H := Utc.host) Ex.orders Ex.customers Ex.products !! 2%nat = Some e
        ∧ Enriched.category e = "Unknown")
  ∧ (∃ e, enrichOrders (H := Utc.host) Ex.orders Ex.customers Ex.products !! 3%nat = Some e
        ∧ Enriched.segment e = "Unknown" ∧ Enriched.country e = "Unknown").
Proof.
  destruct (enrichOrders_left_join (H := Utc.host) Ex.orders Ex.customers Ex.products)
    as [Hlen Hjoin].
  split; [exact Hlen|].
  split; [|split].
  - destruct (Hjoin 0%nat Ex.o1 eq_refl) as (e & He & _ & _ & _ & Hprod & Hcust).
    exists e. split; [exact He|]. split.
    + apply (Hprod [Ex.p1; Ex.p2] Ex.p1' []); [reflexivity|reflexivity|].
      intros q Hq. by apply elem_of_nil in Hq.
    + apply (Hcust [Ex.c1] Ex.c1' []); [reflexivity|reflexivity|].
      intros d Hd. by apply elem_of_nil in Hd.
  - destruct (Hjoin 2%nat Ex.o3 eq_refl) as (e & He & _ & Hnoprod & _).
    exists e. split; [exact He|]. apply Hnoprod.
    intros q Hq. repeat (apply elem_of_cons in Hq as [->|Hq]; [discriminate|]).
    by apply elem_of_nil in Hq.
  - destruct (Hjoin 3%nat Ex.o4 eq_refl) as (e & He & _ & _ & Hnocust & _).
    exists e. split; [exact He|]. apply Hnocust.
    intros d Hd. repeat (apply elem_of_cons in Hd as [->|Hd]; [discriminate|]).
    by apply elem_of_nil in Hd.
Defined.

(** ** The stable sort *)

Section SortFacts.
Context {A : Type} (leb : A → A → bool).

Lemma insert_sorted_perm (x : A) (l : list A) : Js.insert_sorted leb x l ≡ₚ x :: l.
Proof.
  induction l as [|y l IH]; simpl; [done|].
  destruct (leb x y); [done|].
  rewrite IH. apply Permutation_swap.
Qed.

Lemma sort_perm (l : list A) : Js.sort leb l ≡ₚ l.
Proof.
  induction l as [|x l IH]; simpl; [done|].
  by rewrite insert_sorted_perm, IH.
Qed.

Lemma sort_length (l : list A) : length (Js.sort leb l) = length l.
Proof. by rewrite sort_perm. Qed.

Lemma sort_fmap {B} (f : B → A) (leb' : B → B → bool) (l : list B) :
  (∀ x y, leb' x y = leb (f x) (f y)) →
  Js.sort leb (f <$> l) = f <$> Js.sort leb' l.
Proof.
  intros Hleb. induction l as [|x l IH]; [done|].
  rewrite fmap_cons. simpl. rewrite IH. clear IH.
  induction (Js.sort leb' l) as [|y l' IH]; [done|].
  rewrite fmap_cons. simpl. rewrite Hleb. destruct (leb (f x) (f y)); [done|].
  rewrite fmap_cons. by f_equal.
Qed.

Context (R : relation A).
Hypothesis leb_spec : ∀ x y, leb x y = true ↔ R x y.
Context `{!Transitive R, !Total R}.

Lemma insert_sorted_sorted (x : A) (l : list A) :
  StronglySorted R l → StronglySorted R (Js.insert_sorted leb x l).
Proof.
  induction 1 as [|y l Hl IH Hy]; simpl.
  { repeat constructor. }
  destruct (leb x y) eqn:Hxy.
  - apply leb_spec in Hxy. constructor; [by constructor|].
    constructor; [done|]. eapply Forall_impl; [exact Hy|].
    intros z Hz. by trans y.
  - constructor; [done|]. rewrite insert_sorted_perm. constructor; [|done].
    destruct (total R x y) as [Hxy'|]; [|done].
    apply leb_spec in Hxy'. congruence.
Qed.

Lemma sort_sorted (l : list A) : StronglySorted R (Js.sort leb l).
Proof.
  induction l as [|x l IH]; simpl; [constructor|].
  by apply insert_sorted_sorted.
Qed.

End SortFacts.

Lemma StronglySorted_lookup_lt {A} (R : relation A) (l : list A) (i j : nat) (x y : A) :
  StronglySorted R l → (i < j)%nat → l !! i = Some x → l !! j = Some y → R x y.
Proof.
  intros Hl. revert i j. induction Hl as [|z l Hl IH Hz]; intros i j Hij Hi Hj; [done|].
  destruct j as [|j]; [lia|]. destruct i as [|i]; simpl in *.
  - injection Hi as ->. rewrite Forall_forall in Hz. apply Hz.
    by eapply list_elem_of_lookup_2.
  - apply (IH i j); [lia|done..].
Qed.

(** ** Numbers *)

Lemma Qc_sub_le (x y : Qc) : x - y ≤ 0 ↔ x ≤ y.
Proof.
  rewrite (Qcplus_le_mono_r (x - y) 0 y).
  by replace (x - y + y) with x by ring; replace (0 + y) with y by ring.
Qed.

Lemma of_nat_Q (n : nat) : (Js.of_nat n : Q) = inject_Z (Z.of_nat n).
Proof. done. Qed.

Lemma of_nat_le (n m : nat) : (n ≤ m)%nat → Js.of_nat n ≤ Js.of_nat m.
Proof.
  intros Hnm. unfold Qcle. rewrite !of_nat_Q. rewrite <-Zle_Qle. lia.
Qed.

Lemma of_nat_pos (n : nat) : (0 < n)%nat → 0 < Js.of_nat n.
Proof.
  intros Hn. unfold Qclt. rewrite of_nat_Q. change (this 0) with (inject_Z 0).
  rewrite <-Zlt_Qlt. lia.
Qed.

Lemma of_nat_nonzero (n : nat) : n ≠ O → Js.of_nat n ≠ 0.
Proof.
  intros Hn Heq. pose proof (of_nat_pos n ltac:(lia)) as Hpos.
  rewrite Heq in Hpos. by apply (irreflexivity Qclt 0).
Qed.

Lemma floor_Qc_mult (x y : Qc) : Js.floor (x * y) = Qfloor ((x : Q) * (y : Q))%Q.
Proof.
  unfold Js.floor. change (this (x * y)) with (Qred (this x * this y)).
  apply Qfloor_comp, Qred_correct.
Qed.

Lemma floor_ratio (a : Z) (b : positive) (n : nat) :
  Js.floor (Q2Qc (a # b) * Js.of_nat n) = ((a * Z.of_nat n) `div` Z.pos b)%Z.
Proof.
  rewrite floor_Qc_mult. rewrite of_nat_Q.
  transitivity (Qfloor ((a # b) * inject_Z (Z.of_nat n))%Q).
  { apply Qfloor_comp. simpl. by rewrite Qred_correct. }
  unfold Qfloor, Qmult, inject_Z. simpl. by rewrite Pos.mul_1_r.
Qed.

Lemma floor_draw (r : Qc) (n : nat) :
  0 ≤ r → r < 1 → (0 < n)%nat →
  (0 ≤ Js.floor (r * Js.of_nat n) < Z.of_nat n)%Z.
Proof.
  intros Hr0 Hr1 Hn. rewrite floor_Qc_mult. rewrite of_nat_Q.
  assert (0 < inject_Z (Z.of_nat n))%Q as Hpos.
  { change 0%Q with (inject_Z 0). rewrite <-Zlt_Qlt. lia. }
  split.
  - change 0%Z with (Qfloor 0). apply Qfloor_resp_le.
    apply Qmult_le_0_compat; [exact Hr0|by apply Qlt_le_weak].
  - rewrite Zlt_Qlt. eapply Qle_lt_trans; [apply Qfloor_le|].
    rewrite <-(Qmult_1_l (inject_Z (Z.of_nat n))) at 2.
    apply Qmult_lt_compat_r; [done|exact Hr1].
Qed.

Lemma len_or1_pos (n : nat) : (0 < Js.len_or1 n)%nat.
Proof. destruct n; simpl; lia. Qed.

Lemma at_index_nonneg {A} (arr : list A) (i : Z) :
  (0 ≤ i)%Z → Js.at_index arr i = arr !! Z.to_nat i.
Proof. intros Hi. unfold Js.at_index. by rewrite decide_True. Qed.

Lemma mean_nil : mean [] = 0.
Proof. apply Qc_is_canon. reflexivity. Qed.

Lemma mean_nonempty (l : list Qc) :
  l ≠ [] → mean l = Js.sum l / Js.of_nat (length l).
Proof. intros Hl. unfold mean. by destruct l. Qed.

(** ** Bootstrap confidence interval *)

Lemma mapM_id_Some {A} (l : list A) : mapM id (Some <$> l) = Some l.
Proof.
  induction l as [|x l IH]; [done|].
  rewrite fmap_cons. simpl. by rewrite IH.
Qed.

Section BootstrapFacts.
Variable rnd : nat → Qc.
Hypothesis rnd_range : ∀ n, 0 ≤ rnd n ∧ rnd n < 1.

Lemma pick_in (data : list Qc) (r : Qc) :
  0 ≤ r → r < 1 → data ≠ [] → ∃ x, pick data r = Some x ∧ x ∈ data.
Proof.
  intros Hr0 Hr1 Hdata. unfold pick.
  assert (0 < length data)%nat as Hlen by (destruct data; [done|simpl; lia]).
  pose proof (floor_draw r (length data) Hr0 Hr1 Hlen) as Hfl.
  rewrite at_index_nonneg by lia.
  destruct (lookup_lt_is_Some_2 data (Z.to_nat (Js.floor (r * Js.of_nat (length data)))))
    as [x Hx]; [lia|].
  exists x. split; [done|]. by eapply list_elem_of_lookup_2.
Qed.

Lemma resample_spec (data : list Qc) (n s : nat) :
  (n = O ∨ data ≠ []) →
  ∃ xs, resample rnd data n s = (Some xs, (s + n)%nat)
      ∧ length xs = n ∧ ∀ x, x ∈ xs → x ∈ data.
Proof.
  revert s. induction n as [|n IH]; intros s Hn.
  - exists []. simpl. rewrite Nat.add_0_r. split; [done|]. split; [done|].
    intros x Hx. by apply elem_of_nil in Hx.
  - destruct Hn as [|Hdata]; [done|].
    destruct (IH (S s) (or_intror Hdata)) as (xs & Hxs & Hlen & Hsub).
    destruct (rnd_range s) as [Hr0 Hr1].
    destruct (pick_in data (rnd s) Hr0 Hr1 Hdata) as (x & Hx & Hin).
    exists (x :: xs). cbn [resample]. rewrite Hxs, Hx. simpl.
    split; [f_equal; lia|]. split; [by rewrite Hlen|].
    intros y [->|Hy]%elem_of_cons; auto.
Qed.

Lemma resample_full (data : list Qc) (s : nat) :
  ∃ xs, resample rnd data (length data) s = (Some xs, (s + length data)%nat)
      ∧ isResample data xs.
Proof.
  destruct (resample_spec data (length data) s) as (xs & Hxs & Hlen & Hsub).
  { destruct data; [by left|by right]. }
  exists xs. by repeat split.
Qed.

Lemma bootstrap_loop_spec (dataA dataB : list Qc) (B s : nat) (diffs : list (option Qc)) :
  ∃ new s',
    bootstrap_loop rnd dataA dataB B s diffs = (diffs ++ (Some <$> new), s')
    ∧ length new = B
    ∧ Forall (isResampledDiff dataA dataB) new.
Proof.
  revert s diffs. induction B as [|B IH]; intros s diffs.
  - exists [], s. simpl. by rewrite app_nil_r.
  - cbn [bootstrap_loop].
    destruct (resample_full dataA s) as (sa & -> & Hsa).
    destruct (resample_full dataB (s + length dataA)) as (sb & -> & Hsb).
    simpl.
    destruct (IH (s + length dataA + length dataB)%nat (diffs ++ [Some (mean sa - mean sb)]))
      as (new & s' & -> & Hlen & Hnew).
    exists ((mean sa - mean sb) :: new), s'.
    rewrite fmap_cons, <-app_assoc. simpl.
    split; [done|]. split; [by rewrite Hlen|].
    constructor; [|done]. by exists sa, sb.
Qed.

Lemma percentile_indices (B : nat) :
  (1 ≤ B)%nat →
  (0 ≤ Js.floor (Q2Qc 0.025 * Js.of_nat B)
     ≤ Js.floor (Q2Qc 0.975 * Js.of_nat B))%Z
  ∧ (Js.floor (Q2Qc 0.975 * Js.of_nat B) < Z.of_nat B)%Z.
Proof.
  intros HB. rewrite !floor_ratio.
  assert ((25 * Z.of_nat B) `div` 1000 ≤ (975 * Z.of_nat B) `div` 1000)%Z
    by (apply Z.div_le_mono; lia).
  assert (0 ≤ (25 * Z.of_nat B) `div` 1000)%Z by (apply Z.div_pos; lia).
  assert ((975 * Z.of_nat B) `div` 1000 < Z.of_nat B)%Z
    by (apply Z.div_lt_upper_bound; lia).
  lia.
Qed.

Lemma bootstrapCI_spec (dataA dataB : list Qc) (B s : nat) :
  (1 ≤ B)%nat →
  ∃ diffs sorted l h,
    length diffs = B
    ∧ Forall (isResampledDiff dataA dataB) diffs
    ∧ sorted ≡ₚ diffs
    ∧ StronglySorted Qcle sorted
    ∧ Js.at_index sorted (Js.floor (Q2Qc 0.025 * Js.of_nat B)) = Some l
    ∧ Js.at_index sorted (Js.floor (Q2Qc 0.975 * Js.of_nat B)) = Some h
    ∧ (bootstrapCI rnd dataA dataB B s).1
        = {| diff := mean dataA - mean dataB; lo := Some l; hi := Some h |}
    ∧ l ≤ h.
Proof.
  intros HB. unfold bootstrapCI.
  destruct (bootstrap_loop_spec dataA dataB B s []) as (diffs & s' & -> & Hlen & Hdiffs).
  rewrite app_nil_l, mapM_id_Some. cbn [fmap option_fmap option_map mbind option_bind fst].
  set (leb := λ x y : Qc, bool_decide (x - y ≤ 0)).
  destruct (percentile_indices B HB) as [Hle Hlt].
  rewrite !at_index_nonneg by lia.
  assert (StronglySorted Qcle (Js.sort leb diffs)) as Hsorted.
  { apply sort_sorted; [|apply _..].
    intros x y. unfold leb. by rewrite bool_decide_eq_true, Qc_sub_le. }
  destruct (lookup_lt_is_Some_2 (Js.sort leb diffs)
              (Z.to_nat (Js.floor (Q2Qc 0.025 * Js.of_nat B)))) as [l Hl].
  { rewrite sort_length, Hlen. lia. }
  destruct (lookup_lt_is_Some_2 (Js.sort leb diffs)
              (Z.to_nat (Js.floor (Q2Qc 0.975 * Js.of_nat B)))) as [h Hh].
  { rewrite sort_length, Hlen. lia. }
  exists diffs, (Js.sort leb diffs), l, h. rewrite !at_index_nonneg by lia.
  split; [done|]. split; [done|]. split; [apply sort_perm|]. split; [done|].
  split; [done|]. split; [done|]. split; [by rewrite Hl, Hh|].
  destruct (decide (Z.to_nat (Js.floor (Q2Qc 0.025 * Js.of_nat B))
                    = Z.to_nat (Js.floor (Q2Qc 0.975 * Js.of_nat B)))) as [Heq|Hne].
  - rewrite Heq in Hl. rewrite Hl in Hh. injection Hh as ->. apply Qcle_refl.
  - eapply (StronglySorted_lookup_lt Qcle); [exact Hsorted| |exact Hl|exact Hh]. lia.
Qed.

End BootstrapFacts.

Section BootstrapDraws.
Variable rnd : nat → Qc.
Hypothesis rnd_range : ∀ n, 0 ≤ rnd n ∧ rnd n < 1.

Lemma pick_drawn (data : list Qc) (r : Qc) :
  0 ≤ r → r < 1 → data ≠ [] →
  pick data r = Some (default 0 (data !! drawIndex r (length data))).
Proof.
  intros Hr0 Hr1 Hdata. unfold pick, drawIndex.
  assert (0 < length data)%nat as Hlen by (destruct data; [done|simpl; lia]).
  pose proof (floor_draw r (length data) Hr0 Hr1 Hlen) as Hfl.
  rewrite at_index_nonneg by lia.
  destruct (lookup_lt_is_Some_2 data (Z.to_nat (Js.floor (r * Js.of_nat (length data)))))
    as [x Hx]; [lia|].
  by rewrite Hx.
Qed.

Lemma resample_drawn (data : list Qc) (n s : nat) :
  (n = O ∨ data ≠ []) →
  resample rnd data n s
  = (Some ((λ j, default 0 (data !! drawIndex (rnd (s + j)%nat) (length data))) <$> seq 0 n),
     (s + n)%nat).
Proof.
  revert s. induction n as [|n IH]; intros s Hn.
  - simpl. by rewrite Nat.add_0_r.
  - destruct Hn as [|Hdata]; [done|].
    destruct (rnd_range s) as [Hr0 Hr1].
    cbn [resample]. rewrite (IH (S s)) by by right.
    rewrite (pick_drawn data (rnd s) Hr0 Hr1 Hdata).
    cbn [mbind option_bind]. cbn [seq]. rewrite fmap_cons, Nat.add_0_r.
    rewrite <-fmap_S_seq, <-list_fmap_compose. f_equal; [|lia]. do 2 f_equal.
    apply list_fmap_ext. intros _ j _. simpl. by rewrite Nat.add_succ_r.
Qed.

Lemma resample_drawnSample (data : list Qc) (s : nat) :
  resample rnd data (length data) s = (Some (drawnSample rnd data s), (s + length data)%nat).
Proof. apply resample_drawn. destruct data; [by left|by right]. Qed.

Lemma replicateDiff_shift (dataA dataB : list Qc) (s i : nat) :
  replicateDiff rnd dataA dataB (s + length dataA + length dataB) i
  = replicateDiff rnd dataA dataB s (S i).
Proof.
  unfold replicateDiff. cbn zeta.
  by replace (s + length dataA + length dataB + i * (length dataA + length dataB))%nat
    with (s + S i * (length dataA + length dataB))%nat by lia.
Qed.

Lemma bootstrap_loop_drawn (dataA dataB : list Qc) (B s : nat) (diffs : list (option Qc)) :
  (bootstrap_loop rnd dataA dataB B s diffs).1
  = diffs ++ (Some <$> replicateDiffs rnd dataA dataB B s).
Proof.
  revert s diffs. induction B as [|B IH]; intros s diffs.
  - simpl. by rewrite app_nil_r.
  - cbn [bootstrap_loop]. rewrite (resample_drawnSample dataA s).
    rewrite (resample_drawnSample dataB (s + length dataA)).
    cbn [mbind option_bind]. rewrite IH, <-app_assoc. f_equal. cbn [app].
    unfold replicateDiffs. cbn [seq]. rewrite !fmap_cons. f_equal.
    + f_equal. unfold replicateDiff. cbn zeta.
      by replace (s + 0 * (length dataA + length dataB))%nat with s by lia.
    + f_equal. rewrite <-fmap_S_seq, <-list_fmap_compose.
      apply list_fmap_ext. intros _ i _. apply replicateDiff_shift.
Qed.

Lemma drawnSample_isResample (data : list Qc) (start : nat) :
  isResample data (drawnSample rnd data start).
Proof.
  destruct (resample_full rnd rnd_range data start) as (xs & Hxs & Hres).
  rewrite resample_drawnSample in Hxs. by injection Hxs as ->.
Qed.

Lemma replicateDiffs_resampled (dataA dataB : list Qc) (B s : nat) :
  length (replicateDiffs rnd dataA dataB B s) = B
  ∧ Forall (isResampledDiff dataA dataB) (replicateDiffs rnd dataA dataB B s).
Proof.
  unfold replicateDiffs. split; [by rewrite length_fmap, length_seq|].
  apply Forall_fmap, Forall_forall. intros i _.
  eexists _, _. split; [apply drawnSample_isResample|].
  split; [apply drawnSample_isResample|]. reflexivity.
Qed.

Lemma bootstrapCI_drawn (dataA dataB : list Qc) (B s : nat) :
  (1 ≤ B)%nat →
  ∃ sorted l h,
    sorted ≡ₚ replicateDiffs rnd dataA dataB B s
    ∧ StronglySorted Qcle sorted
    ∧ Js.at_index sorted (Js.floor (Q2Qc 0.025 * Js.of_nat B)) = Some l
    ∧ Js.at_index sorted (Js.floor (Q2Qc 0.975 * Js.of_nat B)) = Some h
    ∧ (bootstrapCI rnd dataA dataB B s).1
        = {| diff := mean dataA - mean dataB; lo := Some l; hi := Some h |}
    ∧ l ≤ h.
Proof.
  intros HB. unfold bootstrapCI.
  pose proof (bootstrap_loop_drawn dataA dataB B s []) as Hloop.
  destruct (bootstrap_loop rnd dataA dataB B s []) as [diffs s']. cbn [fst] in Hloop.
  subst diffs. rewrite app_nil_l, mapM_id_Some.
  cbn [fmap option_fmap option_map mbind option_bind fst].
  set (diffs := replicateDiffs rnd dataA dataB B s).
  assert (length diffs = B) as Hlen by apply replicateDiffs_resampled.
  set (leb := λ x y : Qc, bool_decide (x - y ≤ 0)).
  destruct (percentile_indices B HB) as [Hle Hlt].
  assert (StronglySorted Qcle (Js.sort leb diffs)) as Hsorted.
  { apply sort_sorted; [|apply _..].
    intros x y. unfold leb. by rewrite bool_decide_eq_true, Qc_sub_le. }
  destruct (lookup_lt_is_Some_2 (Js.sort leb diffs)
              (Z.to_nat (Js.floor (Q2Qc 0.025 * Js.of_nat B)))) as [l Hl].
  { rewrite sort_length, Hlen. lia. }
  destruct (lookup_lt_is_Some_2 (Js.sort leb diffs)
              (Z.to_nat (Js.floor (Q2Qc 0.975 * Js.of_nat B)))) as [h Hh].
  { rewrite sort_length, Hlen. lia. }
  exists (Js.sort leb diffs), l, h. rewrite !at_index_nonneg by lia.
  split; [apply sort_perm|]. split; [done|].
  split; [done|]. split; [done|]. split; [by rewrite Hl, Hh|].
  destruct (decide (Z.to_nat (Js.floor (Q2Qc 0.025 * Js.of_nat B))
                    = Z.to_nat (Js.floor (Q2Qc 0.975 * Js.of_nat B)))) as [Heq|Hne].
  - rewrite Heq in Hl. rewrite Hl in Hh. injection Hh as ->. apply Qcle_refl.
  - eapply (StronglySorted_lookup_lt Qcle); [exact Hsorted| |exact Hl|exact Hh]. lia.
Qed.

End BootstrapDraws.

Lemma sevenths_range (n : nat) : 0 ≤ Ex.sevenths n ∧ Ex.sevenths n < 1.
Proof.
  unfold Ex.sevenths.
  pose proof (Nat.mod_upper_bound (3 * n + 1) 7) as Hlt.
  destruct ((3 * n + 1) `mod` 7)%nat as [|[|[|[|[|[|[|k]]]]]]]; try (by vm_compute).
  lia.
Qed.

(** C4.  For a random source with values in [0,1) and at least one
    iteration, [bootstrapCI] returns [diff = mean(A) - mean(B)], where the
    mean of an empty sample is 0.  The resampled differences are those of
    the [B] iterations, each made from its own draws of the source: an
    iteration resamples [A] with as many draws as [A] has elements, then
    [B] likewise, every draw [r] selecting the element at the position
    [floor(r * length)], and records the difference of the two means.
    [lo] and [hi] are the elements at the indices [floor(0.025 * B)] and
    [floor(0.975 * B)] of these differences sorted in ascending order,
    and [lo <= hi]; with the same sample on both sides [diff] is 0. *)
Theorem bootstrapCI_interval (rnd : nat → Qc) (dataA dataB : list Qc) (B s : nat) :
  (∀ n, 0 ≤ rnd n ∧ rnd n < 1) →
  (1 ≤ B)%nat →
  let ci := (bootstrapCI rnd dataA dataB B s).1 in
  let diffs := replicateDiffs rnd dataA dataB B s in
  diff ci = mean dataA - mean dataB
  ∧ mean [] = 0
  ∧ length diffs = B
  ∧ Forall (isResampledDiff dataA dataB) diffs
  ∧ (∃ sorted l h,
        sorted ≡ₚ diffs
        ∧ StronglySorted Qcle sorted
        ∧ Js.at_index sorted (Js.floor (Q2Qc 0.025 * Js.of_nat B)) = Some l
        ∧ Js.at_index sorted (Js.floor (Q2Qc 0.975 * Js.of_nat B)) = Some h
        ∧ lo ci = Some l
        ∧ hi ci = Some h
        ∧ l ≤ h)
  ∧ (dataA = dataB → diff ci = 0).
Proof.
  intros Hrnd HB ci diffs.
  destruct (bootstrapCI_drawn rnd Hrnd dataA dataB B s HB)
    as (sorted & l & h & Hperm & Hsorted & Hl & Hh & Hci & Hlh).
  destruct (replicateDiffs_resampled rnd Hrnd dataA dataB B s) as [Hlen Hres].
  subst ci. rewrite Hci. simpl.
  split; [done|]. split; [apply mean_nil|]. split; [done|]. split; [done|].
  split; [by exists sorted, l, h|].
  intros ->. ring.
Qed.

(** The interval of C4 on two small samples, with 40 iterations and a
    random source that goes through the sevenths: the seven differences
    that come back in turn are 10/3, 20/3, 10, 20/3, 15, 40/3 and 10; the
    second smallest of the 40 is 10/3 and the largest is 15, while the
    observed difference is 10. *)
Lemma bootstrapCI_interval_witness :
  ∃ l h,
    lo (bootstrapCI Ex.sevenths [Ex.q 10 1; Ex.q 20 1; Ex.q 30 1] [Ex.q 5 1; Ex.q 15 1] 40 0).1
      = Some l
    ∧ hi (bootstrapCI Ex.sevenths [Ex.q 10 1; Ex.q 20 1; Ex.q 30 1] [Ex.q 5 1; Ex.q 15 1] 40 0).1
      = Some h
    ∧ l ≤ h
    ∧ this l = (10 # 3)%Q
    ∧ this h = (15 # 1)%Q
    ∧ this <$> take 7 (replicateDiffs Ex.sevenths
                         [Ex.q 10 1; Ex.q 20 1; Ex.q 30 1] [Ex.q 5 1; Ex.q 15 1] 40 0)
      = [10 # 3; 20 # 3; 10 # 1; 20 # 3; 15 # 1; 40 # 3; 10 # 1]%Q.
Proof.
  destruct (bootstrapCI_interval Ex.sevenths
              [Ex.q 10 1; Ex.q 20 1; Ex.q 30 1] [Ex.q 5 1; Ex.q 15 1] 40 0)
    as (_ & _ & _ & _ & (sorted & l & h & _ & _ & _ & _ & Hl & Hh & Hlh) & _).
  - apply sevenths_range.
  - lia.
  - exists l, h. split; [exact Hl|]. split; [exact Hh|]. split; [exact Hlh|].
    assert (this <$> lo (bootstrapCI Ex.sevenths [Ex.q 10 1; Ex.q 20 1; Ex.q 30 1]
                           [Ex.q 5 1; Ex.q 15 1] 40 0).1 = Some (10 # 3)%Q) as Hlo
      by (vm_compute; reflexivity).
    assert (this <$> hi (bootstrapCI Ex.sevenths [Ex.q 10 1; Ex.q 20 1; Ex.q 30 1]
                           [Ex.q 5 1; Ex.q 15 1] 40 0).1 = Some (15 # 1)%Q) as Hhi
      by (vm_compute; reflexivity).
    rewrite Hl in Hlo. rewrite Hh in Hhi. injection Hlo as Hlo. injection Hhi as Hhi.
    split; [exact Hlo|]. split; [exact Hhi|]. vm_compute. reflexivity.
Defined.

(** ** Average discount depth *)

Lemma discountOf_discounted (o : Enriched.t) :
  discountOf o =
    if decide (discounted o) then Some (Js.get_or (Enriched.discount o) 0) else None.
Proof.
  unfold discounted, discountOf. rewrite get_or_zero.
  destruct (Enriched.discount o) as [d|]; simpl.
  - destruct (decide (0 < d)).
    + by rewrite decide_True by by apply bool_decide_pack.
    + rewrite decide_False; [done|]. by intros ?%bool_decide_unpack.
  - done.
Qed.

Lemma discounted_discountOf (os : list Enriched.t) :
  (λ o, Js.get_or (Enriched.discount o) 0) <$> filter discounted os = omap discountOf os.
Proof.
  induction os as [|o os IH]; [done|].
  rewrite filter_cons.
  change (omap discountOf (o :: os))
    with (match discountOf o with Some y => y :: omap discountOf os | None => omap discountOf os end).
  rewrite discountOf_discounted.
  destruct (decide (discounted o)); [|done].
  by rewrite fmap_cons, IH.
Qed.

Lemma avgDiscOnly_spec (os : list Enriched.t) : avgDiscOnly os = discountDepthSpec os.
Proof.
  unfold avgDiscOnly, discountDepthSpec.
  rewrite num_or_zero, discounted_discountOf.
  destruct (omap discountOf os) as [|d ds]; [apply mean_nil|].
  by apply mean_nonempty.
Qed.

(** C8.  The average discount depth of a set of orders, as computed for
    the promotional window and for the other orders, is the mean of the
    discounts of its discounted orders only, and 0 when it has none; for
    the discounts 0, 0, 0.1 and 0.2 it is 0.15 and not 0.075. *)
Theorem avgDiscOnly_discounted_only `{DateBuiltins} :
  (∀ os, avgDiscOnly os = discountDepthSpec os)
  ∧ (∀ orders,
       bfAvgDiscOnly orders = discountDepthSpec (bfOrders orders)
       ∧ nonbfAvgDiscOnly orders = discountDepthSpec (nonbfOrders orders))
  ∧ (∀ os,
       Enriched.discount <$> os = [Some 0; Some 0; Some (Q2Qc 0.1); Some (Q2Qc 0.2)] →
       avgDiscOnly os = Q2Qc 0.15 ∧ avgDiscOnly os ≠ Q2Qc 0.075).
Proof.
  split; [apply avgDiscOnly_spec|].
  split; [intros orders; split; apply avgDiscOnly_spec|].
  intros os Hos. rewrite avgDiscOnly_spec.
  destruct os as [|a [|b [|c [|d [|]]]]]; try discriminate.
  injection Hos as Ha Hb Hc Hd.
  unfold discountDepthSpec. cbn [omap list_omap]. unfold discountOf.
  rewrite Ha, Hb, Hc, Hd. split.
  - apply Qc_is_canon. by vm_compute.
  - intros Heq. apply (f_equal this) in Heq. vm_compute in Heq. discriminate.
Qed.

(** The example of C8 on the four orders of the example dataset. *)
Lemma avgDiscOnly_discounted_only_witness :
  avgDiscOnly Ex.enriched = Q2Qc 0.15 ∧ avgDiscOnly Ex.enriched ≠ Q2Qc 0.075.
Proof.
  destruct (avgDiscOnly_discounted_only (H := Utc.host)) as (_ & _ & Hex).
  apply (Hex Ex.enriched). reflexivity.
Defined.

(** ** Churn *)

Lemma fold_max_spec (ts : list Z) (a : Z) :
  (a ≤ fold_left Z.max ts a)%Z
  ∧ (∀ x, x ∈ ts → x ≤ fold_left Z.max ts a)%Z
  ∧ (fold_left Z.max ts a = a ∨ fold_left Z.max ts a ∈ ts).
Proof.
  revert a. induction ts as [|t ts IH]; intros a; simpl.
  { split; [lia|]. split; [|by left]. intros x Hx. by apply elem_of_nil in Hx. }
  destruct (IH (Z.max a t)) as (Hge & Hub & Hin).
  split; [lia|]. split.
  - intros x [->|Hx]%elem_of_cons; [lia|by apply Hub].
  - destruct Hin as [Heq|Hin]; [|right; by right].
    destruct (Z.max_spec a t) as [[_ Hm]|[_ Hm]].
    + right. rewrite Heq, Hm. by left.
    + left. by rewrite Heq.
Qed.

Lemma fold_max_maxOf (ts : list Z) :
  ts ≠ [] → (∀ x, x ∈ ts → 0 ≤ x)%Z → maxOf ts (fold_left Z.max ts 0%Z).
Proof.
  intros Hne Hpos. destruct (fold_max_spec ts 0) as (Hge & Hub & Hin).
  split; [|done]. destruct Hin as [Heq|]; [|done].
  destruct ts as [|t ts]; [done|].
  pose proof (Hub t ltac:(by left)). pose proof (Hpos t ltac:(by left)).
  replace (fold_left Z.max (t :: ts) 0%Z) with t by lia. by left.
Qed.

Lemma endDate_fold (orders : list Enriched.t) :
  endDate orders = fold_left Z.max (Enriched.order_dt <$> orders) 0%Z.
Proof.
  unfold endDate. generalize 0%Z.
  induction orders as [|o orders IH]; intros a; [done|].
  rewrite fmap_cons. cbn [fold_left]. rewrite IH. f_equal.
  case_decide; lia.
Qed.

Lemma lastOrder_fold_acc (orders : list Enriched.t) (m : gmap string Z) (c : string) :
  default 0%Z
    (fold_left
       (λ m o,
          let dt := Enriched.order_dt o in
          let prev := default 0%Z (m !! Enriched.customer_id o) in
          if decide (dt > prev)%Z then <[Enriched.customer_id o := dt]> m else m)
       orders m !! c)
  = fold_left Z.max (orderTimesOf orders c) (default 0%Z (m !! c)).
Proof.
  unfold orderTimesOf. revert m.
  induction orders as [|o orders IH]; intros m; [done|].
  cbn [fold_left]. rewrite IH, filter_cons. clear IH. cbv zeta.
  destruct (decide (Enriched.customer_id o = c)) as [<-|Hne].
  - rewrite fmap_cons. cbn [fold_left]. f_equal.
    case_decide; [rewrite lookup_insert_eq; simpl|]; lia.
  - f_equal. case_decide; [|done]. by rewrite lookup_insert_ne.
Qed.

Lemma lastOrder_fold (orders : list Enriched.t) (c : string) :
  default 0%Z (lastOrder orders !! c) = fold_left Z.max (orderTimesOf orders c) 0%Z.
Proof. unfold lastOrder. by rewrite lastOrder_fold_acc, lookup_empty. Qed.

Lemma ordersByCust_groupSum (orders : list Enriched.t) :
  ordersByCust orders = groupSum orders Enriched.customer_id (λ _, 1).
Proof. reflexivity. Qed.

Lemma elem_of_keys `{Countable K} {V} (m : gmap K V) (k : K) :
  k ∈ Js.keys m ↔ is_Some (m !! k).
Proof.
  unfold Js.keys. rewrite list_elem_of_fmap. split.
  - intros ([k' v] & -> & Hin). apply elem_of_map_to_list in Hin. by exists v.
  - intros [v Hv]. exists (k, v). split; [done|]. by apply elem_of_map_to_list.
Qed.

Lemma elem_of_buyersOf (orders : list Enriched.t) (c : string) :
  c ∈ buyersOf orders ↔ c ∈ Enriched.customer_id <$> orders.
Proof.
  unfold buyersOf. rewrite elem_of_keys, ordersByCust_groupSum, groupSum_lookup.
  case_decide; split; intros; done.
Qed.

Lemma buyersSet_customers (orders : list Enriched.t) :
  (list_to_set (buyersOf orders) : gset string)
  = list_to_set (Enriched.customer_id <$> orders).
Proof.
  apply set_eq. intros c. rewrite !elem_of_list_to_set. apply elem_of_buyersOf.
Qed.

Lemma churned_count (last : gmap string Z) (cut : Z) (X : gset string) :
  set_fold (λ c n, if isChurned last cut c then S n else n) O X
  = size (filter (λ c, isChurned last cut c) X).
Proof.
  apply (set_fold_ind_L (λ n X, n = size (filter (λ c, isChurned last cut c) X))).
  - symmetry. apply size_empty_iff, filter_empty.
  - intros c Y n Hc ->. rewrite filter_union.
    destruct (isChurned last cut c) eqn:Hch.
    + rewrite fin_sets.filter_singleton_True by (rewrite Hch; simpl; tauto).
      rewrite size_union, size_singleton; [done|].
      apply disjoint_singleton_l. rewrite elem_of_filter. tauto.
    + rewrite fin_sets.filter_singleton_False by (rewrite Hch; simpl; tauto).
      by rewrite (left_id ∅ (∪)).
Qed.

Lemma computeChurn_fields (orders : list Enriched.t) (windowDays : N) :
  let r := computeChurn orders windowDays in
  let buyersSet : gset string := list_to_set (Enriched.customer_id <$> orders) in
  cutoff r = (endDate orders - Z.of_N windowDays * 86400000)%Z
  ∧ churned r = size (filter (λ c, isChurned (lastOrder orders) (cutoff r) c) buyersSet)
  ∧ buyers r = size buyersSet
  ∧ rate r = Js.of_nat (churned r) / Js.of_nat (Js.len_or1 (buyers r)).
Proof.
  unfold computeChurn. cbn [cutoff churned buyers rate].
  rewrite churned_count, buyersSet_customers.
  split; [lia|done].
Qed.

Lemma isChurned_spec (orders : list Enriched.t) (cut : Z) (c : string) :
  isChurned (lastOrder orders) cut c ↔ (fold_left Z.max (orderTimesOf orders c) 0 < cut)%Z.
Proof.
  unfold isChurned. rewrite lastOrder_fold. apply bool_decide_spec.
Qed.

Lemma orderTimesOf_nonempty (orders : list Enriched.t) (c : string) :
  c ∈ Enriched.customer_id <$> orders → orderTimesOf orders c ≠ [].
Proof.
  intros (o & -> & Ho)%list_elem_of_fmap. unfold orderTimesOf.
  intros Hnil%fmap_nil_inv.
  assert (o ∈ filter (λ o', Enriched.customer_id o' = Enriched.customer_id o) orders) as Hin
    by by apply list_elem_of_filter.
  rewrite Hnil in Hin. by apply elem_of_nil in Hin.
Qed.

Lemma elem_of_orderTimesOf (orders : list Enriched.t) (c : string) (t : Z) :
  t ∈ orderTimesOf orders c
  ↔ ∃ o, o ∈ orders ∧ Enriched.customer_id o = c ∧ Enriched.order_dt o = t.
Proof.
  unfold orderTimesOf. rewrite list_elem_of_fmap. split.
  - intros (o & -> & [Hc Ho]%list_elem_of_filter). by exists o.
  - intros (o & Ho & Hc & <-). exists o. split; [done|]. by apply list_elem_of_filter.
Qed.

Lemma fold_max_maxOf_some (ts : list Z) :
  (∃ x, x ∈ ts ∧ 0 ≤ x)%Z → maxOf ts (fold_left Z.max ts 0%Z).
Proof.
  intros (x & Hx & Hpos).
  destruct (fold_max_spec ts 0) as (_ & Hall & [Hz|Hin]).
  - split; [|done]. specialize (Hall x Hx).
    replace (fold_left Z.max ts 0%Z) with x by lia. done.
  - by split.
Qed.

(** Where the epoch that seeds the two maxima does no harm.  For a
    non-empty order set in which every buyer has an order at the epoch or
    later: [endDate] is the greatest order time stamp, the cutoff lies
    [windowDays] days before it, a buyer is counted as churned exactly
    when the greatest time stamp of the buyer's orders is strictly less
    than the cutoff, so a buyer whose orders are all at the cutoff is not
    churned; [churned] counts each churned buyer once, [buyers] counts
    the distinct customer ids of the orders, and [rate] is their
    quotient. *)
Theorem computeChurn_strict_cutoff (orders : list Enriched.t) (windowDays : N) :
  orders ≠ [] →
  (∀ c, c ∈ Enriched.customer_id <$> orders →
        ∃ o, o ∈ orders ∧ Enriched.customer_id o = c ∧ (0 ≤ Enriched.order_dt o)%Z) →
  let r := computeChurn orders windowDays in
  let buyersSet : gset string := list_to_set (Enriched.customer_id <$> orders) in
  maxOf (Enriched.order_dt <$> orders) (endDate orders)
  ∧ cutoff r = (endDate orders - Z.of_N windowDays * 86400000)%Z
  ∧ (∀ c, c ∈ buyersSet →
       ∃ lastOrderDate,
         maxOf (orderTimesOf orders c) lastOrderDate
         ∧ (isChurned (lastOrder orders) (cutoff r) c ↔ (lastOrderDate < cutoff r)%Z))
  ∧ (∀ c, c ∈ buyersSet →
       (∀ o, o ∈ orders → Enriched.customer_id o = c → Enriched.order_dt o = cutoff r) →
       ¬ isChurned (lastOrder orders) (cutoff r) c)
  ∧ churned r = size (filter (λ c, isChurned (lastOrder orders) (cutoff r) c) buyersSet)
  ∧ buyers r = size buyersSet
  ∧ rate r = Js.of_nat (churned r) / Js.of_nat (buyers r).
Proof.
  intros Hne Hpos r buyersSet.
  destruct (computeChurn_fields orders windowDays) as (Hcut & Hch & Hb & Hrate).
  fold r in Hcut, Hch, Hb, Hrate. fold buyersSet in Hch, Hb.
  assert (∀ c, c ∈ buyersSet → maxOf (orderTimesOf orders c)
            (fold_left Z.max (orderTimesOf orders c) 0%Z)) as Hlast.
  { intros c Hc%elem_of_list_to_set. apply fold_max_maxOf_some.
    destruct (Hpos c Hc) as (o & Ho & Hoc & Hdt).
    exists (Enriched.order_dt o). split; [|done]. apply elem_of_orderTimesOf. by exists o. }
  split.
  { rewrite endDate_fold. apply fold_max_maxOf_some.
    destruct orders as [|o0 orders']; [done|].
    destruct (Hpos (Enriched.customer_id o0)) as (o & Ho & _ & Hdt);
      [rewrite fmap_cons; left|].
    exists (Enriched.order_dt o). split; [|done]. apply list_elem_of_fmap. by exists o. }
  split; [done|]. split.
  { intros c Hc. eexists. split; [by apply Hlast|]. apply isChurned_spec. }
  split.
  { intros c Hc Hall. rewrite isChurned_spec.
    destruct (Hlast c Hc) as [(o & Ho & Hoc & Hot)%elem_of_orderTimesOf _].
    rewrite <-Hot, (Hall o Ho Hoc). lia. }
  split; [done|]. split; [done|].
  rewrite Hrate. do 2 f_equal.
  assert (size buyersSet ≠ 0%nat) as Hnz.
  { apply size_non_empty_iff. destruct orders as [|o orders']; [done|].
    intros Hempty.
    apply (not_elem_of_empty (C := gset string) (Enriched.customer_id o)).
    rewrite <-Hempty. unfold buyersSet. rewrite fmap_cons. set_solver. }
  rewrite Hb. by destruct (size buyersSet).
Qed.

(** C5.  The code at two orders from before 1970, of the buyers A
    (1969-09-01) and B (1969-12-31), with a window of 60 days: the epoch
    that seeds [endDate] and [lastOrder] stands in for both maxima, so
    the cutoff is 60 days before the epoch and no buyer is counted as
    churned; yet the greatest time stamp of the orders is that of B and
    the greatest time stamp of A is more than 60 days older, so that the
    last order of A is strictly before the cutoff taken from the greatest
    time stamp. *)
Lemma computeChurn_before_epoch :
  endDate Ex.old = 0%Z
  ∧ lastOrder Ex.old = ∅
  ∧ cutoff (computeChurn Ex.old 60) = (- (60 * 86400000))%Z
  ∧ buyers (computeChurn Ex.old 60) = 2%nat
  ∧ churned (computeChurn Ex.old 60) = 0%nat
  ∧ isChurned (lastOrder Ex.old) (cutoff (computeChurn Ex.old 60)) "A" = false
  ∧ maxOf (Enriched.order_dt <$> Ex.old) (-86400000)
  ∧ maxOf (orderTimesOf Ex.old "A") (-10540800000)
  ∧ (-10540800000 < -86400000 - 60 * 86400000)%Z.
Proof.
  split; [by vm_compute|]. split; [by vm_compute|]. split; [by vm_compute|].
  split; [by vm_compute|].
  split; [by vm_compute|]. split; [by vm_compute|].
  split; [|split; [|lia]].
  - split; [by apply (bool_decide_unpack _); vm_compute|].
    apply Forall_forall. by apply (bool_decide_unpack _); vm_compute.
  - split; [by apply (bool_decide_unpack _); vm_compute|].
    apply Forall_forall. by apply (bool_decide_unpack _); vm_compute.
Qed.

(** The rule of C5 on the example dataset with a window of 20 days. *)
Lemma computeChurn_strict_cutoff_witness :
  maxOf (Enriched.order_dt <$> Ex.enriched) (endDate Ex.enriched)
  ∧ cutoff (computeChurn Ex.enriched 20) = (endDate Ex.enriched - 20 * 86400000)%Z
  ∧ rate (computeChurn Ex.enriched 20)
    = Js.of_nat (churned (computeChurn Ex.enriched 20))
      / Js.of_nat (buyers (computeChurn Ex.enriched 20)).
Proof.
  destruct (computeChurn_strict_cutoff Ex.enriched 20)
    as (Hend & Hcut & _ & _ & _ & _ & Hrate).
  - discriminate.
  - intros c (o & -> & Ho)%list_elem_of_fmap. exists o. split; [done|]. split; [done|].
    revert o Ho. apply Forall_forall. by apply (bool_decide_unpack _); vm_compute.
  - split; [exact Hend|]. split; [exact Hcut|exact Hrate].
Defined.

(** C10.  A longer window never churns more: every buyer counted as
    churned for the window [w2] is counted for any shorter window [w1],
    and the count and the rate for [w2] are at most those for [w1]. *)
Theorem computeChurn_antitone (orders : list Enriched.t) (w1 w2 : N) :
  (w1 ≤ w2)%N →
  let r1 := computeChurn orders w1 in
  let r2 := computeChurn orders w2 in
  (∀ c, isChurned (lastOrder orders) (cutoff r2) c → isChurned (lastOrder orders) (cutoff r1) c)
  ∧ (churned r2 ≤ churned r1)%nat
  ∧ rate r2 ≤ rate r1.
Proof.
  intros Hw r1 r2.
  destruct (computeChurn_fields orders w1) as (Hcut1 & Hch1 & Hb1 & Hrate1).
  destruct (computeChurn_fields orders w2) as (Hcut2 & Hch2 & Hb2 & Hrate2).
  fold r1 in Hcut1, Hch1, Hb1, Hrate1. fold r2 in Hcut2, Hch2, Hb2, Hrate2.
  assert (∀ c, isChurned (lastOrder orders) (cutoff r2) c
               → isChurned (lastOrder orders) (cutoff r1) c) as Himp.
  { intros c. rewrite !isChurned_spec, Hcut1, Hcut2. lia. }
  assert (churned r2 ≤ churned r1)%nat as Hle.
  { rewrite Hch1, Hch2. apply subseteq_size.
    intros c. rewrite !elem_of_filter. intros [??]. auto. }
  split; [done|]. split; [done|].
  rewrite Hrate1, Hrate2, Hb1, Hb2. unfold Qcdiv.
  apply Qcmult_le_mono_nonneg_r; [|by apply of_nat_le].
  apply Qclt_le_weak, Qcinv_pos, of_nat_pos, len_or1_pos.
Qed.

(** C10 on the example dataset, for the windows of 20 and 60 days. *)
Lemma computeChurn_antitone_witness :
  (churned (computeChurn Ex.enriched 60) ≤ churned (computeChurn Ex.enriched 20))%nat
  ∧ rate (computeChurn Ex.enriched 60) ≤ rate (computeChurn Ex.enriched 20).
Proof.
  destruct (computeChurn_antitone Ex.enriched 20 60) as (_ & Hle & Hrate).
  - lia.
  - split; [exact Hle|exact Hrate].
Defined.

(** ** Cohort retention matrix *)

Lemma fold_min_spec (ts : list Z) (a : Z) : minOf (a :: ts) (fold_left Z.min ts a).
Proof.
  revert a. induction ts as [|t ts IH]; intros a; simpl.
  { split; [by left|]. intros x [->|Hx]%elem_of_cons; [lia|by apply elem_of_nil in Hx]. }
  destruct (IH (Z.min a t)) as [Hin Hlb]. split.
  - apply elem_of_cons in Hin as [Heq|Hin]; [|right; by right].
    rewrite Heq. destruct (Z.min_spec a t) as [[_ ->]|[_ ->]]; [by left|right; by left].
  - intros x Hx.
    assert (fold_left Z.min ts (Z.min a t) ≤ Z.min a t)%Z by (apply Hlb; by left).
    apply elem_of_cons in Hx as [->|[->|Hx]%elem_of_cons]; [lia|lia|].
    apply Hlb. by right.
Qed.

Lemma minOf_unique (ts : list Z) (t1 t2 : Z) : minOf ts t1 → minOf ts t2 → t1 = t2.
Proof.
  intros [Hin1 Hlb1] [Hin2 Hlb2].
  pose proof (Hlb1 t2 Hin2). pose proof (Hlb2 t1 Hin1). lia.
Qed.

Lemma minOf_perm (ts ts' : list Z) (t : Z) : ts ≡ₚ ts' → minOf ts t → minOf ts' t.
Proof.
  intros Hp [Hin Hlb]. split; [by rewrite <-Hp|].
  intros x Hx. apply Hlb. by rewrite Hp.
Qed.

Lemma firstOrderTimeSpec_min (orders : list Enriched.t) (c : string) (t : Z) :
  firstOrderTimeSpec orders c = Some t ↔ minOf (orderTimesOf orders c) t.
Proof.
  unfold firstOrderTimeSpec. destruct (orderTimesOf orders c) as [|t0 ts].
  - split; [done|]. intros [Hin _]. by apply elem_of_nil in Hin.
  - split.
    + intros [= <-]. apply fold_min_spec.
    + intros Hmin. f_equal. eapply minOf_unique; [apply fold_min_spec|done].
Qed.

Lemma orderTimesOf_perm (l l' : list Enriched.t) (c : string) :
  l ≡ₚ l' → orderTimesOf l c ≡ₚ orderTimesOf l' c.
Proof. intros Hp. unfold orderTimesOf. by rewrite Hp. Qed.

Lemma sortOrders_perm (orders : list Enriched.t) : sortOrders orders ≡ₚ orders.
Proof. apply sort_perm. Qed.

Lemma sortOrders_sorted (orders : list Enriched.t) :
  StronglySorted (λ a b, Enriched.order_dt a ≤ Enriched.order_dt b)%Z (sortOrders orders).
Proof.
  apply sort_sorted.
  - intros a b. rewrite bool_decide_eq_true. lia.
  - intros a b c ??. lia.
  - intros a b. lia.
Qed.

Lemma firstOrder_acc (l : list Enriched.t) (m : gmap string Z) (c : string) :
  fold_left
    (λ m o,
       match m !! Enriched.customer_id o with
       | Some _ => m
       | None => <[Enriched.customer_id o := Enriched.order_dt o]> m
       end)
    l m !! c
  = match m !! c with
    | Some t => Some t
    | None => head (orderTimesOf l c)
    end.
Proof.
  unfold orderTimesOf. revert m. induction l as [|o l IH]; intros m.
  { simpl. by destruct (m !! c). }
  cbn [fold_left]. rewrite IH, filter_cons. clear IH.
  destruct (decide (Enriched.customer_id o = c)) as [<-|Hne].
  - destruct (m !! Enriched.customer_id o) eqn:Hm.
    + by rewrite Hm.
    + by rewrite lookup_insert_eq.
  - destruct (m !! Enriched.customer_id o) eqn:Hm; [done|].
    by rewrite lookup_insert_ne.
Qed.

Lemma firstOrder_lookup (l : list Enriched.t) (c : string) :
  firstOrder l !! c = head (orderTimesOf l c).
Proof. unfold firstOrder. by rewrite firstOrder_acc, lookup_empty. Qed.

Lemma head_sorted_min (ts : list Z) (t : Z) :
  StronglySorted Z.le ts → head ts = Some t → minOf ts t.
Proof.
  intros Hs Hh. destruct Hs as [|t0 ts Hs Hall]; [done|]. injection Hh as ->.
  split; [by left|]. intros x [->|Hx]%elem_of_cons; [lia|].
  rewrite Forall_forall in Hall. by apply Hall.
Qed.

Lemma orderTimesOf_sorted (l : list Enriched.t) (c : string) :
  StronglySorted (λ a b, Enriched.order_dt a ≤ Enriched.order_dt b)%Z l →
  StronglySorted Z.le (orderTimesOf l c).
Proof.
  unfold orderTimesOf. induction 1 as [|o l Hl IH Hall]; [constructor|].
  rewrite filter_cons. case_decide; [|done].
  rewrite fmap_cons. constructor; [done|].
  rewrite Forall_forall in Hall. apply Forall_forall.
  intros t (o' & -> & [_ Ho']%list_elem_of_filter)%list_elem_of_fmap. by apply Hall.
Qed.

Lemma firstOrder_sorted_min (orders : list Enriched.t) (c : string) :
  firstOrder (sortOrders orders) !! c = firstOrderTimeSpec orders c.
Proof.
  rewrite firstOrder_lookup.
  pose proof (orderTimesOf_sorted _ c (sortOrders_sorted orders)) as Hs.
  pose proof (orderTimesOf_perm _ _ c (sortOrders_perm orders)) as Hp.
  destruct (head (orderTimesOf (sortOrders orders) c)) as [t|] eqn:Hh.
  - symmetry. apply firstOrderTimeSpec_min.
    eapply minOf_perm; [exact Hp|]. by apply head_sorted_min.
  - apply head_None in Hh. rewrite Hh in Hp.
    unfold firstOrderTimeSpec. by rewrite (Permutation_nil Hp).
Qed.

Lemma addToGroup_members (key x : string) (m : gmap string (gset string)) (key' : string) :
  default ∅ (addToGroup key x m !! key')
  = if decide (key = key') then default ∅ (m !! key) ∪ {[x]} else default ∅ (m !! key').
Proof.
  unfold addToGroup. destruct (m !! key) as [s|] eqn:Hk.
  - rewrite Hk, lookup_insert. by case_decide.
  - rewrite lookup_insert_eq, lookup_insert. case_decide; [done|].
    by rewrite lookup_insert_ne.
Qed.

Lemma group_fold_members {X} (keyOf idOf : X → string) (l : list X)
    (m : gmap string (gset string)) (key c : string) :
  c ∈ default ∅ (fold_left (λ m o, addToGroup (keyOf o) (idOf o) m) l m !! key)
  ↔ c ∈ default ∅ (m !! key) ∨ ∃ o, o ∈ l ∧ idOf o = c ∧ keyOf o = key.
Proof.
  revert m. induction l as [|o l IH]; intros m.
  { simpl. split; [by left|]. intros [?|(o & Ho & _)]; [done|]. by apply elem_of_nil in Ho. }
  cbn [fold_left]. rewrite IH, addToGroup_members. clear IH.
  setoid_rewrite elem_of_cons. case_decide as Hkey.
  - subst key. rewrite elem_of_union, elem_of_singleton. split.
    + intros [[?| ->]|(o' & ? & ? & ?)];
        [by left|right; exists o; auto|right; exists o'; auto].
    + intros [?|(o' & [-> |?] & ? & ?)];
        [left; by left|left; right; done|right; exists o'; auto].
  - split.
    + intros [?|(o' & ? & ? & ?)]; [by left|right; exists o'; auto].
    + intros [?|(o' & [-> |?] & ? & ?)]; [by left|done|right; exists o'; auto].
Qed.

Section Cohort.
Context `{DateBuiltins}.

Lemma activeBuyersSpec_elem (orders : list Enriched.t) (key c : string) :
  c ∈ activeBuyersSpec orders key
  ↔ ∃ o, o ∈ orders ∧ Enriched.customer_id o = c ∧ ym (Enriched.order_dt o) = key.
Proof.
  unfold activeBuyersSpec. rewrite elem_of_list_to_set, list_elem_of_fmap.
  setoid_rewrite list_elem_of_filter. split.
  - intros (o & -> & ? & ?). by exists o.
  - intros (o & ? & ? & ?). by exists o.
Qed.

Lemma activeBuyersSpec_perm (l l' : list Enriched.t) (key : string) :
  l ≡ₚ l' → activeBuyersSpec l key = activeBuyersSpec l' key.
Proof.
  intros Hp. apply set_eq. intros c. rewrite !activeBuyersSpec_elem.
  by setoid_rewrite Hp.
Qed.

Lemma buyersByMonth_spec (l : list Enriched.t) (key : string) :
  default ∅ (buyersByMonth l !! key) = activeBuyersSpec l key.
Proof.
  apply set_eq. intros c. unfold buyersByMonth.
  rewrite (group_fold_members (λ o, ym (Enriched.order_dt o)) Enriched.customer_id).
  rewrite lookup_empty, activeBuyersSpec_elem. simpl. set_solver.
Qed.

Lemma cohortMembers_elem (first : gmap string Z) (key c : string) :
  c ∈ default ∅ (cohortMembers first !! key) ↔ ∃ t, first !! c = Some t ∧ ym t = key.
Proof.
  unfold cohortMembers. revert key c.
  apply (map_fold_weak_ind
           (λ (r : gmap string (gset string)) (m : gmap string Z),
              ∀ key c, c ∈ default ∅ (r !! key) ↔ ∃ t, m !! c = Some t ∧ ym t = key)).
  - intros key c. rewrite !lookup_empty. simpl. split; [set_solver|].
    by intros (t & ? & _).
  - intros i x m r Hi IH key c. rewrite addToGroup_members.
    destruct (decide (c = i)) as [->|Hne].
    + rewrite lookup_insert_eq.
      assert (i ∉ default ∅ (r !! key)) as Hnot.
      { rewrite IH. intros (t & Ht & _). congruence. }
      case_decide as Hkey.
      * subst key. split; [intros _; by exists x|set_solver].
      * split; [done|]. intros (t & [= <-] & ?). done.
    + rewrite lookup_insert_ne by done. rewrite <-IH.
      case_decide as Hkey; [subst key|done]. set_solver.
Qed.

Lemma firstOrderTimeSpec_buyer (orders : list Enriched.t) (c : string) (t : Z) :
  firstOrderTimeSpec orders c = Some t →
  ∃ o, o ∈ orders ∧ Enriched.customer_id o = c ∧ Enriched.order_dt o = t.
Proof.
  intros [Hin _]%firstOrderTimeSpec_min. by apply elem_of_orderTimesOf.
Qed.

Lemma cohortMembers_spec (orders : list Enriched.t) (key : string) :
  default ∅ (cohortMembers (firstOrder (sortOrders orders)) !! key) = cohortSpec orders key.
Proof.
  apply set_eq. intros c. rewrite cohortMembers_elem. unfold cohortSpec.
  rewrite elem_of_filter, elem_of_list_to_set, fmap_Some.
  setoid_rewrite firstOrder_sorted_min. split.
  - intros (t & Ht & <-). split; [by exists t|].
    destruct (firstOrderTimeSpec_buyer _ _ _ Ht) as (o & Ho & <- & _).
    apply list_elem_of_fmap. by exists o.
  - intros [(t & Ht & ->) _]. by exists t.
Qed.

(** A cohort member is active in the month of the cohort. *)
Lemma cohortSpec_active (orders : list Enriched.t) (key : string) :
  cohortSpec orders key ⊆ activeBuyersSpec orders key.
Proof.
  intros c. unfold cohortSpec. rewrite elem_of_filter, fmap_Some.
  intros [(t & Ht & ->) _]. apply activeBuyersSpec_elem.
  destruct (firstOrderTimeSpec_buyer _ _ _ Ht) as (o & Ho & Hc & <-). by exists o.
Qed.

Lemma kept_size (cohort buyersSet : gset string) :
  length (filter (λ c, c ∈ buyersSet) (elements cohort)) = size (cohort ∩ buyersSet).
Proof.
  unfold size, set_size. simpl. apply Permutation_length, NoDup_Permutation.
  - apply NoDup_filter, NoDup_elements.
  - apply NoDup_elements.
  - intros c. rewrite list_elem_of_filter, !elem_of_elements, elem_of_intersection. tauto.
Qed.

Lemma retentionCell_spec (byMonth : gmap string (gset string)) (cohort : gset string)
    (i j : nat) (mj : string) :
  retentionCell byMonth cohort i j mj
  = retentionCellSpec cohort (default ∅ (byMonth !! mj)) i j.
Proof.
  unfold retentionCell, retentionCellSpec. case_decide; [done|].
  rewrite kept_size. f_equal. destruct (size cohort) eqn:Hsz.
  - by rewrite decide_True.
  - by rewrite decide_False.
Qed.

Lemma retentionOf_lookup (axis : list string) (byMonth cohorts : gmap string (gset string))
    (i j : nat) (mi mj : string) :
  axis !! i = Some mi → axis !! j = Some mj →
  retentionOf axis byMonth cohorts !! i ≫= (.!! j)
  = Some (retentionCell byMonth (default ∅ (cohorts !! mi)) i j mj).
Proof.
  intros Hi Hj. unfold retentionOf.
  rewrite list_lookup_imap, Hi. simpl. by rewrite list_lookup_imap, Hj.
Qed.

Lemma retention_cell (orders : list Enriched.t) (i j : nat) (mi mj : string) :
  months orders !! i = Some mi → months orders !! j = Some mj →
  retention orders !! i ≫= (.!! j)
  = Some (retentionCellSpec (cohortSpec orders mi) (activeBuyersSpec orders mj) i j).
Proof.
  intros Hi Hj. unfold retention, months in *.
  rewrite (retentionOf_lookup _ _ _ i j mi mj Hi Hj).
  rewrite retentionCell_spec, cohortMembers_spec, buyersByMonth_spec.
  by rewrite (activeBuyersSpec_perm _ _ mj (sortOrders_perm orders)).
Qed.

Lemma retention_diag (orders : list Enriched.t) (i : nat) (mi : string) :
  months orders !! i = Some mi → cohortSpec orders mi ≠ ∅ →
  retention orders !! i ≫= (.!! i) = Some (Some 1).
Proof.
  intros Hi Hne. rewrite (retention_cell orders i i mi mi Hi Hi).
  unfold retentionCellSpec. rewrite decide_False by lia.
  assert (size (cohortSpec orders mi) ≠ 0%nat) as Hsz
    by (rewrite size_non_empty_iff; by intros ?%leibniz_equiv).
  rewrite decide_False by done.
  replace (cohortSpec orders mi ∩ activeBuyersSpec orders mi) with (cohortSpec orders mi).
  - do 2 f_equal. unfold Qcdiv. apply Qcmult_inv_r. by apply of_nat_nonzero.
  - pose proof (cohortSpec_active orders mi). set_solver.
Qed.

End Cohort.

(** ** The month axis *)

Lemma string_compare_lt_trans (s1 s2 s3 : string) :
  String.compare s1 s2 = Lt → String.compare s2 s3 = Lt → String.compare s1 s3 = Lt.
Proof.
  revert s2 s3. induction s1 as [|a s1 IH]; intros [|b s2] [|c s3]; simpl; try done.
  unfold Ascii.compare.
  destruct (N.compare_spec (N_of_ascii a) (N_of_ascii b)),
           (N.compare_spec (N_of_ascii b) (N_of_ascii c)),
           (N.compare_spec (N_of_ascii a) (N_of_ascii c));
    try done; try lia.
  apply IH.
Qed.

Lemma string_compare_refl (s : string) : String.compare s s = Eq.
Proof.
  induction s as [|a s IH]; simpl; [done|].
  unfold Ascii.compare. by rewrite N.compare_refl.
Qed.

Lemma string_leb_ltb (s1 s2 : string) :
  String.leb s1 s2 = true ↔ s1 = s2 ∨ String.ltb s1 s2 = true.
Proof.
  unfold String.leb, String.ltb. split.
  - destruct (String.compare s1 s2) eqn:Hc; try done.
    + left. by apply String.compare_eq_iff.
    + by right.
  - intros [->|Hlt]; [by rewrite string_compare_refl|].
    by destruct (String.compare s1 s2).
Qed.

Lemma string_ltb_irrefl (s : string) : String.ltb s s = false.
Proof. unfold String.ltb. by rewrite string_compare_refl. Qed.

Lemma string_ltb_not_leb (s1 s2 : string) :
  String.ltb s1 s2 = true → String.leb s2 s1 = false.
Proof.
  unfold String.ltb, String.leb. rewrite (String.compare_antisym s2 s1).
  by destruct (String.compare s1 s2).
Qed.

Lemma string_leb_trans : Transitive (λ s1 s2, String.leb s1 s2 = true).
Proof.
  intros s1 s2 s3. rewrite !string_leb_ltb.
  intros [->|H12] [->|H23]; auto. right.
  unfold String.ltb in *.
  destruct (String.compare s1 s2) eqn:H1; try done.
  destruct (String.compare s2 s3) eqn:H2; try done.
  by rewrite (string_compare_lt_trans s1 s2 s3).
Qed.

Lemma string_leb_total : Total (λ s1 s2, String.leb s1 s2 = true).
Proof. intros s1 s2. apply String.leb_total. Qed.

Lemma monthsOf_sorted (byMonth cohorts : gmap string (gset string)) :
  StronglySorted (λ s1 s2, String.leb s1 s2 = true) (monthsOf byMonth cohorts)
  ∧ NoDup (monthsOf byMonth cohorts).
Proof.
  unfold monthsOf. split.
  - apply (sort_sorted String.leb _ (λ _ _, reflexivity _)
             (Transitive0 := string_leb_trans) (Total0 := string_leb_total)).
  - rewrite sort_perm. apply NoDup_elements.
Qed.

Lemma monthsOf_order (byMonth cohorts : gmap string (gset string))
    (i j : nat) (mi mj : string) :
  monthsOf byMonth cohorts !! i = Some mi →
  monthsOf byMonth cohorts !! j = Some mj →
  (j < i)%nat ↔ String.ltb mj mi = true.
Proof.
  intros Hi Hj. destruct (monthsOf_sorted byMonth cohorts) as [Hs Hnd].
  assert (∀ a b x y, (a < b)%nat → monthsOf byMonth cohorts !! a = Some x →
            monthsOf byMonth cohorts !! b = Some y → String.ltb x y = true) as Hlt.
  { intros a b x y Hab Ha Hb.
    pose proof (StronglySorted_lookup_lt _ _ a b x y Hs Hab Ha Hb) as Hle.
    apply string_leb_ltb in Hle as [->|]; [|done].
    pose proof (NoDup_lookup _ a b y Hnd Ha Hb). lia. }
  split; [intros Hji; by apply (Hlt j i)|].
  intros Hltb. destruct (lt_eq_lt_dec j i) as [[?| ->]|Hij]; [done| |].
  - rewrite Hi in Hj. injection Hj as ->. by rewrite string_ltb_irrefl in Hltb.
  - pose proof (Hlt i j mi mj Hij Hi Hj) as Hltb'.
    apply string_ltb_not_leb in Hltb.
    assert (String.leb mi mj = true) by (apply string_leb_ltb; by right). congruence.
Qed.

(** ** Month keys in chronological order *)

Lemma pretty_digit_compare (a b : N) :
  (a < 10)%N → (b < 10)%N →
  Ascii.compare (pretty_N_char a) (pretty_N_char b) = (a ?= b)%N.
Proof.
  intros Ha Hb.
  assert (a = 0 ∨ a = 1 ∨ a = 2 ∨ a = 3 ∨ a = 4 ∨ a = 5 ∨ a = 6 ∨ a = 7 ∨ a = 8 ∨ a = 9)%N
    as Hcase by lia.
  assert (b = 0 ∨ b = 1 ∨ b = 2 ∨ b = 3 ∨ b = 4 ∨ b = 5 ∨ b = 6 ∨ b = 7 ∨ b = 8 ∨ b = 9)%N
    as Hcase' by lia.
  destruct Hcase as [->|[->|[->|[->|[->|[->|[->|[->|[->| ->]]]]]]]]];
    destruct Hcase' as [->|[->|[->|[->|[->|[->|[->|[->|[->| ->]]]]]]]]]; reflexivity.
Qed.

Lemma divmod10 (q r : N) :
  (r < 10)%N → ((10 * q + r) `div` 10 = q ∧ (10 * q + r) `mod` 10 = r)%N.
Proof.
  intros Hr. split.
  - symmetry. apply (N.div_unique _ _ _ r); [done|lia].
  - symmetry. apply (N.mod_unique _ _ q); [done|lia].
Qed.

Lemma pretty_four_digits (a b c d : N) :
  (0 < a)%N → (a < 10)%N → (b < 10)%N → (c < 10)%N → (d < 10)%N →
  pretty (1000 * a + 100 * b + 10 * c + d)%N
  = String (pretty_N_char a) (String (pretty_N_char b)
      (String (pretty_N_char c) (String (pretty_N_char d) ""))).
Proof.
  intros Ha0 Ha Hb Hc Hd. unfold pretty, pretty_N.
  rewrite decide_False by lia.
  replace (1000 * a + 100 * b + 10 * c + d)%N
    with (10 * (10 * (10 * a + b) + c) + d)%N by lia.
  rewrite pretty_N_go_step by lia.
  destruct (divmod10 (10 * (10 * a + b) + c) d Hd) as [-> ->].
  rewrite pretty_N_go_step by lia.
  destruct (divmod10 (10 * a + b) c Hc) as [-> ->].
  rewrite pretty_N_go_step by lia.
  destruct (divmod10 a b Hb) as [-> ->].
  rewrite pretty_N_go_step by lia.
  replace a with (10 * 0 + a)%N at 1 2 by lia.
  destruct (divmod10 0 a Ha) as [-> ->].
  by rewrite pretty_N_go_0.
Qed.

Lemma four_digits (y : Z) :
  (1000 ≤ y ≤ 9999)%Z →
  ∃ a b c d : N,
    (0 < a)%N ∧ (a < 10)%N ∧ (b < 10)%N ∧ (c < 10)%N ∧ (d < 10)%N
    ∧ y = Z.of_N (1000 * a + 100 * b + 10 * c + d)
    ∧ pretty y = String (pretty_N_char a) (String (pretty_N_char b)
                   (String (pretty_N_char c) (String (pretty_N_char d) ""))).
Proof.
  intros Hy.
  assert (∃ x : N, y = Z.of_N x ∧ (1000 ≤ x ≤ 9999)%N) as (x & -> & Hx)
    by (exists (Z.to_N y); lia).
  pose proof (N.div_mod x 10 ltac:(done)) as H0.
  pose proof (N.mod_lt x 10 ltac:(done)) as Hr0.
  set (q1 := (x `div` 10)%N) in *. set (r0 := (x `mod` 10)%N) in *.
  pose proof (N.div_mod q1 10 ltac:(done)) as H1.
  pose proof (N.mod_lt q1 10 ltac:(done)) as Hr1.
  set (q2 := (q1 `div` 10)%N) in *. set (r1 := (q1 `mod` 10)%N) in *.
  pose proof (N.div_mod q2 10 ltac:(done)) as H2.
  pose proof (N.mod_lt q2 10 ltac:(done)) as Hr2.
  set (q3 := (q2 `div` 10)%N) in *. set (r2 := (q2 `mod` 10)%N) in *.
  clearbody q3 r2. clearbody q2 r1. clearbody q1 r0.
  exists q3, r2, r1, r0.
  assert (x = 1000 * q3 + 100 * r2 + 10 * r1 + r0)%N as -> by lia.
  split; [lia|]. split; [lia|]. split; [done|]. split; [done|]. split; [done|].
  split; [done|].
  rewrite <-pretty_four_digits by lia.
  by destruct (1000 * _ + _ + _ + _)%N.
Qed.

Lemma month_part_compare (m1 m2 : Z) :
  (0 ≤ m1 ≤ 11)%Z → (0 ≤ m2 ≤ 11)%Z →
  String.compare (Js.padStart 2 "0" (pretty (m1 + 1)%Z))
    (Js.padStart 2 "0" (pretty (m2 + 1)%Z))
  = (m1 ?= m2)%Z.
Proof.
  intros H1 H2.
  assert (m1 = 0 ∨ m1 = 1 ∨ m1 = 2 ∨ m1 = 3 ∨ m1 = 4 ∨ m1 = 5 ∨ m1 = 6 ∨ m1 = 7
          ∨ m1 = 8 ∨ m1 = 9 ∨ m1 = 10 ∨ m1 = 11)%Z as Hcase by lia.
  assert (m2 = 0 ∨ m2 = 1 ∨ m2 = 2 ∨ m2 = 3 ∨ m2 = 4 ∨ m2 = 5 ∨ m2 = 6 ∨ m2 = 7
          ∨ m2 = 8 ∨ m2 = 9 ∨ m2 = 10 ∨ m2 = 11)%Z as Hcase' by lia.
  destruct Hcase as [->|[->|[->|[->|[->|[->|[->|[->|[->|[->|[->| ->]]]]]]]]]]];
    destruct Hcase' as [->|[->|[->|[->|[->|[->|[->|[->|[->|[->|[->| ->]]]]]]]]]]];
    reflexivity.
Qed.

Lemma monthKey_compare (y1 m1 y2 m2 : Z) :
  (1000 ≤ y1 ≤ 9999)%Z → (1000 ≤ y2 ≤ 9999)%Z → (0 ≤ m1 ≤ 11)%Z → (0 ≤ m2 ≤ 11)%Z →
  String.compare (monthKey y1 m1) (monthKey y2 m2)
  = match (y1 ?= y2)%Z with
    | Eq => (m1 ?= m2)%Z
    | c => c
    end.
Proof.
  intros Hy1 Hy2 Hm1 Hm2. unfold monthKey.
  destruct (four_digits y1 Hy1) as (a1 & b1 & c1 & d1 & ? & ? & ? & ? & ? & Hv1 & ->).
  destruct (four_digits y2 Hy2) as (a2 & b2 & c2 & d2 & ? & ? & ? & ? & ? & Hv2 & ->).
  cbv [String.append]. cbn [String.compare].
  rewrite !pretty_digit_compare by done.
  change (Ascii.compare "-" "-") with Eq. cbv iota.
  rewrite month_part_compare by done.
  destruct (N.compare_spec a1 a2), (N.compare_spec b1 b2),
    (N.compare_spec c1 c2), (N.compare_spec d1 d2);
    destruct (Z.compare_spec y1 y2); try done; lia.
Qed.

Lemma monthKey_order (y1 m1 y2 m2 : Z) :
  (1000 ≤ y1 ≤ 9999)%Z → (1000 ≤ y2 ≤ 9999)%Z → (0 ≤ m1 ≤ 11)%Z → (0 ≤ m2 ≤ 11)%Z →
  String.ltb (monthKey y1 m1) (monthKey y2 m2) = true ↔ monthBefore y1 m1 y2 m2.
Proof.
  intros Hy1 Hy2 Hm1 Hm2. unfold String.ltb, monthBefore.
  rewrite monthKey_compare by done.
  destruct (Z.compare_spec y1 y2), (Z.compare_spec m1 m2); split; try done; lia.
Qed.

(** The year is not padded: before the year 1000 the order of the keys is
    not the order of the months. *)
Remark monthKey_short_year : String.ltb (monthKey 1000 0) (monthKey 999 5) = true.
Proof. reflexivity. Qed.

Section Retention.
Context `{DateBuiltins}.

Lemma retention_length (orders : list Enriched.t) :
  length (retention orders) = length (months orders).
Proof. unfold retention, months, retentionOf. by rewrite length_imap. Qed.

(** Where the month keys sort as the months do.  The matrix has one row
    per month of the axis; the cell of the cohort row [i] and the month
    column [j] is null exactly when [j] comes before [i] on the axis,
    which is sorted by month key, and for years of four digits that is
    when the month [j] comes before the month [i] in time; every other
    cell is the share of the cohort of month [i] that is active in month
    [j], and 0 for an empty cohort. *)
Theorem retention_upper_triangular (orders : list Enriched.t) :
  length (retention orders) = length (months orders)
  ∧ ∀ (i j : nat) (mi mj : string),
      months orders !! i = Some mi → months orders !! j = Some mj →
      ∃ cell : option Qc,
        retention orders !! i ≫= (.!! j) = Some cell
        ∧ (cell = None ↔ (j < i)%nat)
        ∧ ((j < i)%nat ↔ String.ltb mj mi = true)
        ∧ (∀ dj di : Z,
             ym dj = mj → ym di = mi →
             (1000 ≤ getFullYear dj ≤ 9999)%Z → (1000 ≤ getFullYear di ≤ 9999)%Z →
             (0 ≤ getMonth dj ≤ 11)%Z → (0 ≤ getMonth di ≤ 11)%Z →
             (j < i)%nat
             ↔ monthBefore (getFullYear dj) (getMonth dj) (getFullYear di) (getMonth di))
        ∧ ((i ≤ j)%nat →
             cell = Some
               (if decide (size (cohortSpec orders mi) = 0%nat) then 0
                else Js.of_nat (size (cohortSpec orders mi ∩ activeBuyersSpec orders mj))
                     / Js.of_nat (size (cohortSpec orders mi)))).
Proof.
  split; [apply retention_length|].
  intros i j mi mj Hi Hj. eexists. split; [by apply retention_cell|].
  assert ((j < i)%nat ↔ String.ltb mj mi = true) as Haxis.
  { unfold months in Hi, Hj. by eapply monthsOf_order. }
  unfold retentionCellSpec. split; [|split; [done|split]].
  - case_decide; by split.
  - intros dj di <- <- ????. rewrite Haxis. by apply monthKey_order.
  - intros Hij. by rewrite decide_False by lia.
Qed.

(** C7 (as amended).  The diagonal cell of a cohort with at least one
    member is 1: the first order of a member makes the member active in
    the month of the cohort. *)
Theorem retention_diagonal (orders : list Enriched.t) (i : nat) (mi : string) :
  months orders !! i = Some mi →
  cohortSpec orders mi ≠ ∅ →
  retention orders !! i ≫= (.!! i) = Some (Some 1).
Proof. apply retention_diag. Qed.

End Retention.

(** The matrix on the example dataset: half of the cohort of January 2023 is
    active in February, and the cell of the February cohort for January,
    an earlier month, is null. *)
Lemma retention_upper_triangular_witness :
  retention (H := Utc.host) Ex.enriched !! 0%nat ≫= (.!! 1%nat) = Some (Some (Ex.q 1 2))
  ∧ retention (H := Utc.host) Ex.enriched !! 1%nat ≫= (.!! 0%nat) = Some None
  ∧ monthBefore 2023 0 2023 1.
Proof.
  destruct (retention_upper_triangular (H := Utc.host) Ex.enriched) as [_ Hcell].
  split.
  - destruct (Hcell 0%nat 1%nat "2023-01" "2023-02" eq_refl eq_refl)
      as (cell & -> & _ & _ & _ & Hval).
    rewrite Hval by lia. by vm_compute.
  - destruct (Hcell 1%nat 0%nat "2023-02" "2023-01" eq_refl eq_refl)
      as (cell & -> & Hnull & _ & Hchron & _).
    split; [f_equal; apply Hnull; lia|].
    apply (Hchron (Utc.of_string "2023-01-05T10:00") (Utc.of_string "2023-02-10T09:00"));
      [reflexivity|reflexivity|by vm_compute..|lia].
Defined.

(** C6.  The code at an order in June 999 and an order in January 1000:
    [ym] pads the month of a key but not its year, so the sorted axis
    puts the key of January 1000 first; the cell of the cohort of June
    999 for January 1000, a later month, is null, and the cell of the
    cohort of January 1000 for June 999, an earlier month, is not. *)
Lemma retention_short_year :
  months (H := Utc.host) Ex.early = ["1000-01"; "999-06"]
  ∧ elements (cohortSpec (H := Utc.host) Ex.early "999-06") = ["A"]
  ∧ elements (cohortSpec (H := Utc.host) Ex.early "1000-01") = ["B"]
  ∧ retention (H := Utc.host) Ex.early !! 1%nat ≫= (.!! 0%nat) = Some None
  ∧ ¬ monthBefore 1000 0 999 5
  ∧ retention (H := Utc.host) Ex.early !! 0%nat ≫= (.!! 1%nat) = Some (Some 0)
  ∧ monthBefore 999 5 1000 0.
Proof.
  split; [by vm_compute|]. split; [by vm_compute|]. split; [by vm_compute|].
  split; [by vm_compute|]. split; [unfold monthBefore; lia|].
  split; [by vm_compute|]. unfold monthBefore. lia.
Qed.

(** C7 on the example dataset, for the cohort of January 2023. *)
Lemma retention_diagonal_witness :
  retention (H := Utc.host) Ex.enriched !! 0%nat ≫= (.!! 0%nat) = Some (Some 1).
Proof.
  apply (retention_diagonal (H := Utc.host) Ex.enriched 0 "2023-01"); [reflexivity|].
  intros Hempty.
  apply (not_elem_of_empty (C := gset string) "C1"). rewrite <-Hempty.
  by apply (bool_decide_unpack _); vm_compute.
Defined.

(** C7 fails as stated: in a dataset with a single order the cohort has
    one member, who did not order again in the month, and the diagonal
    cell is 1 all the same. *)
Lemma retention_diagonal_counterexample :
  months (H := Utc.host) Ex.single = ["2023-01"]
  ∧ elements (cohortSpec (H := Utc.host) Ex.single "2023-01") = ["C2"]
  ∧ retention (H := Utc.host) Ex.single !! 0%nat ≫= (.!! 0%nat) = Some (Some 1)
  ∧ ¬ orderedAgain (H := Utc.host) Ex.single "2023-01" "C2".
Proof.
  split; [by vm_compute|]. split; [by vm_compute|]. split.
  - apply (retention_diag (H := Utc.host) Ex.single 0 "2023-01"); [reflexivity|].
    intros Hempty.
    apply (not_elem_of_empty (C := gset string) "C2"). rewrite <-Hempty.
    by apply (bool_decide_unpack _); vm_compute.
  - unfold orderedAgain. vm_compute. lia.
Qed.

(** ** The arrays over a run of [main] *)

Section Frame.
Context `{DateBuiltins}.

Lemma readOrders_enrichStep (orders : list Order.t) (customers : list Customer.t)
    (products : list Product.t) :
  st_orders (enrichStep (loaded orders customers products))
  = Written <$> enrichOrders orders customers products.
Proof.
  unfold enrichStep, loaded, enrichOrders. simpl.
  rewrite <-!list_fmap_compose. done.
Qed.

Lemma omap_writtenOf (es : list Enriched.t) : omap writtenOf (Written <$> es) = es.
Proof.
  induction es as [|e es IH]; [done|]. rewrite fmap_cons.
  change (omap writtenOf (Written e :: (Written <$> es)))
    with (e :: omap writtenOf (Written <$> es)).
  by rewrite IH.
Qed.

Lemma sort_written (es : list Enriched.t) :
  Js.sort objLeb (Written <$> es) = Written <$> sortOrders es.
Proof. unfold sortOrders. by apply sort_fmap. Qed.

Lemma main_store (rnd : nat → Qc) (s : nat) (orders : list Order.t)
    (customers : list Customer.t) (products : list Product.t) :
  (main rnd s (loaded orders customers products)).2
  = {| st_orders := Written <$> sortOrders (enrichOrders orders customers products);
       st_customers := customers;
       st_products := products |}.
Proof.
  unfold main. cbn [snd]. unfold sortStep.
  rewrite readOrders_enrichStep, sort_written. done.
Qed.

(** The results are the metrics of the enriched orders. *)
Lemma main_results (rnd : nat → Qc) (s : nat) (orders : list Order.t)
    (customers : list Customer.t) (products : list Product.t) :
  let res := (main rnd s (loaded orders customers products)).1 in
  let es := enrichOrders orders customers products in
  r_totalRev res = totalRev es
  ∧ r_channelShare res = toShareMap (groupSum es Enriched.channel Enriched.revenue)
  ∧ r_bfAvgDiscOnly res = avgDiscOnly (bfOrders es)
  ∧ r_nonbfAvgDiscOnly res = avgDiscOnly (nonbfOrders es)
  ∧ r_churn60 res = computeChurn es 60
  ∧ r_months res = months es
  ∧ r_retention res = retention es.
Proof.
  unfold main.
  cbn [fst r_totalRev r_channelShare r_bfAvgDiscOnly r_nonbfAvgDiscOnly r_churn60
         r_months r_retention].
  unfold readOrders, sortStep. cbn [st_orders].
  rewrite readOrders_enrichStep, sort_written, !omap_writtenOf. done.
Qed.

(** C9 (as amended).  A run of [main] leaves the customers and the
    products as loaded and changes no field of the row of an order; it
    writes the five derived fields into every order object, and it sorts
    the array of the orders by time stamp, so the array ends up holding
    the same rows in a possibly different order. *)
Theorem main_frame (rnd : nat → Qc) (s : nat) (orders : list Order.t)
    (customers : list Customer.t) (products : list Product.t) :
  let st := (main rnd s (loaded orders customers products)).2 in
  st_customers st = customers
  ∧ st_products st = products
  ∧ rowOf <$> st_orders st ≡ₚ orders
  ∧ st_orders st = Written <$> sortOrders (enrichOrders orders customers products)
  ∧ StronglySorted (λ a b, Enriched.order_dt a ≤ Enriched.order_dt b)%Z
      (omap writtenOf (st_orders st)).
Proof.
  intros st. subst st. rewrite main_store. cbn [st_customers st_products st_orders].
  split; [done|]. split; [done|]. split; [|split; [done|]].
  - rewrite <-list_fmap_compose, sortOrders_perm. unfold enrichOrders.
    rewrite <-list_fmap_compose. by rewrite list_fmap_id.
  - rewrite omap_writtenOf. apply sortOrders_sorted.
Qed.

End Frame.

(** C9 fails as stated: with two orders loaded latest first, the run
    leaves the rows in the opposite order in the array, and the order
    objects, which had no [revenue] when loaded, carry one afterwards. *)
Lemma main_mutates_orders_counterexample :
  st_orders (main (H := Utc.host) Ex.half 0 (loaded Ex.unsorted Ex.customers Ex.products)).2
    ≠ st_orders (loaded Ex.unsorted Ex.customers Ex.products)
  ∧ rowOf <$> st_orders (loaded Ex.unsorted Ex.customers Ex.products) = [Ex.o3; Ex.o1]
  ∧ rowOf <$> st_orders
                (main (H := Utc.host) Ex.half 0 (loaded Ex.unsorted Ex.customers Ex.products)).2
    = [Ex.o1; Ex.o3]
  ∧ writtenOf <$> st_orders (loaded Ex.unsorted Ex.customers Ex.products) = [None; None]
  ∧ (fmap Enriched.revenue ∘ writtenOf) <$>
      st_orders
        (main (H := Utc.host) Ex.half 0 (loaded Ex.unsorted Ex.customers Ex.products)).2
    = [Some (Ex.q 10 1); Some (Ex.q 30 1)].
Proof.
  rewrite main_store. cbn [st_orders]. split; [|split; [|split; [|split]]].
  - intros Heq. apply (f_equal (fmap rowOf)) in Heq. vm_compute in Heq. discriminate.
  - reflexivity.
  - by vm_compute.
  - reflexivity.
  - by vm_compute.
Qed.

(** * Part III: further properties of the metrics *)

(** ** Sums *)

Lemma sum_perm (l l' : list Qc) : l ≡ₚ l' → Js.sum l = Js.sum l'.
Proof.
  induction 1 as [|x l l' _ IH|x y l|l l' l'' _ IH1 _ IH2].
  - done.
  - by rewrite !sum_cons, IH.
  - rewrite !sum_cons. ring.
  - by rewrite IH1.
Qed.

Lemma of_nat_0 : Js.of_nat 0 = 0.
Proof. by apply Qc_is_canon. Qed.

Lemma of_nat_S (n : nat) : Js.of_nat (S n) = 1 + Js.of_nat n.
Proof.
  unfold Js.of_nat. by rewrite Nat2Z.inj_succ, <-Z.add_1_l, Z2Qc_inj_add.
Qed.

Lemma sum_nonneg (l : list Qc) : (∀ x, x ∈ l → 0 ≤ x) → 0 ≤ Js.sum l.
Proof.
  induction l as [|x l IH]; intros Hl.
  - by rewrite sum_nil.
  - rewrite sum_cons.
    assert (0 ≤ x) by (apply Hl; left).
    assert (0 ≤ Js.sum l) by (apply IH; intros y Hy; apply Hl; by right).
    replace 0 with (0 + 0) by ring. by apply Qcplus_le_compat.
Qed.

Lemma sum_bounds (l : list Qc) (a b : Qc) :
  (∀ x, x ∈ l → a ≤ x ∧ x ≤ b) →
  Js.of_nat (length l) * a ≤ Js.sum l ∧ Js.sum l ≤ Js.of_nat (length l) * b.
Proof.
  induction l as [|x l IH]; intros Hl.
  - rewrite sum_nil. cbn [length]. rewrite of_nat_0.
    replace (0 * a) with 0 by ring. replace (0 * b) with 0 by ring.
    split; apply Qcle_refl.
  - destruct (Hl x) as [Hax Hxb]; [left|].
    destruct IH as [IHa IHb]; [intros y Hy; apply Hl; by right|].
    rewrite sum_cons.
    cbn [length]. rewrite of_nat_S.
    split.
    + replace ((1 + Js.of_nat (length l)) * a) with (a + Js.of_nat (length l) * a) by ring.
      by apply Qcplus_le_compat.
    + replace ((1 + Js.of_nat (length l)) * b) with (b + Js.of_nat (length l) * b) by ring.
      by apply Qcplus_le_compat.
Qed.

Lemma sum_filter_le {X} (f : X → Qc) (P : X → Prop) `{∀ x, Decision (P x)} (l : list X) :
  (∀ x, x ∈ l → 0 ≤ f x) → Js.sum (f <$> filter P l) ≤ Js.sum (f <$> l).
Proof.
  induction l as [|x l IH]; intros Hl; [apply Qcle_refl|].
  assert (0 ≤ f x) by (apply Hl; left).
  assert (Js.sum (f <$> filter P l) ≤ Js.sum (f <$> l)) as IH'.
  { apply IH. intros y Hy. apply Hl. by right. }
  rewrite filter_cons. case_decide.
  - rewrite !fmap_cons, !sum_cons. apply Qcplus_le_compat; [apply Qcle_refl|done].
  - rewrite fmap_cons, sum_cons.
    replace (Js.sum (f <$> filter P l)) with (0 + Js.sum (f <$> filter P l)) by ring.
    by apply Qcplus_le_compat.
Qed.

Lemma sum_const_one {X} (l : list X) : Js.sum ((λ _, 1) <$> l) = Js.of_nat (length l).
Proof.
  induction l as [|x l IH]; [by rewrite fmap_nil, sum_nil; cbn [length]; rewrite of_nat_0|].
  rewrite fmap_cons, sum_cons, IH. cbn [length]. by rewrite of_nat_S.
Qed.

(** ** Ratios *)

Lemma Qc_div_range (a b : Qc) : 0 ≤ a → a ≤ b → 0 < b → 0 ≤ a / b ∧ a / b ≤ 1.
Proof.
  intros Ha Hab Hb.
  assert (0 < / b) as Hinv by by apply Qcinv_pos.
  assert (b ≠ 0) as Hb0 by by apply not_eq_sym, Qclt_not_eq.
  unfold Qcdiv. split.
  - replace 0 with (0 * / b) by ring. apply Qcmult_le_compat_r; [done|by apply Qclt_le_weak].
  - replace 1 with (b * / b) by (by rewrite Qcmult_inv_r).
    apply Qcmult_le_compat_r; [done|by apply Qclt_le_weak].
Qed.

Lemma Qc_div_lt_1 (a b : Qc) : a < b → 0 < b → a / b < 1.
Proof.
  intros Hab Hb.
  assert (0 < / b) as Hinv by by apply Qcinv_pos.
  assert (b ≠ 0) as Hb0 by by apply not_eq_sym, Qclt_not_eq.
  unfold Qcdiv. replace 1 with (b * / b) by (by rewrite Qcmult_inv_r).
  by apply Qcmult_lt_compat_r.
Qed.

(** The share of the elements of an array that pass a test. *)
Lemma filter_ratio_range {X} (P : X → Prop) `{∀ x, Decision (P x)} (l : list X) :
  0 ≤ Js.of_nat (length (filter P l)) / Js.of_nat (Js.len_or1 (length l))
  ∧ Js.of_nat (length (filter P l)) / Js.of_nat (Js.len_or1 (length l)) ≤ 1.
Proof.
  apply Qc_div_range.
  - rewrite <-of_nat_0. apply of_nat_le. lia.
  - apply of_nat_le. pose proof (length_filter P l). destruct (length l); simpl; lia.
  - apply of_nat_pos, len_or1_pos.
Qed.

(** ** Grouped sums and shares *)

Lemma sum_values_ge `{Countable K} (m : gmap K Qc) :
  (∀ k v, m !! k = Some v → 0 ≤ v) →
  0 ≤ Js.sum_values m ∧ ∀ k v, m !! k = Some v → v ≤ Js.sum_values m.
Proof.
  induction m as [|i x m Hi IH] using map_ind; intros Hm.
  - split; [by rewrite (sum_values_empty (K := K)) at 1|].
    intros k v. by rewrite lookup_empty.
  - rewrite sum_values_insert_fresh by done.
    assert (0 ≤ x) as Hx by (apply (Hm i); by rewrite lookup_insert_eq).
    destruct IH as [IH0 IHk].
    { intros k v Hk. apply (Hm k). rewrite lookup_insert_ne; [done|]. congruence. }
    split; [by apply Qcplus_nonneg_nonneg|].
    intros k v. destruct (decide (k = i)) as [->|Hne].
    + rewrite lookup_insert_eq. intros [= <-].
      rewrite <-(Qcplus_0_l x) at 1. by apply Qcplus_le_compat; [|apply Qcle_refl].
    + rewrite lookup_insert_ne by done. intros Hk.
      rewrite <-(Qcplus_0_r v). apply Qcplus_le_compat; [by apply (IHk k)|done].
Qed.

(** X2.  [toShareMap] keeps the keys of the map, whatever its values;
    and on a map without negative value every share lies between 0 and
    1. *)
Theorem toShareMap_range `{Countable K} (m : gmap K Qc) :
  dom (toShareMap m) = dom m
  ∧ ((∀ k v, m !! k = Some v → 0 ≤ v) →
     ∀ k s, toShareMap m !! k = Some s → 0 ≤ s ∧ s ≤ 1).
Proof.
  rewrite toShareMap_fmap. split; [by rewrite dom_fmap_L|].
  intros Hm k s. rewrite lookup_fmap, fmap_Some. intros (v & Hv & ->).
  destruct (sum_values_ge m Hm) as [Hsum Hle].
  assert (0 ≤ v) by by apply (Hm k).
  assert (v ≤ Js.sum_values m) by by apply (Hle k).
  unfold Js.num_or. case_decide as Hz.
  - apply Qc_div_range; [done| |done]. rewrite Hz in *. by etrans.
  - apply Qc_div_range; [done|done|].
    destruct (Qcle_lt_or_eq _ _ Hsum); [done|congruence].
Qed.

(** The keys are kept also with a negative value, and the shares of a
    map without one are in range. *)
Lemma toShareMap_range_witness :
  dom (toShareMap ({["Web" := Ex.q 3 1; "Mobile" := Ex.q (-1) 1]} : gmap string Qc))
  = dom ({["Web" := Ex.q 3 1; "Mobile" := Ex.q (-1) 1]} : gmap string Qc)
  ∧ ∀ k s, toShareMap ({["Web" := Ex.q 3 1; "Mobile" := Ex.q 1 1]} : gmap string Qc) !! k
           = Some s →
           0 ≤ s ∧ s ≤ 1.
Proof.
  split.
  - apply (toShareMap_range ({["Web" := Ex.q 3 1; "Mobile" := Ex.q (-1) 1]} : gmap string Qc)).
  - apply (toShareMap_range ({["Web" := Ex.q 3 1; "Mobile" := Ex.q 1 1]} : gmap string Qc)).
    intros k v Hk.
    apply lookup_insert_Some in Hk as [[_ <-]|[_ Hk]]; [done|].
    apply lookup_singleton_Some in Hk as [_ <-]. done.
Defined.

(** ** The mean *)

Lemma mean_bounds (arr : list Qc) (a b : Qc) :
  arr ≠ [] → (∀ x, x ∈ arr → a ≤ x ∧ x ≤ b) → a ≤ mean arr ∧ mean arr ≤ b.
Proof.
  intros Hne Harr. rewrite mean_nonempty by done.
  destruct (sum_bounds arr a b Harr) as [Ha Hb].
  assert (0 < Js.of_nat (length arr)) as Hn.
  { apply of_nat_pos. destruct arr; [done|simpl; lia]. }
  assert (Js.of_nat (length arr) ≠ 0) as Hn0 by by apply not_eq_sym, Qclt_not_eq.
  assert (Js.sum arr / Js.of_nat (length arr) * Js.of_nat (length arr) = Js.sum arr) as Hdiv.
  { rewrite Qcmult_comm. by apply Qcmult_div_r. }
  split.
  - apply (Qcmult_le_mono_pos_r _ _ _ Hn). rewrite Hdiv. by rewrite Qcmult_comm.
  - apply (Qcmult_le_mono_pos_r _ _ _ Hn). rewrite Hdiv. by rewrite Qcmult_comm.
Qed.

(** ** The random source of the bootstrap *)

Lemma resample_state (rnd : nat → Qc) (data : list Qc) (n s : nat) :
  (resample rnd data n s).2 = (s + n)%nat.
Proof.
  revert s. induction n as [|n IH]; intros s; cbn [resample]; [simpl; lia|].
  specialize (IH (S s)). destruct (resample rnd data n (S s)) as [xs s']. simpl in *. lia.
Qed.

Lemma resample_ext (rnd rnd' : nat → Qc) (data : list Qc) (n s : nat) :
  (∀ i, (s ≤ i < s + n)%nat → rnd i = rnd' i) →
  resample rnd' data n s = resample rnd data n s.
Proof.
  revert s. induction n as [|n IH]; intros s Hext; cbn [resample]; [done|].
  rewrite (IH (S s)) by (intros i Hi; apply Hext; lia).
  rewrite (Hext s) by lia. done.
Qed.

Lemma bootstrap_loop_state (rnd : nat → Qc) (dataA dataB : list Qc) (B s : nat)
    (diffs : list (option Qc)) :
  (bootstrap_loop rnd dataA dataB B s diffs).2
  = (s + B * (length dataA + length dataB))%nat.
Proof.
  revert s diffs. induction B as [|B IH]; intros s diffs; cbn [bootstrap_loop]; [simpl; lia|].
  pose proof (resample_state rnd dataA (length dataA) s) as HA.
  destruct (resample rnd dataA (length dataA) s) as [sampleA s1].
  pose proof (resample_state rnd dataB (length dataB) s1) as HB.
  destruct (resample rnd dataB (length dataB) s1) as [sampleB s2].
  rewrite IH. simpl in *. lia.
Qed.

Lemma bootstrap_loop_ext (rnd rnd' : nat → Qc) (dataA dataB : list Qc) (B s : nat)
    (diffs : list (option Qc)) :
  (∀ i, (s ≤ i < s + B * (length dataA + length dataB))%nat → rnd i = rnd' i) →
  bootstrap_loop rnd' dataA dataB B s diffs = bootstrap_loop rnd dataA dataB B s diffs.
Proof.
  revert s diffs. induction B as [|B IH]; intros s diffs Hext; cbn [bootstrap_loop]; [done|].
  rewrite (resample_ext rnd rnd' dataA) by (intros i Hi; apply Hext; lia).
  pose proof (resample_state rnd dataA (length dataA) s) as HA.
  destruct (resample rnd dataA (length dataA) s) as [sampleA s1].
  rewrite (resample_ext rnd rnd' dataB) by (intros i Hi; apply Hext; simpl in *; lia).
  pose proof (resample_state rnd dataB (length dataB) s1) as HB.
  destruct (resample rnd dataB (length dataB) s1) as [sampleB s2].
  apply IH. intros i Hi. apply Hext. simpl in *. lia.
Qed.

(** X5.  [bootstrapCI] draws exactly [B * (dataA.length + dataB.length)]
    random numbers, whatever their values, and its result depends on no
    other draw: two random sources that agree on these draws give the same
    result. *)
Theorem bootstrapCI_draws (rnd rnd' : nat → Qc) (dataA dataB : list Qc) (B s : nat) :
  (∀ i, (s ≤ i < s + B * (length dataA + length dataB))%nat → rnd i = rnd' i) →
  (bootstrapCI rnd dataA dataB B s).2 = (s + B * (length dataA + length dataB))%nat
  ∧ bootstrapCI rnd' dataA dataB B s = bootstrapCI rnd dataA dataB B s.
Proof.
  intros Hext. unfold bootstrapCI.
  rewrite (bootstrap_loop_ext rnd rnd') by done.
  pose proof (bootstrap_loop_state rnd dataA dataB B s []) as Hs.
  destruct (bootstrap_loop rnd dataA dataB B s []) as [diffs s']. done.
Qed.

Lemma bootstrapCI_draws_witness :
  (bootstrapCI Ex.half [Ex.q 10 1; Ex.q 20 1; Ex.q 30 1] [Ex.q 5 1; Ex.q 15 1] 4 7).2
  = 27%nat
  ∧ bootstrapCI (λ i, if decide (i < 27)%nat then Ex.q 1 2 else Ex.q 9 10)
      [Ex.q 10 1; Ex.q 20 1; Ex.q 30 1] [Ex.q 5 1; Ex.q 15 1] 4 7
    = bootstrapCI Ex.half [Ex.q 10 1; Ex.q 20 1; Ex.q 30 1] [Ex.q 5 1; Ex.q 15 1] 4 7.
Proof.
  apply (bootstrapCI_draws Ex.half (λ i, if decide (i < 27)%nat then Ex.q 1 2 else Ex.q 9 10)
           [Ex.q 10 1; Ex.q 20 1; Ex.q 30 1] [Ex.q 5 1; Ex.q 15 1] 4 7).
  intros i Hi. simpl in Hi. case_decide; [done|lia].
Defined.

(** ** Samples without spread *)

Lemma mean_const (l : list Qc) (a : Qc) : l ≠ [] → (∀ x, x ∈ l → x = a) → mean l = a.
Proof.
  intros Hne Hl. apply Qcle_antisym.
  - apply (mean_bounds l a a); [done|]. intros x Hx. rewrite (Hl x Hx). split; apply Qcle_refl.
  - apply (mean_bounds l a a); [done|]. intros x Hx. rewrite (Hl x Hx). split; apply Qcle_refl.
Qed.

Lemma mean_resample_const (data xs : list Qc) (a : Qc) :
  (∀ x, x ∈ data → x = a) → isResample data xs → mean xs = mean data.
Proof.
  intros Hdata [Hlen Hxs]. destruct data as [|d data].
  - destruct xs; [done|discriminate].
  - rewrite (mean_const (d :: data) a) by done.
    apply mean_const; [by destruct xs|]. intros x Hx. by apply Hdata, Hxs.
Qed.

Lemma at_index_elem_of {A} (arr : list A) (i : Z) (x : A) :
  Js.at_index arr i = Some x → x ∈ arr.
Proof.
  unfold Js.at_index. case_decide; [|done]. apply list_elem_of_lookup_2.
Qed.

(** X6.  When all the values of each sample are equal (in particular when
    a sample has one value or none), every resample has the mean of its
    sample, and both ends of the interval are the observed difference. *)
Theorem bootstrapCI_constant_samples (rnd : nat → Qc) (dataA dataB : list Qc)
    (B s : nat) (a b : Qc) :
  (∀ n, 0 ≤ rnd n ∧ rnd n < 1) →
  (1 ≤ B)%nat →
  (∀ x, x ∈ dataA → x = a) →
  (∀ x, x ∈ dataB → x = b) →
  (bootstrapCI rnd dataA dataB B s).1
  = {| diff := mean dataA - mean dataB;
       lo := Some (mean dataA - mean dataB);
       hi := Some (mean dataA - mean dataB) |}.
Proof.
  intros Hrnd HB HA Hb.
  destruct (bootstrapCI_spec rnd Hrnd dataA dataB B s HB)
    as (diffs & sorted & l & h & _ & Hdiffs & Hperm & _ & Hl & Hh & -> & _).
  assert (∀ d, d ∈ sorted → d = mean dataA - mean dataB) as Hall.
  { intros d Hd. rewrite Hperm in Hd.
    rewrite Forall_forall in Hdiffs.
    destruct (Hdiffs d Hd) as (sa & sb & Hsa & Hsb & ->).
    by rewrite (mean_resample_const dataA sa a), (mean_resample_const dataB sb b). }
  by rewrite (Hall l (at_index_elem_of _ _ _ Hl)), (Hall h (at_index_elem_of _ _ _ Hh)).
Qed.

Lemma bootstrapCI_constant_samples_witness :
  (bootstrapCI Ex.half [Ex.q 10 1; Ex.q 10 1] [] 40 0).1
  = {| diff := mean [Ex.q 10 1; Ex.q 10 1] - mean [];
       lo := Some (mean [Ex.q 10 1; Ex.q 10 1] - mean []);
       hi := Some (mean [Ex.q 10 1; Ex.q 10 1] - mean []) |}.
Proof.
  apply (bootstrapCI_constant_samples Ex.half [Ex.q 10 1; Ex.q 10 1] [] 40 0
           (Ex.q 10 1) 0).
  - intros n. by vm_compute.
  - lia.
  - intros x Hx. repeat (apply elem_of_cons in Hx as [->|Hx]; [done|]).
    by apply elem_of_nil in Hx.
  - intros x Hx. by apply elem_of_nil in Hx.
Defined.

(** ** Buyers and repeat purchases *)

Lemma revByCust_groupSum (orders : list Enriched.t) :
  revByCust orders = groupSum orders Enriched.customer_id Enriched.revenue.
Proof. reflexivity. Qed.

Lemma ordersByCust_lookup (orders : list Enriched.t) (c : string) :
  ordersByCust orders !! c =
    if decide (c ∈ Enriched.customer_id <$> orders)
    then Some (Js.of_nat (length (filter (λ o, Enriched.customer_id o = c) orders)))
    else None.
Proof.
  rewrite ordersByCust_groupSum, groupSum_lookup. case_decide; [|done].
  by rewrite sum_const_one.
Qed.

Lemma buyersOf_NoDup (orders : list Enriched.t) : NoDup (buyersOf orders).
Proof. apply NoDup_fst_map_to_list. Qed.

Lemma filter_customer_nonempty (orders : list Enriched.t) (c : string) :
  c ∈ Enriched.customer_id <$> orders ↔
  (1 ≤ length (filter (λ o, Enriched.customer_id o = c) orders))%nat.
Proof.
  rewrite list_elem_of_fmap. split.
  - intros (o & -> & Ho).
    assert (o ∈ filter (λ o', Enriched.customer_id o' = Enriched.customer_id o) orders) as Hin
      by by apply list_elem_of_filter.
    destruct (filter _ orders); [by apply elem_of_nil in Hin|simpl; lia].
  - intros Hlen.
    destruct (filter (λ o, Enriched.customer_id o = c) orders) as [|o l] eqn:Hf;
      [simpl in Hlen; lia|].
    assert (o ∈ filter (λ o, Enriched.customer_id o = c) orders) as Hin
      by (rewrite Hf; left).
    apply list_elem_of_filter in Hin as [Hc Ho]. by exists o.
Qed.

Lemma one_lt_of_nat (n : nat) : 1 < Js.of_nat n ↔ (2 ≤ n)%nat.
Proof.
  unfold Js.of_nat. rewrite <-Z2Qc_inj_1, <-Z2Qc_inj_lt. lia.
Qed.

Lemma elem_of_repeatBuyers (orders : list Enriched.t) (c : string) :
  c ∈ repeatBuyers orders
  ↔ (2 ≤ length (filter (λ o, Enriched.customer_id o = c) orders))%nat.
Proof.
  unfold repeatBuyers. rewrite list_elem_of_filter, elem_of_buyersOf, ordersByCust_lookup.
  case_decide as Hc.
  - cbn [Js.get_or]. rewrite num_or_zero, one_lt_of_nat. tauto.
  - rewrite filter_customer_nonempty in Hc. cbn [Js.get_or]. split; [|lia].
    intros [Hlt _]. exfalso. revert Hlt. by vm_compute.
Qed.

(** X7.  After the loop over the orders, [ordersByCust] holds for every
    customer with an order the number of their orders and [revByCust] the
    sum of their revenues, added in the order of the array; a customer
    without order is not a key of either map. *)
Theorem ordersByCust_counts (orders : list Enriched.t) (c : string) :
  ordersByCust orders !! c
    = (if decide (c ∈ Enriched.customer_id <$> orders)
       then Some (Js.of_nat (length (filter (λ o, Enriched.customer_id o = c) orders)))
       else None)
  ∧ revByCust orders !! c
    = (if decide (c ∈ Enriched.customer_id <$> orders)
       then Some (Js.sum (Enriched.revenue <$> filter (λ o, Enriched.customer_id o = c) orders))
       else None).
Proof.
  split; [apply ordersByCust_lookup|]. rewrite revByCust_groupSum. apply groupSum_lookup.
Qed.

(** X8.  The array [buyers] lists every customer with an order exactly
    once, so its length is the number of distinct buyers, the same number
    that [computeChurn] reports as its base. *)
Theorem buyers_distinct (orders : list Enriched.t) (windowDays : N) :
  NoDup (buyersOf orders)
  ∧ (∀ c, c ∈ buyersOf orders ↔ ∃ o, o ∈ orders ∧ Enriched.customer_id o = c)
  ∧ length (buyersOf orders)
    = size (list_to_set (Enriched.customer_id <$> orders) : gset string)
  ∧ buyers (computeChurn orders windowDays) = length (buyersOf orders).
Proof.
  pose proof (buyersOf_NoDup orders) as Hnd.
  assert (length (buyersOf orders)
          = size (list_to_set (Enriched.customer_id <$> orders) : gset string)) as Hlen.
  { rewrite <-buyersSet_customers. by rewrite size_list_to_set. }
  split; [done|]. split; [|split; [done|]].
  - intros c. rewrite elem_of_buyersOf, list_elem_of_fmap. naive_solver.
  - destruct (computeChurn_fields orders windowDays) as (_ & _ & -> & _). by rewrite Hlen.
Qed.

(** X9.  A repeat buyer is a customer with at least two orders, and the
    repeat rate, the share of repeat buyers among the buyers, lies
    between 0 and 1 (it is 0 without orders). *)
Theorem repeatRateBuyers_range (orders : list Enriched.t) :
  (∀ c, c ∈ repeatBuyers orders
        ↔ (2 ≤ length (filter (λ o, Enriched.customer_id o = c) orders))%nat)
  ∧ 0 ≤ repeatRateBuyers orders
  ∧ repeatRateBuyers orders ≤ 1
  ∧ repeatRateBuyers [] = 0.
Proof.
  split; [apply elem_of_repeatBuyers|]. split; [|split].
  - apply filter_ratio_range.
  - apply filter_ratio_range.
  - by vm_compute.
Qed.

Lemma revByCust_nonneg (orders : list Enriched.t) (c : string) :
  (∀ o, o ∈ orders → 0 ≤ Enriched.revenue o) →
  0 ≤ Js.get_or (revByCust orders !! c) 0.
Proof.
  intros Hrev. rewrite get_or_zero, revByCust_groupSum, groupSum_lookup.
  case_decide; [|apply Qcle_refl]. simpl. apply sum_nonneg.
  intros x (o & -> & Ho)%list_elem_of_fmap. apply Hrev.
  by apply list_elem_of_filter in Ho as [_ Ho].
Qed.

Lemma totalRev_nonneg (orders : list Enriched.t) :
  (∀ o, o ∈ orders → 0 ≤ Enriched.revenue o) → 0 ≤ totalRev orders.
Proof.
  intros Hrev. rewrite totalRev_sum. apply sum_nonneg.
  intros x (o & -> & Ho)%list_elem_of_fmap. by apply Hrev.
Qed.

(** A part of a non-negative total, over [total || 1]. *)
Lemma share_range (part total : Qc) :
  0 ≤ part → part ≤ total → 0 ≤ part / Js.num_or total 1 ∧ part / Js.num_or total 1 ≤ 1.
Proof.
  intros Hpart Hle. unfold Js.num_or. case_decide as Hz.
  - apply Qc_div_range; [done| |done]. rewrite Hz in Hle. by etrans.
  - apply Qc_div_range; [done|done|].
    destruct (Qcle_lt_or_eq 0 total); [by etrans|done|congruence].
Qed.

(** ** The Pareto curve *)

Lemma buyerRevs_perm (orders : list Enriched.t) :
  buyerRevs orders ≡ₚ (λ c, Js.get_or (revByCust orders !! c) 0) <$> buyersOf orders.
Proof. apply sort_perm. Qed.

Lemma buyerRevs_sorted (orders : list Enriched.t) :
  StronglySorted (λ a b, b ≤ a) (buyerRevs orders).
Proof.
  apply sort_sorted.
  - intros a b. rewrite bool_decide_eq_true. apply Qc_sub_le.
  - intros a b c ??. by etrans.
  - intros a b. destruct (total Qcle a b); auto.
Qed.

Lemma buyerRevs_length (orders : list Enriched.t) :
  length (buyerRevs orders) = length (buyersOf orders).
Proof. unfold buyerRevs. by rewrite sort_length, length_fmap. Qed.

Lemma buyersOf_nonempty (o : Enriched.t) (orders : list Enriched.t) :
  (1 ≤ length (buyersOf (o :: orders)))%nat.
Proof.
  assert (Enriched.customer_id o ∈ buyersOf (o :: orders)) as Hin.
  { rewrite elem_of_buyersOf, fmap_cons. left. }
  destruct (buyersOf (o :: orders)); [by apply elem_of_nil in Hin|simpl; lia].
Qed.

Lemma last_imap {A B} (f : nat → A → B) (l : list A) :
  last (imap f l) = f (pred (length l)) <$> last l.
Proof. by rewrite !last_lookup, length_imap, list_lookup_imap. Qed.

(** X11.  The revenues of the curve are those of the buyers, one per
    buyer, from the largest to the smallest, and the curve has one point
    per buyer. *)
Theorem cumShares_curve (orders : list Enriched.t) :
  buyerRevs orders ≡ₚ (λ c, Js.get_or (revByCust orders !! c) 0) <$> buyersOf orders
  ∧ StronglySorted (λ a b, b ≤ a) (buyerRevs orders)
  ∧ length (buyerRevs orders) = length (buyersOf orders)
  ∧ length (cumShares orders) = length (buyersOf orders).
Proof.
  split; [apply buyerRevs_perm|]. split; [apply buyerRevs_sorted|].
  split; [apply buyerRevs_length|].
  unfold cumShares. by rewrite length_imap, buyerRevs_length.
Qed.

Lemma buyerRevs_nonneg (orders : list Enriched.t) (x : Qc) :
  (∀ o, o ∈ orders → 0 ≤ Enriched.revenue o) → x ∈ buyerRevs orders → 0 ≤ x.
Proof.
  intros Hrev. rewrite buyerRevs_perm. intros (c & -> & _)%list_elem_of_fmap.
  by apply revByCust_nonneg.
Qed.

Lemma sum_take_le (l : list Qc) (i j : nat) :
  (∀ x, x ∈ l → 0 ≤ x) → (i ≤ j)%nat →
  0 ≤ Js.sum (take i l) ∧ Js.sum (take i l) ≤ Js.sum (take j l) ∧ Js.sum (take j l) ≤ Js.sum l.
Proof.
  intros Hl Hij.
  assert (∀ n x, x ∈ take n l → 0 ≤ x) as Htake.
  { intros n x Hx. apply Hl. by eapply subseteq_take. }
  assert (∀ n x, x ∈ drop n l → 0 ≤ x) as Hdrop.
  { intros n x Hx. apply Hl. by eapply subseteq_drop. }
  split; [apply sum_nonneg, Htake|]. split.
  - replace i with (i `min` j)%nat by lia. rewrite <-take_take.
    rewrite <-(take_drop i (take j l)) at 2. rewrite sum_app, take_take.
    rewrite <-(Qcplus_0_r (Js.sum (take (i `min` j) l))) at 1.
    apply Qcplus_le_compat; [apply Qcle_refl|].
    apply sum_nonneg. intros x Hx. apply (Htake j). by eapply subseteq_drop.
  - rewrite <-(take_drop j l) at 2. rewrite sum_app.
    rewrite <-(Qcplus_0_r (Js.sum (take j l))) at 1.
    apply Qcplus_le_compat; [apply Qcle_refl|]. apply sum_nonneg, Hdrop.
Qed.

Lemma Qc_div_le_mono (x y d : Qc) : 0 < d → x ≤ y → x / d ≤ y / d.
Proof.
  intros Hd Hxy. unfold Qcdiv. apply Qcmult_le_compat_r; [done|].
  by apply Qclt_le_weak, Qcinv_pos.
Qed.

Lemma num_or_one_pos (x : Qc) : 0 ≤ x → 0 < Js.num_or x 1.
Proof.
  intros Hx. unfold Js.num_or. case_decide as Hz; [done|].
  destruct (Qcle_lt_or_eq 0 x); [done|done|congruence].
Qed.

(** X12.  When no order has a negative revenue, the cumulative shares
    are not negative and never decrease along the curve. *)
Theorem cumShares_monotone (orders : list Enriched.t) (i j : nat) (x y : Qc) :
  (∀ o, o ∈ orders → 0 ≤ Enriched.revenue o) →
  (i ≤ j)%nat →
  cumShares orders !! i = Some x →
  cumShares orders !! j = Some y →
  0 ≤ x ∧ x ≤ y.
Proof.
  intros Hrev Hij. unfold cumShares. rewrite !list_lookup_imap, !fmap_Some.
  intros (_ & _ & ->) (_ & _ & ->).
  destruct (sum_take_le (buyerRevs orders) (S i) (S j)) as (H0 & Hle & _);
    [intros r Hr; by apply (buyerRevs_nonneg orders)|lia|].
  pose proof (num_or_one_pos _ (totalRev_nonneg orders Hrev)) as Hpos.
  split.
  - unfold Qcdiv. apply Qcmult_nonneg_nonneg; [done|]. by apply Qclt_le_weak, Qcinv_pos.
  - by apply Qc_div_le_mono.
Qed.

Lemma cumShares_monotone_witness :
  0 ≤ default 0 (cumShares Ex.enriched !! 0%nat)
  ∧ default 0 (cumShares Ex.enriched !! 0%nat) ≤ default 0 (cumShares Ex.enriched !! 1%nat).
Proof.
  apply (cumShares_monotone Ex.enriched 0 1).
  - intros o Ho.
    repeat (apply elem_of_cons in Ho as [->|Ho]; [by vm_compute|]).
    by apply elem_of_nil in Ho.
  - lia.
  - by vm_compute.
  - by vm_compute.
Defined.

(** *** Rounding *)

Lemma floor_mono (x y : Qc) : x ≤ y → (Js.floor x ≤ Js.floor y)%Z.
Proof. intros Hxy. by apply Qfloor_resp_le. Qed.

Lemma round_mono (x y : Qc) : x ≤ y → (JsNum.round x ≤ JsNum.round y)%Z.
Proof. intros Hxy. apply floor_mono. by apply Qcplus_le_mono_r. Qed.

Lemma of_nat_ratio_range (i n : nat) :
  (i ≤ n)%nat → (0 < n)%nat →
  0 ≤ Js.of_nat i / Js.of_nat n * Qc_of_Z 100
  ∧ Js.of_nat i / Js.of_nat n * Qc_of_Z 100 ≤ Qc_of_Z 100.
Proof.
  intros Hi Hn.
  destruct (Qc_div_range (Js.of_nat i) (Js.of_nat n)) as [H0 H1].
  { rewrite <-of_nat_0. apply of_nat_le. lia. }
  { by apply of_nat_le. }
  { by apply of_nat_pos. }
  assert (0 ≤ Qc_of_Z 100) as H100 by by vm_compute.
  split.
  - by apply Qcmult_nonneg_nonneg.
  - rewrite <-(Qcmult_1_l (Qc_of_Z 100)) at 2. by apply Qcmult_le_compat_r.
Qed.

(** X13.  The axis of the curve has one label per buyer; every label is a
    whole percentage between 0 and 100, and the last label is 100. *)
Theorem pctLabels_percent (orders : list Enriched.t) :
  length (pctLabels orders) = length (buyersOf orders)
  ∧ (∀ i p, pctLabels orders !! i = Some p → (0 ≤ p ≤ 100)%Z)
  ∧ last (pctLabels orders) = match orders with [] => None | _ :: _ => Some 100%Z end.
Proof.
  unfold pctLabels. split; [by rewrite length_imap, buyerRevs_length|]. split.
  - intros i p. rewrite list_lookup_imap, fmap_Some. intros (r & Hr & ->).
    apply lookup_lt_Some in Hr.
    destruct (of_nat_ratio_range (S i) (length (buyerRevs orders))) as [H0 H100]; [lia..|].
    split.
    + change 0%Z with (JsNum.round 0). by apply round_mono.
    + change 100%Z with (JsNum.round (Qc_of_Z 100)). by apply round_mono.
  - rewrite last_imap. destruct orders as [|o orders]; [reflexivity|].
    pose proof (buyersOf_nonempty o orders) as Hlen. rewrite <-buyerRevs_length in Hlen.
    destruct (last (buyerRevs (o :: orders))) as [x|] eqn:Hlast.
    + cbn [fmap option_fmap option_map]. f_equal.
      replace (S (pred (length (buyerRevs (o :: orders)))))
        with (length (buyerRevs (o :: orders))) by lia.
      unfold Qcdiv. rewrite Qcmult_inv_r by (apply of_nat_nonzero; lia).
      by rewrite Qcmult_1_l.
    + apply last_None in Hlast. rewrite Hlast in Hlen. simpl in Hlen. lia.
Qed.

Lemma pctLabels_percent_witness :
  length (pctLabels Ex.enriched) = length (buyersOf Ex.enriched)
  ∧ (0 ≤ 50 ≤ 100)%Z
  ∧ last (pctLabels Ex.enriched) = Some 100%Z.
Proof.
  destruct (pctLabels_percent Ex.enriched) as (Hlen & Hrange & Hlast).
  split; [exact Hlen|]. split; [|exact Hlast].
  apply (Hrange 0%nat 50%Z). by vm_compute.
Defined.

(** ** The promotional window *)

Lemma sum_pos (l : list Qc) : l ≠ [] → (∀ x, x ∈ l → 0 < x) → 0 < Js.sum l.
Proof.
  intros Hne Hl. destruct l as [|x l]; [done|]. rewrite sum_cons.
  apply Qcplus_pos_nonneg; [apply Hl; left|].
  apply sum_nonneg. intros y Hy. apply Qclt_le_weak, Hl. by right.
Qed.

Lemma of_nat_eq_0 (n : nat) : Js.of_nat n = 0 ↔ n = O.
Proof.
  split; [|intros ->; apply of_nat_0].
  intros Hn. destruct n; [done|]. by apply of_nat_nonzero in Hn.
Qed.

Lemma Qc_div_eq_0 (a b : Qc) : b ≠ 0 → a / b = 0 ↔ a = 0.
Proof.
  intros Hb. split.
  - intros Hdiv. rewrite <-(Qcmult_div_r a b Hb), Hdiv. ring.
  - intros ->. unfold Qcdiv. ring.
Qed.

(** The share of discounted orders of an array is zero exactly when the
    array has no discounted order, which is when its average discount
    depth is zero. *)
Lemma discRate_zero (os : list Enriched.t) :
  (Js.of_nat (length (filter discounted os)) / Js.of_nat (Js.len_or1 (length os)) = 0
   ↔ filter discounted os = [])
  ∧ (avgDiscOnly os = 0 ↔ filter discounted os = []).
Proof.
  split.
  - rewrite Qc_div_eq_0 by (apply of_nat_nonzero; pose proof (len_or1_pos (length os)); lia).
    rewrite of_nat_eq_0. apply length_zero_iff_nil.
  - unfold avgDiscOnly. rewrite num_or_zero. split.
    + intros Hmean. destruct (filter discounted os) as [|o l] eqn:Hf; [done|]. exfalso.
      rewrite mean_nonempty in Hmean by done.
      apply Qc_div_eq_0 in Hmean; [|apply of_nat_nonzero; simpl; lia].
      assert (0 < Js.sum ((λ o, Js.get_or (Enriched.discount o) 0) <$> o :: l)) as Hpos.
      { apply sum_pos; [done|]. intros x (o' & -> & Ho')%list_elem_of_fmap.
        rewrite <-Hf in Ho'. apply list_elem_of_filter in Ho' as [Hd _].
        unfold discounted in Hd. by apply bool_decide_unpack in Hd. }
      rewrite Hmean in Hpos. revert Hpos. by vm_compute.
    + intros ->. apply mean_nil.
Qed.

Lemma filter_none {X} (P : X → Prop) `{∀ x, Decision (P x)} (l : list X) :
  filter P l = [] ↔ ∀ x, x ∈ l → ¬ P x.
Proof.
  split.
  - intros Hnil x Hx HP. by apply (filter_nil_not_elem_of P l x).
  - intros Hall. induction l as [|x l IH]; [done|].
    rewrite filter_cons, decide_False by (apply Hall; left).
    apply IH. intros y Hy. apply Hall. by right.
Qed.

Lemma none_discounted (os : list Enriched.t) :
  filter discounted os = [] ↔ ∀ o, o ∈ os → discountOf o = None.
Proof.
  rewrite filter_none. split.
  - intros Hall o Ho. specialize (Hall o Ho). rewrite discountOf_discounted.
    by rewrite decide_False.
  - intros Hall o Ho Hd. specialize (Hall o Ho). rewrite discountOf_discounted in Hall.
    by rewrite decide_True in Hall.
Qed.

Section Promo.
Context `{DateBuiltins}.

Lemma nonbfOrders_complement (orders : list Enriched.t) :
  nonbfOrders orders = filter (λ o, ¬ inBf orders o) orders.
Proof. apply list_filter_iff. intros o. apply negb_True. Qed.

Lemma bf_partition (orders : list Enriched.t) :
  bfOrders orders ++ nonbfOrders orders ≡ₚ orders.
Proof. rewrite nonbfOrders_complement. apply filter_app_complement. Qed.

Lemma bf_revenue_split (orders : list Enriched.t) :
  totalRev (bfOrders orders) + totalRev (nonbfOrders orders) = totalRev orders.
Proof.
  rewrite !totalRev_sum, <-sum_app, <-fmap_app. apply sum_perm.
  by rewrite bf_partition.
Qed.

(** X14.  Every order is either in the promotional window or outside it:
    the two arrays [bfOrders] and [nonbfOrders] together hold the orders,
    each once.  An order is in the window when its time stamp lies
    between the two ends, both included. *)
Theorem bfOrders_partition (orders : list Enriched.t) :
  bfOrders orders ++ nonbfOrders orders ≡ₚ orders
  ∧ (length (bfOrders orders) + length (nonbfOrders orders))%nat = length orders
  ∧ (∀ o, o ∈ bfOrders orders
          ↔ o ∈ orders ∧ (bfStart orders ≤ Enriched.order_dt o ≤ bfEnd orders)%Z)
  ∧ (∀ o, o ∈ nonbfOrders orders
          ↔ o ∈ orders ∧ ¬ (bfStart orders ≤ Enriched.order_dt o ≤ bfEnd orders)%Z).
Proof.
  assert (∀ o, inBf orders o ↔ (bfStart orders ≤ Enriched.order_dt o ≤ bfEnd orders)%Z)
    as Hin.
  { intros o. unfold inBf. by rewrite andb_True, !bool_decide_spec. }
  split; [apply bf_partition|]. split; [|split].
  - by rewrite <-length_app, bf_partition.
  - intros o. unfold bfOrders. by rewrite list_elem_of_filter, Hin, (comm and).
  - intros o. rewrite nonbfOrders_complement. by rewrite list_elem_of_filter, Hin, (comm and).
Qed.

(** X15.  The discount rates inside and outside the window lie between 0
    and 1.  Each of them is zero exactly when none of the orders it is
    about has a discount greater than zero, and that is exactly when the
    average discount depth of the same orders is zero. *)
Theorem bfDiscRate_range (orders : list Enriched.t) :
  (0 ≤ bfDiscRate orders ∧ bfDiscRate orders ≤ 1)
  ∧ (0 ≤ nonbfDiscRate orders ∧ nonbfDiscRate orders ≤ 1)
  ∧ (bfDiscRate orders = 0 ↔ ∀ o, o ∈ bfOrders orders → discountOf o = None)
  ∧ (nonbfDiscRate orders = 0 ↔ ∀ o, o ∈ nonbfOrders orders → discountOf o = None)
  ∧ (bfDiscRate orders = 0 ↔ bfAvgDiscOnly orders = 0)
  ∧ (nonbfDiscRate orders = 0 ↔ nonbfAvgDiscOnly orders = 0).
Proof.
  unfold bfDiscRate, nonbfDiscRate, bfAvgDiscOnly, nonbfAvgDiscOnly.
  split; [apply filter_ratio_range|]. split; [apply filter_ratio_range|].
  destruct (discRate_zero (bfOrders orders)) as [Hbf Hbf'].
  destruct (discRate_zero (nonbfOrders orders)) as [Hnon Hnon'].
  split; [by rewrite Hbf, none_discounted|]. split; [by rewrite Hnon, none_discounted|].
  split; [by rewrite Hbf, Hbf'|by rewrite Hnon, Hnon'].
Qed.

(** X16.  When no order has a negative revenue, the share of the revenue
    made in the promotional window lies between 0 and 1. *)
Theorem bfRevShare_range (orders : list Enriched.t) :
  (∀ o, o ∈ orders → 0 ≤ Enriched.revenue o) →
  0 ≤ bfRevShare orders ∧ bfRevShare orders ≤ 1.
Proof.
  intros Hrev. unfold bfRevShare. fold (totalRev (bfOrders orders)).
  assert (∀ o, o ∈ bfOrders orders → 0 ≤ Enriched.revenue o) as Hbf.
  { intros o Ho. apply Hrev. unfold bfOrders in Ho. by apply list_elem_of_filter in Ho as [_ ?]. }
  assert (∀ o, o ∈ nonbfOrders orders → 0 ≤ Enriched.revenue o) as Hnon.
  { intros o Ho. apply Hrev. unfold nonbfOrders in Ho.
    by apply list_elem_of_filter in Ho as [_ ?]. }
  apply share_range; [by apply totalRev_nonneg|].
  rewrite <-(bf_revenue_split orders).
  rewrite <-(Qcplus_0_r (totalRev (bfOrders orders))) at 1.
  apply Qcplus_le_compat; [apply Qcle_refl|by apply totalRev_nonneg].
Qed.

End Promo.

Lemma bfRevShare_range_witness :
  0 ≤ bfRevShare (H := Utc.host) Ex.enriched ∧ bfRevShare (H := Utc.host) Ex.enriched ≤ 1.
Proof.
  apply (bfRevShare_range (H := Utc.host) Ex.enriched).
  intros o Ho.
  repeat (apply elem_of_cons in Ho as [->|Ho]; [by vm_compute|]).
  by apply elem_of_nil in Ho.
Defined.

(** ** Revenue by month and by category *)

Lemma groupSum_get_or `{Countable K} {X} (keyFn : X → K) (valFn : X → Qc) (arr : list X)
    (k : K) :
  Js.get_or (groupSum arr keyFn valFn !! k) 0
  = Js.sum (valFn <$> filter (λ x, keyFn x = k) arr).
Proof.
  rewrite get_or_zero, groupSum_lookup. case_decide as Hk; [done|].
  by rewrite filter_key_absent.
Qed.

Section Calendar.
Context `{DateBuiltins}.

(** X17.  The monthly chart has twelve bars; the bar of rank [i] holds
    the revenue of the orders of the month number [i + 1], added in the
    order of the array, and 0 when the month has no order. *)
Theorem monthBars_total (orders : list Enriched.t) :
  length (monthBars orders) = 12%nat
  ∧ ∀ i, (i < 12)%nat →
         monthBars orders !! i
         = Some (Js.sum (Enriched.revenue <$>
                   filter (λ o, (getMonth (Enriched.order_dt o) + 1)%Z = (Z.of_nat i + 1)%Z)
                     orders)).
Proof.
  split; [reflexivity|].
  intros i Hi. unfold monthBars. rewrite list_lookup_fmap, lookup_seq_lt by done.
  cbn [fmap option_fmap option_map]. f_equal. unfold monthRev.
  by rewrite groupSum_get_or.
Qed.

(** X18.  When no order has a negative revenue, the revenue of a
    category in November and December is at most its revenue over the
    whole year, and so is its revenue in the summer months; a category
    without order in a season has revenue 0 there. *)
Theorem catSeasons_within_overall (orders : list Enriched.t) (cat : string) :
  (∀ o, o ∈ orders → 0 ≤ Enriched.revenue o) →
  Js.get_or (catNovDec orders !! cat) 0 ≤ Js.get_or (catOverall orders !! cat) 0
  ∧ Js.get_or (catSummer orders !! cat) 0 ≤ Js.get_or (catOverall orders !! cat) 0
  ∧ ((∀ o, o ∈ orders → Enriched.category o = cat →
           ¬ (getMonth (Enriched.order_dt o) + 1)%Z ∈ [11; 12]%Z) →
     Js.get_or (catNovDec orders !! cat) 0 = 0)
  ∧ ((∀ o, o ∈ orders → Enriched.category o = cat →
           ¬ (getMonth (Enriched.order_dt o) + 1)%Z ∈ [6; 7; 8]%Z) →
     Js.get_or (catSummer orders !! cat) 0 = 0).
Proof.
  intros Hrev. unfold catNovDec, catSummer, catOverall. rewrite !groupSum_get_or.
  rewrite !list_filter_filter.
  assert (∀ (P : Enriched.t → Prop) `{∀ o, Decision (P o)},
            Js.sum (Enriched.revenue <$>
                      filter (λ o, Enriched.category o = cat ∧ P o) orders)
            ≤ Js.sum (Enriched.revenue <$> filter (λ o, Enriched.category o = cat) orders))
    as Hsub.
  { intros P HP.
    rewrite (list_filter_iff (λ o, Enriched.category o = cat ∧ P o)
               (λ o, P o ∧ Enriched.category o = cat)) by (intros o; apply (comm and)).
    rewrite <-list_filter_filter. apply sum_filter_le.
    intros o Ho. apply Hrev. by apply list_elem_of_filter in Ho as [_ ?]. }
  split; [apply Hsub|]. split; [apply Hsub|]. split.
  - intros Hnone. rewrite (proj2 (filter_none _ orders)); [done|].
    intros o Ho [Hcat Hmonth]. by apply (Hnone o Ho Hcat).
  - intros Hnone. rewrite (proj2 (filter_none _ orders)); [done|].
    intros o Ho [Hcat Hmonth]. by apply (Hnone o Ho Hcat).
Qed.

End Calendar.

Lemma monthBars_total_witness :
  monthBars (H := Utc.host) Ex.enriched !! 1%nat = Some (Ex.q 30 1)
  ∧ monthBars (H := Utc.host) Ex.enriched !! 2%nat = Some 0.
Proof.
  destruct (monthBars_total (H := Utc.host) Ex.enriched) as [_ Hbar].
  split.
  - rewrite (Hbar 1%nat) by lia. by vm_compute.
  - rewrite (Hbar 2%nat) by lia. by vm_compute.
Defined.

Lemma catSeasons_within_overall_witness :
  Js.get_or (catNovDec (H := Utc.host) Ex.enriched !! "Books") 0
  ≤ Js.get_or (catOverall Ex.enriched !! "Books") 0
  ∧ Js.get_or (catSummer (H := Utc.host) Ex.enriched !! "Books") 0
    ≤ Js.get_or (catOverall Ex.enriched !! "Books") 0
  ∧ Js.get_or (catNovDec (H := Utc.host) Ex.enriched !! "Books") 0 = 0.
Proof.
  destruct (catSeasons_within_overall (H := Utc.host) Ex.enriched "Books")
    as (Hwinter & Hsummer & Hzero & _).
  - intros o Ho.
    repeat (apply elem_of_cons in Ho as [->|Ho]; [by vm_compute|]).
    by apply elem_of_nil in Ho.
  - split; [exact Hwinter|]. split; [exact Hsummer|]. apply Hzero.
    intros o Ho _.
    repeat (apply elem_of_cons in Ho as [->|Ho];
            [by apply (bool_decide_unpack _); vm_compute|]).
    by apply elem_of_nil in Ho.
Defined.

(** ** Churn *)

Lemma fold_max_perm (ts ts' : list Z) (a : Z) :
  ts ≡ₚ ts' → fold_left Z.max ts a = fold_left Z.max ts' a.
Proof.
  intros Hp. revert a. induction Hp as [|x l l' _ IH|x y l|l l' l'' _ IH1 _ IH2]; intros a.
  - done.
  - cbn [fold_left]. apply IH.
  - cbn [fold_left]. f_equal. lia.
  - by rewrite IH1.
Qed.

Lemma endDate_perm (l l' : list Enriched.t) : l ≡ₚ l' → endDate l = endDate l'.
Proof. intros Hp. rewrite !endDate_fold. apply fold_max_perm. by rewrite Hp. Qed.

Lemma lastOrder_acc_pos (orders : list Enriched.t) (m : gmap string Z) :
  (∀ c t, m !! c = Some t → (0 < t)%Z) →
  ∀ c t,
    fold_left
      (λ m o,
         let dt := Enriched.order_dt o in
         let prev := default 0%Z (m !! Enriched.customer_id o) in
         if decide (dt > prev)%Z then <[Enriched.customer_id o := dt]> m else m)
      orders m !! c = Some t →
    (0 < t)%Z.
Proof.
  revert m. induction orders as [|o orders IH]; intros m Hm; [done|].
  cbn [fold_left]. apply IH. cbn zeta. case_decide as Hgt; [|done].
  intros c t. destruct (decide (c = Enriched.customer_id o)) as [->|Hne].
  - rewrite lookup_insert_eq. intros [= <-].
    destruct (m !! Enriched.customer_id o) as [prev|] eqn:Hprev; simpl in Hgt; [|lia].
    specialize (Hm _ _ Hprev). lia.
  - rewrite lookup_insert_ne by done. apply Hm.
Qed.

Lemma lastOrder_pos (orders : list Enriched.t) (c : string) (t : Z) :
  lastOrder orders !! c = Some t → (0 < t)%Z.
Proof. apply lastOrder_acc_pos. intros c' t'. by rewrite lookup_empty. Qed.

Lemma lastOrder_perm (l l' : list Enriched.t) : l ≡ₚ l' → lastOrder l = lastOrder l'.
Proof.
  intros Hp. apply map_eq. intros c.
  assert (default 0%Z (lastOrder l !! c) = default 0%Z (lastOrder l' !! c)) as Hdef.
  { rewrite !lastOrder_fold. apply fold_max_perm. by apply orderTimesOf_perm. }
  destruct (lastOrder l !! c) as [t|] eqn:Ht; destruct (lastOrder l' !! c) as [t'|] eqn:Ht';
    simpl in Hdef.
  - by subst.
  - apply lastOrder_pos in Ht. lia.
  - apply lastOrder_pos in Ht'. lia.
  - done.
Qed.

Lemma computeChurn_perm (l l' : list Enriched.t) (windowDays : N) :
  l ≡ₚ l' → computeChurn l windowDays = computeChurn l' windowDays.
Proof.
  intros Hp. unfold computeChurn.
  rewrite (endDate_perm l l' Hp), (lastOrder_perm l l' Hp), !buyersSet_customers.
  assert ((list_to_set (Enriched.customer_id <$> l) : gset string)
          = list_to_set (Enriched.customer_id <$> l')) as ->; [|done].
  apply set_eq. intros c. rewrite !elem_of_list_to_set. by rewrite Hp.
Qed.

(** X19.  Sorting the orders by time stamp, which [main] does in place
    before the churn window can be changed, changes neither the end date
    nor the last order of any buyer, so [computeChurn] gives the same
    result on the sorted array as on the loaded one, for every window. *)
Theorem computeChurn_sorted (orders : list Enriched.t) (windowDays : N) :
  endDate (sortOrders orders) = endDate orders
  ∧ lastOrder (sortOrders orders) = lastOrder orders
  ∧ buyers (computeChurn (sortOrders orders) windowDays)
    = buyers (computeChurn orders windowDays)
  ∧ computeChurn (sortOrders orders) windowDays = computeChurn orders windowDays.
Proof.
  pose proof (sortOrders_perm orders) as Hp.
  rewrite (computeChurn_perm _ _ windowDays Hp).
  split; [by apply endDate_perm|]. split; [by apply lastOrder_perm|]. done.
Qed.

Lemma set_filter_subseteq (P : string → Prop) `{∀ c, Decision (P c)} (X : gset string) :
  filter P X ⊆ X.
Proof. intros c Hc. by apply elem_of_filter in Hc as [_ ?]. Qed.

Lemma of_nat_lt (n m : nat) : (n < m)%nat → Js.of_nat n < Js.of_nat m.
Proof. intros Hnm. unfold Js.of_nat. apply (proj1 (Z2Qc_inj_lt _ _)). lia. Qed.

(** Some buyer has an order at the end date or later than the epoch did
    not pass: a buyer who is not churned for any window. *)
Lemma active_buyer (orders : list Enriched.t) (cut : Z) :
  orders ≠ [] → (cut ≤ endDate orders)%Z →
  ∃ c, c ∈ Enriched.customer_id <$> orders ∧ ¬ isChurned (lastOrder orders) cut c.
Proof.
  intros Hne Hcut. rewrite endDate_fold in Hcut.
  destruct (fold_max_spec (Enriched.order_dt <$> orders) 0) as (Hge & _ & [Hz|Hin]).
  - destruct orders as [|o orders]; [done|]. exists (Enriched.customer_id o).
    split; [rewrite fmap_cons; left|]. rewrite isChurned_spec.
    destruct (fold_max_spec (orderTimesOf (o :: orders) (Enriched.customer_id o)) 0)
      as (Hge' & _). lia.
  - apply list_elem_of_fmap in Hin as (o & Hdt & Ho). exists (Enriched.customer_id o).
    split; [apply list_elem_of_fmap; by exists o|]. rewrite isChurned_spec.
    destruct (fold_max_spec (orderTimesOf orders (Enriched.customer_id o)) 0)
      as (_ & Hall & _).
    assert (Enriched.order_dt o ∈ orderTimesOf orders (Enriched.customer_id o)) as Hin.
    { apply elem_of_orderTimesOf. by exists o. }
    specialize (Hall _ Hin). lia.
Qed.

(** X20.  For every set of orders and every window, the number of churned
    buyers is at most the number of buyers, and the churn rate is at least
    0 and strictly below 1: the buyer of the latest order is never
    churned.  Without orders the rate is 0. *)
Theorem computeChurn_rate_range (orders : list Enriched.t) (windowDays : N) :
  let r := computeChurn orders windowDays in
  (churned r ≤ buyers r)%nat
  ∧ 0 ≤ rate r
  ∧ rate r < 1
  ∧ rate (computeChurn [] windowDays) = 0.
Proof.
  intros r. destruct (computeChurn_fields orders windowDays) as (Hcut & Hch & Hb & Hrate).
  fold r in Hcut, Hch, Hb, Hrate. clearbody r.
  assert (churned r ≤ buyers r)%nat as Hle.
  { rewrite Hch, Hb. apply subseteq_size, set_filter_subseteq. }
  assert (churned r < Js.len_or1 (buyers r))%nat as Hlt.
  { destruct orders as [|o orders].
    - rewrite Hb in *. change (size (list_to_set (Enriched.customer_id <$> []) : gset string))
        with O in *. simpl. lia.
    - destruct (active_buyer (o :: orders) (cutoff r)) as (c & Hc & Hnot);
        [done|rewrite Hcut; lia|].
      apply Nat.lt_le_trans with (buyers r); [|destruct (buyers r); simpl; lia].
      rewrite Hch, Hb. apply subset_size. split; [apply set_filter_subseteq|].
      intros Hsub. apply Hnot.
      assert (c ∈ filter (λ c, isChurned (lastOrder (o :: orders)) (cutoff r) c)
                    (list_to_set (Enriched.customer_id <$> o :: orders) : gset string))
        as Hin by (apply Hsub; by apply elem_of_list_to_set).
      by apply elem_of_filter in Hin as [? _]. }
  split; [done|]. rewrite Hrate. split; [|split].
  - apply Qc_div_range.
    + rewrite <-of_nat_0. apply of_nat_le. lia.
    + apply of_nat_le. lia.
    + apply of_nat_pos, len_or1_pos.
  - apply Qc_div_lt_1; [by apply of_nat_lt|apply of_nat_pos, len_or1_pos].
  - by vm_compute.
Qed.

(** ** The month axis and the cohorts *)

Lemma addToGroup_keys (key x : string) (m : gmap string (gset string)) (key' : string) :
  is_Some (addToGroup key x m !! key') ↔ key = key' ∨ is_Some (m !! key').
Proof.
  unfold addToGroup. destruct (m !! key) as [s|] eqn:Hkey.
  - rewrite Hkey. destruct (decide (key = key')) as [<-|Hne].
    + rewrite lookup_insert_eq. split; [by left|by eexists].
    + rewrite lookup_insert_ne by done. split; [by right|]. by intros [?|?].
  - rewrite lookup_insert_eq. destruct (decide (key = key')) as [<-|Hne].
    + rewrite lookup_insert_eq. split; [by left|by eexists].
    + rewrite !lookup_insert_ne by done. split; [by right|]. by intros [?|?].
Qed.

Lemma group_fold_keys {X} (keyOf idOf : X → string) (l : list X)
    (m : gmap string (gset string)) (key : string) :
  is_Some (fold_left (λ m o, addToGroup (keyOf o) (idOf o) m) l m !! key)
  ↔ is_Some (m !! key) ∨ ∃ o, o ∈ l ∧ keyOf o = key.
Proof.
  revert m. induction l as [|o l IH]; intros m; cbn [fold_left].
  - split; [by left|]. intros [?|(o & Ho & _)]; [done|]. by apply elem_of_nil in Ho.
  - rewrite IH, addToGroup_keys. split.
    + intros [[Hk|Hm]|(o' & Ho' & Hk)].
      * right. exists o. split; [left|done].
      * by left.
      * right. exists o'. split; [by right|done].
    + intros [Hm|(o' & Ho' & Hk)]; [left; by right|].
      apply elem_of_cons in Ho' as [->|Ho']; [left; by left|].
      right. by exists o'.
Qed.

Section Axis.
Context `{DateBuiltins}.

Lemma buyersByMonth_keys (l : list Enriched.t) (key : string) :
  is_Some (buyersByMonth l !! key) ↔ ∃ o, o ∈ l ∧ ym (Enriched.order_dt o) = key.
Proof.
  unfold buyersByMonth.
  rewrite (group_fold_keys (λ o, ym (Enriched.order_dt o)) Enriched.customer_id).
  rewrite lookup_empty. split; [|by right]. intros [[? ?]|?]; done.
Qed.

Lemma cohortMembers_keys (first : gmap string Z) (key : string) :
  is_Some (cohortMembers first !! key) ↔ ∃ c t, first !! c = Some t ∧ ym t = key.
Proof.
  unfold cohortMembers. revert key.
  apply (map_fold_weak_ind
           (λ (r : gmap string (gset string)) (m : gmap string Z),
              ∀ key, is_Some (r !! key) ↔ ∃ c t, m !! c = Some t ∧ ym t = key)).
  - intros key. rewrite lookup_empty. split; [by intros [? ?]|].
    intros (c & t & Hc & _). by rewrite lookup_empty in Hc.
  - intros i x m r Hi IH key. rewrite addToGroup_keys, IH. split.
    + intros [Hk|(c & t & Hc & Hk)].
      * exists i, x. by rewrite lookup_insert_eq.
      * exists c, t. split; [|done]. rewrite lookup_insert_ne; [done|]. congruence.
    + intros (c & t & Hc & Hk). destruct (decide (c = i)) as [->|Hne].
      * rewrite lookup_insert_eq in Hc. left. congruence.
      * rewrite lookup_insert_ne in Hc by done. right. by exists c, t.
Qed.

Lemma elem_of_monthsOf (byMonth cohorts : gmap string (gset string)) (m : string) :
  m ∈ monthsOf byMonth cohorts ↔ is_Some (byMonth !! m) ∨ is_Some (cohorts !! m).
Proof.
  unfold monthsOf.
  rewrite (sort_perm String.leb), elem_of_elements, elem_of_list_to_set, elem_of_app.
  by rewrite !elem_of_keys.
Qed.

Lemma elem_of_months (orders : list Enriched.t) (m : string) :
  m ∈ months orders ↔ ∃ o, o ∈ orders ∧ ym (Enriched.order_dt o) = m.
Proof.
  unfold months. rewrite elem_of_monthsOf, buyersByMonth_keys, cohortMembers_keys. split.
  - intros [(o & Ho & Hk)|(c & t & Hc & Hk)].
    + exists o. by rewrite <-(sortOrders_perm orders).
    + rewrite firstOrder_sorted_min in Hc.
      destruct (firstOrderTimeSpec_buyer _ _ _ Hc) as (o & Ho & _ & Hdt).
      exists o. by rewrite Hdt.
  - intros (o & Ho & Hk). left. exists o. by rewrite (sortOrders_perm orders).
Qed.

(** X21.  The month axis lists the months in which there is an order,
    each once, in the order of the strings of their keys. *)
Theorem months_axis (orders : list Enriched.t) :
  NoDup (months orders)
  ∧ StronglySorted (λ s1 s2, String.leb s1 s2 = true) (months orders)
  ∧ ∀ m, m ∈ months orders ↔ ∃ o, o ∈ orders ∧ ym (Enriched.order_dt o) = m.
Proof.
  unfold months at 1 2.
  destruct (monthsOf_sorted (buyersByMonth (sortOrders orders))
              (cohortMembers (firstOrder (sortOrders orders)))) as [Hs Hnd].
  split; [done|]. split; [done|]. apply elem_of_months.
Qed.

Lemma firstOrderTimeSpec_is_Some (orders : list Enriched.t) (c : string) :
  c ∈ Enriched.customer_id <$> orders → is_Some (firstOrderTimeSpec orders c).
Proof.
  intros Hc. apply orderTimesOf_nonempty in Hc. unfold firstOrderTimeSpec.
  destruct (orderTimesOf orders c); [done|by eexists].
Qed.

(** X22.  The cohorts split the buyers: every customer with an order is
    a member of exactly one cohort, the one of the month of their
    earliest order, which is a month of the axis; and a cohort has no
    member without order. *)
Theorem cohortMembers_partition (orders : list Enriched.t) (c : string) :
  let cohorts := cohortMembers (firstOrder (sortOrders orders)) in
  (c ∈ Enriched.customer_id <$> orders ↔ ∃ key, c ∈ default ∅ (cohorts !! key))
  ∧ (∀ key key',
       c ∈ default ∅ (cohorts !! key) → c ∈ default ∅ (cohorts !! key') → key = key')
  ∧ (∀ key, c ∈ default ∅ (cohorts !! key) →
       key ∈ months orders
       ∧ ∃ t, minOf (orderTimesOf orders c) t ∧ ym t = key).
Proof.
  intros cohorts. subst cohorts. split; [|split].
  - split.
    + intros Hc. destruct (firstOrderTimeSpec_is_Some orders c Hc) as [t Ht].
      exists (ym t). rewrite cohortMembers_elem, firstOrder_sorted_min. by exists t.
    + intros (key & Hkey). rewrite cohortMembers_elem, firstOrder_sorted_min in Hkey.
      destruct Hkey as (t & Ht & _).
      destruct (firstOrderTimeSpec_buyer _ _ _ Ht) as (o & Ho & <- & _).
      apply list_elem_of_fmap. by exists o.
  - intros key key'. rewrite !cohortMembers_elem.
    intros (t & Ht & <-) (t' & Ht' & <-). congruence.
  - intros key. rewrite cohortMembers_elem, firstOrder_sorted_min.
    intros (t & Ht & <-). split.
    + apply elem_of_months.
      destruct (firstOrderTimeSpec_buyer _ _ _ Ht) as (o & Ho & _ & Hdt).
      exists o. by rewrite Hdt.
    + exists t. split; [|done]. by apply firstOrderTimeSpec_min.
Qed.

Lemma retentionCell_range (byMonth : gmap string (gset string)) (cohort : gset string)
    (i j : nat) (mj : string) (v : Qc) :
  retentionCell byMonth cohort i j mj = Some v → 0 ≤ v ∧ v ≤ 1.
Proof.
  unfold retentionCell. case_decide; [done|]. intros [= <-].
  destruct (size cohort) as [|n] eqn:Hsize; [by vm_compute|].
  apply Qc_div_range.
  - rewrite <-of_nat_0. apply of_nat_le. lia.
  - apply of_nat_le. rewrite <-Hsize. unfold size, set_size. simpl.
    apply length_filter.
  - apply of_nat_pos. lia.
Qed.

(** X23.  The retention matrix is square, one row and one column per
    month of the axis, and every cell that is not null holds a share
    between 0 and 1. *)
Theorem retention_shape (orders : list Enriched.t) (i : nat) (row : list (option Qc)) :
  retention orders !! i = Some row →
  length (retention orders) = length (months orders)
  ∧ length row = length (months orders)
  ∧ ∀ j v, row !! j = Some (Some v) → 0 ≤ v ∧ v ≤ 1.
Proof.
  intros Hrow. split; [apply retention_length|].
  unfold retention, retentionOf in Hrow.
  rewrite list_lookup_imap, fmap_Some in Hrow. destruct Hrow as (mi & Hmi & ->).
  split; [by rewrite length_imap|].
  intros j v. rewrite list_lookup_imap, fmap_Some. intros (mj & Hmj & Hcell).
  by eapply retentionCell_range.
Qed.

End Axis.

Lemma cohortMembers_partition_witness :
  "C1" ∈ default ∅ (cohortMembers (H := Utc.host)
                      (firstOrder (sortOrders Ex.enriched)) !! "2023-01")
  ∧ "2023-01" ∈ months (H := Utc.host) Ex.enriched.
Proof.
  destruct (cohortMembers_partition (H := Utc.host) Ex.enriched "C1") as (_ & _ & Hkey).
  assert ("C1" ∈ default ∅ (cohortMembers (H := Utc.host)
                              (firstOrder (sortOrders Ex.enriched)) !! "2023-01")) as Hin
    by (by apply (bool_decide_unpack _); vm_compute).
  split; [exact Hin|]. exact (proj1 (Hkey "2023-01" Hin)).
Defined.

Lemma retention_shape_witness :
  length (retention (H := Utc.host) Ex.enriched) = length (months (H := Utc.host) Ex.enriched)
  ∧ length (default [] (retention (H := Utc.host) Ex.enriched !! 0%nat))
    = length (months (H := Utc.host) Ex.enriched)
  ∧ ∀ j v, default [] (retention (H := Utc.host) Ex.enriched !! 0%nat) !! j = Some (Some v) →
           0 ≤ v ∧ v ≤ 1.
Proof.
  apply (retention_shape (H := Utc.host) Ex.enriched 0).
  by vm_compute.
Defined.

(** ** The colour scale of the heat map *)

Lemma floor_unique (x : Q) (n : Z) :
  (inject_Z n <= x)%Q → (x < inject_Z (n + 1))%Q → Qfloor x = n.
Proof.
  intros Hle Hlt. apply Z.le_antisymm.
  - apply Z.lt_succ_r. rewrite Zlt_Qlt. eapply Qle_lt_trans; [apply Qfloor_le|].
    by rewrite <-Z.add_1_r.
  - rewrite <-(Qfloor_Z n). by apply Qfloor_resp_le.
Qed.

Lemma round_of_Z (n : Z) : JsNum.round (Qc_of_Z n) = n.
Proof.
  unfold JsNum.round, Js.floor. apply floor_unique.
  - change (this (Qc_of_Z n + Q2Qc 0.5)) with (Qred (this (Qc_of_Z n) + this (Q2Qc 0.5))).
    rewrite Qred_correct. simpl. rewrite Qred_correct.
    rewrite <-(Qplus_0_r (inject_Z n)) at 1. apply Qplus_le_r. done.
  - change (this (Qc_of_Z n + Q2Qc 0.5)) with (Qred (this (Qc_of_Z n) + this (Q2Qc 0.5))).
    rewrite Qred_correct. simpl. rewrite Qred_correct.
    rewrite inject_Z_plus. apply Qplus_lt_r. done.
Qed.

Lemma clamp_range (p : Qc) :
  0 ≤ JsNum.min 1 (JsNum.max 0 p) ∧ JsNum.min 1 (JsNum.max 0 p) ≤ 1.
Proof.
  unfold JsNum.min, JsNum.max. repeat case_decide; split; try done.
  by apply Qclt_le_weak, Qcnot_le_lt.
Qed.

Lemma clamp_low (p : Qc) : p ≤ 0 → JsNum.min 1 (JsNum.max 0 p) = 0.
Proof.
  intros Hp. assert (JsNum.max 0 p = 0) as ->; [|by vm_compute].
  unfold JsNum.max. case_decide; [by apply Qcle_antisym|done].
Qed.

Lemma clamp_high (p : Qc) : 1 ≤ p → JsNum.min 1 (JsNum.max 0 p) = 1.
Proof.
  intros Hp. assert (JsNum.max 0 p = p) as ->.
  { unfold JsNum.max. rewrite decide_True; [done|]. by trans 1. }
  unfold JsNum.min. by rewrite decide_True.
Qed.

(** A component of the colour: between the two ends of its scale. *)
Lemma blend_range (s e : Z) (t : Qc) :
  (s ≤ e)%Z → 0 ≤ t → t ≤ 1 →
  (s ≤ JsNum.round (Qc_of_Z s + (Qc_of_Z e - Qc_of_Z s) * t) ≤ e)%Z.
Proof.
  intros Hse H0 H1.
  assert (0 ≤ Qc_of_Z e - Qc_of_Z s) as Hd.
  { rewrite <-Z2Qc_inj_sub, <-Z2Qc_inj_0. apply (proj1 (Z2Qc_inj_le _ _)). lia. }
  split.
  - rewrite <-(round_of_Z s) at 1. apply round_mono.
    rewrite <-(Qcplus_0_r (Qc_of_Z s)) at 1.
    apply Qcplus_le_compat; [apply Qcle_refl|by apply Qcmult_nonneg_nonneg].
  - rewrite <-(round_of_Z e) at 2. apply round_mono.
    replace (Qc_of_Z e) with (Qc_of_Z s + (Qc_of_Z e - Qc_of_Z s) * 1) at 2 by ring.
    apply Qcplus_le_compat; [apply Qcle_refl|].
    by apply Qcmult_le_mono_nonneg_l.
Qed.

Lemma colorRgb_components (p : Qc) :
  colorRgb p
  = let t := JsNum.min 1 (JsNum.max 0 p) in
    [JsNum.round (Qc_of_Z 31 + (Qc_of_Z 88 - Qc_of_Z 31) * t);
     JsNum.round (Qc_of_Z 37 + (Qc_of_Z 166 - Qc_of_Z 37) * t);
     JsNum.round (Qc_of_Z 48 + (Qc_of_Z 255 - Qc_of_Z 48) * t)].
Proof. reflexivity. Qed.

(** X24.  The colour of a cell is a point of the scale between the two
    end colours: each component lies between its value in the start
    colour and its value in the end colour.  A share of 0 or below gives
    the start colour and a share of 1 or above the end colour. *)
Theorem colorFor_scale (p : Qc) :
  (∃ r g b,
     colorRgb p = [r; g; b]
     ∧ (31 ≤ r ≤ 88)%Z ∧ (37 ≤ g ≤ 166)%Z ∧ (48 ≤ b ≤ 255)%Z
     ∧ colorFor p
       = "rgb(" +:+ pretty r +:+ ", " +:+ pretty g +:+ ", " +:+ pretty b +:+ ")")
  ∧ (p ≤ 0 → colorFor p = "rgb(31, 37, 48)")
  ∧ (1 ≤ p → colorFor p = "rgb(88, 166, 255)").
Proof.
  split; [|split].
  - destruct (clamp_range p) as [H0 H1]. eexists _, _, _.
    split; [apply colorRgb_components|]. cbn zeta.
    split; [by apply blend_range|]. split; [by apply blend_range|].
    split; [by apply blend_range|]. reflexivity.
  - intros Hp. unfold colorFor. rewrite colorRgb_components. cbn zeta.
    rewrite (clamp_low p Hp), !Qcmult_0_r, !Qcplus_0_r, !round_of_Z. reflexivity.
  - intros Hp. unfold colorFor. rewrite colorRgb_components. cbn zeta.
    rewrite (clamp_high p Hp), !Qcmult_1_r.
    replace (Qc_of_Z 31 + (Qc_of_Z 88 - Qc_of_Z 31)) with (Qc_of_Z 88) by ring.
    replace (Qc_of_Z 37 + (Qc_of_Z 166 - Qc_of_Z 37)) with (Qc_of_Z 166) by ring.
    replace (Qc_of_Z 48 + (Qc_of_Z 255 - Qc_of_Z 48)) with (Qc_of_Z 255) by ring.
    rewrite !round_of_Z. reflexivity.
Qed.

Lemma colorFor_scale_witness :
  colorFor (Ex.q (-1) 2) = "rgb(31, 37, 48)" ∧ colorFor (Ex.q 3 2) = "rgb(88, 166, 255)".
Proof.
  split.
  - apply (colorFor_scale (Ex.q (-1) 2)). by vm_compute.
  - apply (colorFor_scale (Ex.q 3 2)). by vm_compute.
Defined.

(** ** Revenue of the loaded rows *)

Section Revenue.
Context `{DateBuiltins}.

Lemma get_or_nonneg (v : option Qc) : (∀ x, v = Some x → 0 ≤ x) → 0 ≤ Js.get_or v 0.
Proof.
  intros Hv. rewrite get_or_zero. destruct v as [x|]; [by apply Hv|apply Qcle_refl].
Qed.

(** X25.  The revenue written into an order is its quantity times its
    unit price, a missing one counting as 0, so it is 0 when either is
    missing; and when no row has a negative quantity or price no order
    has a negative revenue and the total revenue is not negative. *)
Theorem enrichOrders_revenue (orders : list Order.t) (customers : list Customer.t)
    (products : list Product.t) :
  (∀ e, e ∈ enrichOrders orders customers products →
        Enriched.revenue e
        = default 0 (Order.quantity (Enriched.base e))
          * default 0 (Order.unit_price (Enriched.base e)))
  ∧ ((∀ o x, o ∈ orders → Order.quantity o = Some x → 0 ≤ x) →
     (∀ o x, o ∈ orders → Order.unit_price o = Some x → 0 ≤ x) →
     (∀ e, e ∈ enrichOrders orders customers products → 0 ≤ Enriched.revenue e)
     ∧ 0 ≤ totalRev (enrichOrders orders customers products)).
Proof.
  split.
  - intros e (o & -> & Ho)%list_elem_of_fmap. cbn [enrich Enriched.revenue Enriched.base].
    by rewrite !get_or_zero.
  - intros Hq Hp.
    assert (∀ e, e ∈ enrichOrders orders customers products → 0 ≤ Enriched.revenue e)
      as Hall.
    { intros e (o & -> & Ho)%list_elem_of_fmap. cbn [enrich Enriched.revenue].
      apply Qcmult_nonneg_nonneg; apply get_or_nonneg; intros x Hx; eauto. }
    split; [done|]. by apply totalRev_nonneg.
Qed.

End Revenue.

(** On a row with the quantity 1 and the price 10 and a row without
    quantity: the revenues are 10 and 0. *)
Lemma enrichOrders_revenue_witness :
  (∀ e, e ∈ enrichOrders (H := Utc.host) Ex.partial Ex.customers Ex.products →
        Enriched.revenue e
        = default 0 (Order.quantity (Enriched.base e))
          * default 0 (Order.unit_price (Enriched.base e)))
  ∧ this <$> (Enriched.revenue <$>
                enrichOrders (H := Utc.host) Ex.partial Ex.customers Ex.products)
    = [10 # 1; 0 # 1]%Q
  ∧ (∀ e, e ∈ enrichOrders (H := Utc.host) Ex.partial Ex.customers Ex.products →
          0 ≤ Enriched.revenue e)
  ∧ 0 ≤ totalRev (enrichOrders (H := Utc.host) Ex.partial Ex.customers Ex.products).
Proof.
  destruct (enrichOrders_revenue (H := Utc.host) Ex.partial Ex.customers Ex.products)
    as [Hrev Hsign].
  split; [exact Hrev|]. split; [vm_compute; reflexivity|].
  apply Hsign.
  - intros o x Ho.
    repeat (apply elem_of_cons in Ho as [->|Ho];
            [intros Hx; try discriminate Hx; injection Hx as <-; by vm_compute|]).
    by apply elem_of_nil in Ho.
  - intros o x Ho.
    repeat (apply elem_of_cons in Ho as [->|Ho];
            [intros Hx; try discriminate Hx; injection Hx as <-; by vm_compute|]).
    by apply elem_of_nil in Ho.
Defined.

(** ** Revenue by day of the week and hour *)

Section ClockFacts.
Context `{DateClock}.

Lemma weekend_split (orders : list Enriched.t) :
  weekendRev orders
  + totalRev (filter (λ o, ¬ getDay (Enriched.order_dt o) ∈ [6; 0]%Z) orders)
  = totalRev orders.
Proof.
  unfold weekendRev.
  fold (totalRev (filter (λ o, getDay (Enriched.order_dt o) ∈ [6; 0]%Z) orders)).
  rewrite !totalRev_sum, <-sum_app, <-fmap_app. apply sum_perm.
  by rewrite filter_app_complement.
Qed.

Lemma filter_revenue_range (P : Enriched.t → Prop) `{∀ o, Decision (P o)}
    (orders : list Enriched.t) :
  (∀ o, o ∈ orders → 0 ≤ Enriched.revenue o) →
  0 ≤ totalRev (filter P orders) ∧ totalRev (filter P orders) ≤ totalRev orders.
Proof.
  intros Hrev. split.
  - apply totalRev_nonneg. intros o Ho. apply Hrev. by apply list_elem_of_filter in Ho as [_ ?].
  - rewrite !totalRev_sum. by apply sum_filter_le.
Qed.

(** X28.  When no order has a negative revenue, the weekday revenue,
    which [main] gets by subtracting the weekend revenue from the total,
    is not negative, and the weekend share and the evening share of the
    revenue lie between 0 and 1. *)
Theorem weekendRev_split (orders : list Enriched.t) :
  (∀ o, o ∈ orders → 0 ≤ Enriched.revenue o) →
  0 ≤ weekdayRev orders
  ∧ (0 ≤ weekendShare orders ∧ weekendShare orders ≤ 1)
  ∧ (0 ≤ eveningShare orders ∧ eveningShare orders ≤ 1).
Proof.
  intros Hrev. split; [|split].
  - unfold weekdayRev. rewrite <-(weekend_split orders) at 1.
    replace (weekendRev orders
             + totalRev (filter (λ o, ¬ getDay (Enriched.order_dt o) ∈ [6; 0]%Z) orders)
             - weekendRev orders)
      with (totalRev (filter (λ o, ¬ getDay (Enriched.order_dt o) ∈ [6; 0]%Z) orders))
      by ring.
    by apply filter_revenue_range.
  - unfold weekendShare, weekendRev.
    fold (totalRev (filter (λ o, getDay (Enriched.order_dt o) ∈ [6; 0]%Z) orders)).
    by apply share_range; apply filter_revenue_range.
  - unfold eveningShare, eveningRev.
    fold (totalRev
            (filter
               (λ o, bool_decide (18 ≤ getHours (Enriched.order_dt o))%Z
                     && bool_decide (getHours (Enriched.order_dt o) ≤ 22)%Z)
               orders)).
    by apply share_range; apply (filter_revenue_range (λ o, Is_true (_ && _))).
Qed.

End ClockFacts.

Lemma weekendRev_split_witness :
  0 ≤ weekdayRev (H := UtcClock.clock) Ex.enriched
  ∧ (0 ≤ weekendShare (H := UtcClock.clock) Ex.enriched
     ∧ weekendShare (H := UtcClock.clock) Ex.enriched ≤ 1)
  ∧ (0 ≤ eveningShare (H := UtcClock.clock) Ex.enriched
     ∧ eveningShare (H := UtcClock.clock) Ex.enriched ≤ 1).
Proof.
  apply (weekendRev_split (H := UtcClock.clock) Ex.enriched).
  intros o Ho.
  repeat (apply elem_of_cons in Ho as [->|Ho]; [by vm_compute|]).
  by apply elem_of_nil in Ho.
Defined.

(** ** Month keys *)

Lemma append_cons (a : ascii) (s t : string) : String a s +:+ t = String a (s +:+ t).
Proof. reflexivity. Qed.

Lemma length_append (s t : string) :
  String.length (s +:+ t) = (String.length s + String.length t)%nat.
Proof.
  induction s as [|a s IH]; [done|]. rewrite append_cons. cbn [String.length]. by rewrite IH.
Qed.

Lemma append_inj_suffix (s1 s2 t1 t2 : string) :
  String.length t1 = String.length t2 → s1 +:+ t1 = s2 +:+ t2 → s1 = s2 ∧ t1 = t2.
Proof.
  intros Hlen. revert s2. induction s1 as [|a s1 IH]; intros [|b s2] Heq.
  - done.
  - change ("" +:+ t1) with t1 in Heq. rewrite Heq, length_append in Hlen.
    cbn [String.length] in Hlen. lia.
  - change ("" +:+ t2) with t2 in Heq. rewrite <-Heq, length_append in Hlen.
    cbn [String.length] in Hlen. lia.
  - rewrite !append_cons in Heq. injection Heq as -> Heq.
    destruct (IH s2 Heq) as [-> ->]. done.
Qed.

Lemma month_part_length (m : Z) :
  (0 ≤ m ≤ 11)%Z → String.length (Js.padStart 2 "0" (pretty (m + 1)%Z)) = 2%nat.
Proof.
  intros Hm.
  assert (m ∈ seqZ 0 12) as Hin by (apply elem_of_seqZ; lia).
  vm_compute seqZ in Hin.
  repeat (apply elem_of_cons in Hin as [->|Hin]; [reflexivity|]).
  by apply elem_of_nil in Hin.
Qed.

Lemma monthKey_inj (y1 m1 y2 m2 : Z) :
  (0 ≤ m1 ≤ 11)%Z → (0 ≤ m2 ≤ 11)%Z →
  monthKey y1 m1 = monthKey y2 m2 → y1 = y2 ∧ m1 = m2.
Proof.
  intros Hm1 Hm2 Heq. unfold monthKey in Heq.
  apply append_inj_suffix in Heq as [Hy Hm].
  - split; [by apply (inj pretty)|].
    rewrite !append_cons in Hm. injection Hm as Hm.
    change ("" +:+ ?s) with s in Hm.
    pose proof (month_part_compare m1 m2 Hm1 Hm2) as Hcmp.
    rewrite Hm, string_compare_refl in Hcmp. symmetry in Hcmp.
    by apply Z.compare_eq in Hcmp.
  - rewrite !append_cons. cbn [String.length].
    change ("" +:+ ?s) with s. by rewrite !month_part_length.
Qed.

Section Keys.
Context `{DateBuiltins}.

(** X29.  Two dates have the same month key exactly when they fall in
    the same month of the same year, whatever the year: distinct months
    never share a column of the matrix or a cohort. *)
Theorem ym_injective (d1 d2 : Z) :
  (0 ≤ getMonth d1 ≤ 11)%Z → (0 ≤ getMonth d2 ≤ 11)%Z →
  ym d1 = ym d2 ↔ getFullYear d1 = getFullYear d2 ∧ getMonth d1 = getMonth d2.
Proof.
  intros Hm1 Hm2. split.
  - intros Heq. by apply monthKey_inj.
  - intros [Hy Hm]. unfold ym. by rewrite Hy, Hm.
Qed.

End Keys.

Lemma ym_injective_witness :
  ym (H := Utc.host) 1672912800000 = ym (H := Utc.host) 1674243000000
  ↔ @getFullYear Utc.host 1672912800000 = @getFullYear Utc.host 1674243000000
    ∧ @getMonth Utc.host 1672912800000 = @getMonth Utc.host 1674243000000.
Proof.
  apply (ym_injective (H := Utc.host) 1672912800000 1674243000000).
  - by apply (bool_decide_unpack _); vm_compute.
  - by apply (bool_decide_unpack _); vm_compute.
Defined.
